(** * db-abstraction: a Rocq model of the statement compiler, the count
      semantics and the SQLite execution scheduler

    The development follows the TypeScript sources:
    - [Types.ts]    : [Interfaces], [prepareCreateTable], [createTable];
    - [MySQL.ts]    : the pooled backend;
    - [Postgres.ts] : the pooled backend with numbered placeholders;
    - [SQLite.ts]   : the single-connection backend and its tick-driven
                      queues.

    Strings are modelled on their ASCII range.  The database drivers
    ([sqlite3], [mysql], [pg]) are external: they appear as oracles,
    bundled in records, that answer every request with a success or an
    error. *)

From Stdlib Require Import String Ascii List ZArith Bool Arith Lia.
From Stdlib Require Import DecimalString.
Import ListNotations.
Open Scope list_scope.
Open Scope string_scope.

(** ** JavaScript built-ins used by the sources *)

Module JS.

(** Error objects: those the drivers hand to their callbacks, and the
    [TypeError] the engine raises on a property access on [undefined]. *)
Inductive Error : Type :=
| DriverError (message : string)
| TypeError (message : string).

(** The result of evaluating a call: a value, or a thrown exception. *)
Inductive completion (A : Type) : Type :=
| Normal (a : A)
| Throw (e : Error).
Arguments Normal {A} a.
Arguments Throw {A} e.

(** The state of a promise once the event loop has run it to rest. *)
Inductive settlement (A : Type) : Type :=
| Resolved (a : A)
| Rejected (e : Error).
Arguments Resolved {A} a.
Arguments Rejected {A} e.

(** Values that travel as [any]. *)
Inductive value : Type :=
| VUndefined
| VNull
| VBool (b : bool)
| VNum (n : Z)
| VStr (s : string).

(** [ToBoolean]. *)
Definition truthy (v : value) : bool :=
  match v with
  | VUndefined | VNull => false
  | VBool b => b
  | VNum n => negb (n =? 0)%Z
  | VStr s => negb (s =? "")
  end.

(** A row object: property names with their values, first match wins. *)
Definition object := list (string * value).

Fixpoint get (o : object) (k : string) : value :=
  match o with
  | [] => VUndefined
  | (k', v) :: o' => if k' =? k then v else get o' k
  end.

(** [Number.prototype.toString] on integers. *)
Definition number_to_string (n : Z) : string :=
  NilZero.string_of_int (Z.to_int n).

Definition is_upper (c : ascii) : bool :=
  let n := nat_of_ascii c in (65 <=? n)%nat && (n <=? 90)%nat.

Definition is_lower (c : ascii) : bool :=
  let n := nat_of_ascii c in (97 <=? n)%nat && (n <=? 122)%nat.

Definition lower_char (c : ascii) : ascii :=
  if is_upper c then ascii_of_nat (nat_of_ascii c + 32) else c.

Definition upper_char (c : ascii) : ascii :=
  if is_lower c then ascii_of_nat (nat_of_ascii c - 32) else c.

Fixpoint map_chars (f : ascii -> ascii) (s : string) : string :=
  match s with
  | EmptyString => EmptyString
  | String c r => String (f c) (map_chars f r)
  end.

Definition toLowerCase : string -> string := map_chars lower_char.
Definition toUpperCase : string -> string := map_chars upper_char.

(** [s.startsWith(p)]. *)
Definition startsWith (s p : string) : bool := prefix p s.

(** [s.endsWith(p)]. *)
Fixpoint endsWith (s p : string) : bool :=
  (s =? p) ||
  match s with
  | EmptyString => false
  | String _ r => endsWith r p
  end.

(** [s.includes(p)]. *)
Fixpoint includes (s p : string) : bool :=
  prefix p s ||
  match s with
  | EmptyString => false
  | String _ r => includes r p
  end.

(** [Array.prototype.join]. *)
Fixpoint join (sep : string) (l : list string) : string :=
  match l with
  | [] => ""
  | x :: r =>
      match r with
      | [] => x
      | _ :: _ => x ++ sep ++ join sep r
      end
  end.

Definition is_space (c : ascii) : bool :=
  let n := nat_of_ascii c in
  (n =? 32)%nat || ((9 <=? n)%nat && (n <=? 13)%nat).

Fixpoint trimStart (s : string) : string :=
  match s with
  | EmptyString => EmptyString
  | String c r => if is_space c then trimStart r else s
  end.

Fixpoint trimEnd (s : string) : string :=
  match s with
  | EmptyString => EmptyString
  | String c r =>
      match trimEnd r with
      | EmptyString => if is_space c then EmptyString else String c EmptyString
      | r' => String c r'
      end
  end.

(** [String.prototype.trim]. *)
Definition trim (s : string) : string := trimEnd (trimStart s).

(** [util.format] on string arguments.  [%s] consumes one argument,
    [%%] prints one percent sign, and a percent sign before a letter that
    is no placeholder is copied with that letter (this is what happens to
    the [%L] of the insert templates); arguments that are left over are
    appended, each after one space.  With no argument at all the format
    string is returned as it is.  The format strings of the sources hold
    [%s] and [%L] only: the other placeholders of Node ([%d], [%i], [%f],
    [%j], [%o], [%O], [%c]) are not modelled. *)
Fixpoint format_args (f : string) (args : list string) : string :=
  match f with
  | EmptyString =>
      fold_right (fun a acc => " " ++ a ++ acc) "" args
  | String c tl =>
      if Ascii.eqb c "%" then
        match tl with
        | EmptyString => String c (format_args tl args)
        | String d rest =>
            if Ascii.eqb d "s" then
              match args with
              | a :: args' => a ++ format_args rest args'
              | [] => String c (String d (format_args rest args))
              end
            else if Ascii.eqb d "%" then
              String "%" (format_args rest args)
            else String c (String d (format_args rest args))
        end
      else String c (format_args tl args)
  end.

Definition format (f : string) (args : list string) : string :=
  match args with
  | [] => f
  | _ :: _ => format_args f args
  end.

(** The position of the first occurrence of [pat]: what is before it and
    what is after it. *)
Fixpoint split_first (pat s : string) : option (string * string) :=
  if prefix pat s
  then Some ("", substring (String.length pat) (String.length s - String.length pat) s)
  else
    match s with
    | EmptyString => None
    | String c r =>
        match split_first pat r with
        | Some (before, after) => Some (String c before, after)
        | None => None
        end
    end.

(** [GetSubstitution] for a string pattern (no capture groups): [$$] is a
    dollar sign, [$&] the match, [$`] and [$'] the text before and after
    it; any other [$] is copied. *)
Fixpoint get_substitution (matched before after r : string) : string :=
  match r with
  | EmptyString => EmptyString
  | String c tl =>
      if Ascii.eqb c "$" then
        match tl with
        | EmptyString => String c EmptyString
        | String d rest =>
            if Ascii.eqb d "$" then
              String "$" (get_substitution matched before after rest)
            else if Ascii.eqb d "&" then
              matched ++ get_substitution matched before after rest
            else if Ascii.eqb d "`" then
              before ++ get_substitution matched before after rest
            else if Ascii.eqb d "'" then
              after ++ get_substitution matched before after rest
            else String c (get_substitution matched before after tl)
        end
      else String c (get_substitution matched before after tl)
  end.

(** [s.replace(pat, r)] with a string pattern: the first occurrence only. *)
Definition replace (s pat r : string) : string :=
  match split_first pat s with
  | None => s
  | Some (before, after) =>
      before ++ get_substitution pat before after r ++ after
  end.

(** [lacks c s]: the character [c] does not occur in [s]. *)
Fixpoint lacks (c : ascii) (s : string) : bool :=
  match s with
  | EmptyString => true
  | String d r => negb (Ascii.eqb d c) && lacks c r
  end.

End JS.

(** ** Types.ts *)

Module Interfaces.

Inductive DBType : Type := MYSQL | POSTGRES | SQLITE.

Record IBulkQuery : Type := {
  query : string;
  values : option (list JS.value)
}.

Record IForeignKey : Type := {
  table : string;
  column : string;
  update : option string;
  delete : option string
}.

Inductive default_value : Type :=
| DefaultString (s : string)
| DefaultNumber (n : Z).

Record ITableColumn : Type := {
  name : string;
  type : string;
  nullable : option bool;
  foreign : option IForeignKey;
  unique : option bool;
  default : option default_value
}.

(** [IQueryResult = [number, any[]]]. *)
Definition IQueryResult : Type := (Z * list JS.object)%type.

Definition IValueArray : Type := list (list JS.value).

End Interfaces.

Module Types.
Import Interfaces.

Record prepared : Type := {
  table : string;
  indexes : list string
}.

(** ['DEFAULT ' + col.default]. *)
Definition default_text (d : default_value) : string :=
  match d with
  | DefaultString s => "DEFAULT " ++ s
  | DefaultNumber n => "DEFAULT " ++ JS.number_to_string n
  end.

(** [!col.nullable]: an absent flag counts as not nullable. *)
Definition not_nullable (col : ITableColumn) : bool :=
  match col.(nullable) with
  | Some true => false
  | _ => true
  end.

Definition field_text (col : ITableColumn) : string :=
  JS.format "%s %s %s %s"
    [ col.(name);
      col.(type);
      if not_nullable col then "NOT NULL" else "NULL";
      match col.(default) with
      | Some d => default_text d
      | None => ""
      end ].

(** [elem.unique === true]. *)
Definition is_unique (col : ITableColumn) : bool :=
  match col.(unique) with
  | Some true => true
  | _ => false
  end.

Definition unique_index_text (name : string) (col : ITableColumn) : string :=
  JS.format "CREATE UNIQUE INDEX IF NOT EXISTS %s_unique_%s ON %s (%s);"
    [ name; col.(Interfaces.name); name; col.(Interfaces.name) ].

Definition constraint_fmt : string :=
  ", CONSTRAINT %s_%s_fkey FOREIGN KEY (%s) REFERENCES %s (%s)".

(** A string is truthy when it is present and not empty. *)
Definition present (o : option string) : option string :=
  match o with
  | Some s => if s =? "" then None else Some s
  | None => None
  end.

Definition constraint_text (name : string) (field : ITableColumn)
    (fk : IForeignKey) : string :=
  let constraint :=
    JS.format constraint_fmt
      [ name; field.(Interfaces.name); field.(Interfaces.name);
        fk.(Interfaces.table); fk.(column) ] in
  let constraint :=
    match present fk.(delete) with
    | Some d => constraint ++ JS.format " ON DELETE %s" [ JS.toUpperCase d ]
    | None => constraint
    end in
  match present fk.(update) with
  | Some u => constraint ++ JS.format " ON UPDATE %s" [ JS.toUpperCase u ]
  | None => constraint
  end.

(** The [for (const field of fields)] loop, pushing onto [l_constraints]. *)
Fixpoint constraints_loop (name : string) (fields : list ITableColumn)
    (l_constraints : list string) : list string :=
  match fields with
  | [] => l_constraints
  | field :: rest =>
      match field.(foreign) with
      | Some fk =>
          constraints_loop name rest
            (l_constraints ++ [constraint_text name field fk])%list
      | None => constraints_loop name rest l_constraints
      end
  end.

Definition prepareCreateTable (dbType : DBType) (name : string)
    (fields : list ITableColumn) (primaryKey : list string)
    (tableOptions : option string) : prepared :=
  let l_fields := map field_text fields in
  let l_unique := map (unique_index_text name) (filter is_unique fields) in
  let l_constraints := constraints_loop name fields [] in
  let sql :=
    JS.trim
      (JS.format "CREATE TABLE IF NOT EXISTS %s (%s, PRIMARY KEY (%s)%s) %s;"
         [ name;
           JS.join ", " l_fields;
           JS.join "," primaryKey;
           JS.join "," l_constraints;
           match present tableOptions with
           | Some o => o
           | None => ""
           end ]) in
  {| table := sql; indexes := l_unique |}.

(** A column with its [unique] flag removed. *)
Definition without_unique (col : ITableColumn) : ITableColumn :=
  {| name := col.(name); type := col.(type); nullable := col.(nullable);
     foreign := col.(foreign); unique := None; default := col.(default) |}.

(** The body of [prepareCreateTable] has no [throw] and calls only total
    built-ins ([format], [map], [filter], [join], [trim]); a call
    therefore completes normally with the record above. *)
Definition prepareCreateTable_call (dbType : DBType) (name : string)
    (fields : list ITableColumn) (primaryKey : list string)
    (tableOptions : option string) : JS.completion prepared :=
  JS.Normal (prepareCreateTable dbType name fields primaryKey tableOptions).

(** [createTable]: the table statement in one transaction, then the
    index statements in a second one when there are any.  [transaction]
    is the method of the backend at hand, seen through the promise it
    returns once settled: [None] when resolved, the error when rejected.
    A rejected [await] leaves the function at once. *)
Section CreateTable.
Variable World : Type.
Variable transaction :
  World -> list IBulkQuery -> World * option JS.Error.

Definition statement (text : string) : IBulkQuery :=
  {| query := text; values := None |}.

Definition createTable (db : World) (dbType : DBType) (name : string)
    (fields : list ITableColumn) (primaryKey : list string)
    (tableOptions : option string) : World * option JS.Error :=
  let preparedTable :=
    prepareCreateTable dbType name fields primaryKey tableOptions in
  match transaction db [statement preparedTable.(table)] with
  | (db1, Some e) => (db1, Some e)
  | (db1, None) =>
      match preparedTable.(indexes) with
      | [] => (db1, None)
      | _ :: _ =>
          let stmts := map statement preparedTable.(indexes) in
          transaction db1 stmts
      end
  end.
End CreateTable.

(** [if (field.foreign)]. *)
Definition has_foreign (col : ITableColumn) : bool :=
  match col.(foreign) with
  | Some _ => true
  | None => false
  end.

(** A foreign key with its two actions in upper case. *)
Definition upper_actions (fk : IForeignKey) : IForeignKey :=
  {| Interfaces.table := fk.(Interfaces.table); column := fk.(column);
     update := option_map JS.toUpperCase fk.(update);
     delete := option_map JS.toUpperCase fk.(delete) |}.

(** The [transaction] of a backend together with a record of the
    statement lists it was called with, in the order of the calls. *)
Section Recorded.
Variable World : Type.
Variable transaction :
  World -> list IBulkQuery -> World * option JS.Error.

Definition recorded (w : World * list (list IBulkQuery))
    (queries : list IBulkQuery)
    : (World * list (list IBulkQuery)) * option JS.Error :=
  match transaction (fst w) queries with
  | (db, r) => ((db, (snd w ++ [queries])%list), r)
  end.
End Recorded.

End Types.

(** ** EventEmitter: the ['error'] event

    Every backend class extends [EventEmitter].  Emitting ['error'] calls
    the listeners registered for it, in order; with no listener the
    emitter throws the error instead.  An exception of a listener leaves
    [emit]. *)

Module EventEmitter.

Definition listener : Type := JS.Error -> JS.completion unit.

Fixpoint call_listeners (ls : list listener) (e : JS.Error)
    : JS.completion unit :=
  match ls with
  | [] => JS.Normal tt
  | l :: rest =>
      match l e with
      | JS.Normal _ => call_listeners rest e
      | JS.Throw x => JS.Throw x
      end
  end.

Definition emit_error (ls : list listener) (e : JS.Error)
    : JS.completion unit :=
  match ls with
  | [] => JS.Throw e
  | _ :: _ => call_listeners ls e
  end.

End EventEmitter.

(** ** The [createTable] method of the backend classes

    [MySQL], [Postgres] and [SQLite] have the same method: the shared
    [createTable] inside [try], and [this.emit('error', error)] in the
    [catch] block.  The result is the promise of the call and the errors
    that reached the listeners. *)

Module Backend.
Import Interfaces.

Record created (World : Type) : Type := {
  db_after : World;
  returned : JS.settlement unit;
  reported : list JS.Error
}.
Arguments db_after {World} _.
Arguments returned {World} _.
Arguments reported {World} _.

Section Method.
Variable World : Type.
Variable transaction :
  World -> list IBulkQuery -> World * option JS.Error.
Variable type : DBType.
Variable listeners : list EventEmitter.listener.

Definition createTable (this : World) (name : string)
    (fields : list ITableColumn) (primaryKey : list string)
    (tableOptions : option string) : created World :=
  match Types.createTable World transaction this type name fields
          primaryKey tableOptions with
  | (db, None) =>
      {| db_after := db; returned := JS.Resolved tt; reported := [] |}
  | (db, Some error) =>
      match EventEmitter.emit_error listeners error with
      | JS.Normal _ =>
          {| db_after := db; returned := JS.Resolved tt;
             reported := [error] |}
      | JS.Throw e =>
          {| db_after := db; returned := JS.Rejected e;
             reported := match listeners with
                         | [] => []
                         | _ :: _ => [error]
                         end |}
      end
  end.
End Method.

End Backend.

(** ** The [mysql] escape function

    [escape] comes from the [mysql] package; the statement builders are
    parametric in it.  [SqlString.escape] below renders the values the
    examples use: numbers in decimal, strings between single quotes (the
    examples have no character that needs a backslash), nested arrays as
    parenthesised lists separated by a comma and a space. *)

Module SqlString.

Definition escape_value (v : JS.value) : string :=
  match v with
  | JS.VUndefined | JS.VNull => "NULL"
  | JS.VBool true => "true"
  | JS.VBool false => "false"
  | JS.VNum n => JS.number_to_string n
  | JS.VStr s => "'" ++ s ++ "'"
  end.

Definition escape (rows : Interfaces.IValueArray) : string :=
  JS.join ", "
    (map (fun row => "(" ++ JS.join ", " (map escape_value row) ++ ")") rows).

End SqlString.

(** ** MySQL.ts: statement builders and the count of [query] *)

Module MySQL.
Import Interfaces.

Definition hashType : string := "char(64)".
Definition blobType : string := "longtext".
Definition uint32Type : string := "int(10) unsigned".
Definition uint64Type : string := "bigint(20) unsigned".

Section Builders.
Variable escape : IValueArray -> string.

Definition prepareMultiInsert (table : string) (columns : list string)
    (values : option IValueArray) : string :=
  let query :=
    JS.format "INSERT INTO %s (%s) VALUES %L" [table; JS.join "," columns] in
  match values with
  | Some v => JS.replace query "%L" (escape v)
  | None => query
  end.

(** The [for (const column of columns)] loop, pushing onto [updates]. *)
Fixpoint updates_loop (columns : list string) (updates : list string)
    : list string :=
  match columns with
  | [] => updates
  | column :: rest =>
      updates_loop rest
        (updates ++ [JS.format " %s = VALUES(%s)" [column; column]])%list
  end.

Definition prepareMultiUpdate (table : string) (primaryKey : list string)
    (columns : list string) (values : option IValueArray) : string :=
  let query :=
    prepareMultiInsert table (primaryKey ++ columns)%list values in
  let updates := updates_loop columns [] in
  JS.format "%s ON DUPLICATE KEY UPDATE %s" [query; JS.join "," updates].
End Builders.

(** What the [mysql] driver passes as [results]: an [OkPacket] for a
    statement that returns no rows, an array of rows otherwise. *)
Inductive results : Type :=
| OkPacket (affectedRows insertId changedRows : Z)
| RowDataPackets (rows : list JS.object).

Definition changedRows_of (r : results) : JS.value :=
  match r with
  | OkPacket _ _ c => JS.VNum c
  | RowDataPackets _ => JS.VUndefined
  end.

Definition affectedRows_of (r : results) : JS.value :=
  match r with
  | OkPacket a _ _ => JS.VNum a
  | RowDataPackets _ => JS.VUndefined
  end.

Definition insertId_of (r : results) : JS.value :=
  match r with
  | OkPacket _ i _ => JS.VNum i
  | RowDataPackets _ => JS.VUndefined
  end.

Definition length_of (r : results) : JS.value :=
  match r with
  | OkPacket _ _ _ => JS.VUndefined
  | RowDataPackets rows => JS.VNum (Z.of_nat (List.length rows))
  end.

(** [a || b]. *)
Definition or_else (a b : JS.value) : JS.value :=
  if JS.truthy a then a else b.

(** [results.changedRows || results.affectedRows || results.insertId ||
    results.length]. *)
Definition count (r : results) : JS.value :=
  or_else (or_else (or_else (changedRows_of r) (affectedRows_of r))
                   (insertId_of r))
          (length_of r).

(** *** The pool

    The [mysql] pool and the connection drawn from it are an oracle over
    their own state [P]: every request is answered with an optional
    error, [query] on the pool with an error or with [results]. *)
Record Pool (P : Type) : Type := {
  pool_query : P -> string -> list JS.value -> P * (JS.Error + results);
  getConnection : P -> P * option JS.Error;
  conn_beginTransaction : P -> P * option JS.Error;
  conn_query : P -> string -> list JS.value -> P * option JS.Error;
  conn_commit : P -> P * option JS.Error;
  conn_rollback : P -> P * option JS.Error;
  conn_release : P -> P
}.
Arguments pool_query {P} _ _ _ _.
Arguments getConnection {P} _ _.
Arguments conn_beginTransaction {P} _ _.
Arguments conn_query {P} _ _ _ _.
Arguments conn_commit {P} _ _.
Arguments conn_rollback {P} _ _.
Arguments conn_release {P} _ _.

Section Execution.
Variable P : Type.
Variable pool : Pool P.

Definition values_or_empty (v : option (list JS.value)) : list JS.value :=
  match v with
  | Some l => l
  | None => []
  end.

(** [query]: the text of the statement plays no part in the count. *)
Definition query (m_db : P) (text : string)
    (values : option (list JS.value))
    : P * JS.settlement (JS.value * results) :=
  match pool_query pool m_db text (values_or_empty values) with
  | (m_db', inl error) => (m_db', JS.Rejected error)
  | (m_db', inr res) => (m_db', JS.Resolved (count res, res))
  end.

(** The [for (const q of queries)] loop of [transaction]: the first
    rejection leaves it. *)
Fixpoint run_queries (m_db : P) (queries : list IBulkQuery)
    : P * option JS.Error :=
  match queries with
  | [] => (m_db, None)
  | q :: rest =>
      match conn_query pool m_db (Interfaces.query q)
              (values_or_empty (Interfaces.values q)) with
      | (m_db', Some e) => (m_db', Some e)
      | (m_db', None) => run_queries m_db' rest
      end
  end.

(** The [catch (e)] block with the [finally] block after it. *)
Definition catch_finally (m_db : P) (e : JS.Error) : P * option JS.Error :=
  match conn_rollback pool m_db with
  | (m_db', Some e') => (conn_release pool m_db', Some e')
  | (m_db', None) => (conn_release pool m_db', Some e)
  end.

(** [transaction]: [None] when the promise resolves, the error when it
    rejects. *)
Definition transaction (m_db : P) (queries : list IBulkQuery)
    : P * option JS.Error :=
  match getConnection pool m_db with
  | (m0, Some e) => (m0, Some e)
  | (m0, None) =>
      match conn_beginTransaction pool m0 with
      | (m1, Some e) => catch_finally m1 e
      | (m1, None) =>
          match run_queries m1 queries with
          | (m2, Some e) => catch_finally m2 e
          | (m2, None) =>
              match conn_commit pool m2 with
              | (m3, Some e) => catch_finally m3 e
              | (m3, None) => (conn_release pool m3, None)
              end
          end
      end
  end.

Definition createTable (listeners : list EventEmitter.listener)
    : P -> string -> list ITableColumn -> list string -> option string
      -> Backend.created P :=
  Backend.createTable P transaction MYSQL listeners.
End Execution.

(** *** The requests a call makes

    What the pool and the connection are asked, in order.  [logged pool]
    answers as [pool] does and keeps the list of the requests next to the
    state of [pool]. *)
Inductive request : Type :=
| PoolQuery (text : string) (values : list JS.value)
| GetConnection
| BeginTransaction
| ConnQuery (text : string) (values : list JS.value)
| Commit
| Rollback
| Release.

Definition logged {P : Type} (pool : Pool P) : Pool (P * list request) :=
  {| pool_query := fun s text values =>
       match pool_query pool (fst s) text values with
       | (m, r) => ((m, (snd s ++ [PoolQuery text values])%list), r)
       end;
     getConnection := fun s =>
       match getConnection pool (fst s) with
       | (m, r) => ((m, (snd s ++ [GetConnection])%list), r)
       end;
     conn_beginTransaction := fun s =>
       match conn_beginTransaction pool (fst s) with
       | (m, r) => ((m, (snd s ++ [BeginTransaction])%list), r)
       end;
     conn_query := fun s text values =>
       match conn_query pool (fst s) text values with
       | (m, r) => ((m, (snd s ++ [ConnQuery text values])%list), r)
       end;
     conn_commit := fun s =>
       match conn_commit pool (fst s) with
       | (m, r) => ((m, (snd s ++ [Commit])%list), r)
       end;
     conn_rollback := fun s =>
       match conn_rollback pool (fst s) with
       | (m, r) => ((m, (snd s ++ [Rollback])%list), r)
       end;
     conn_release := fun s =>
       (conn_release pool (fst s), (snd s ++ [Release])%list) |}.

(** The request that executes one statement of a transaction. *)
Definition statement_request (q : IBulkQuery) : request :=
  ConnQuery (Interfaces.query q) (values_or_empty (Interfaces.values q)).

End MySQL.

(** ** SQLite.ts: statement builders, counts and [getPragma] *)

Module SQLite.
Import Interfaces.

Definition hashType : string := "varchar(64)".
Definition blobType : string := "text".
Definition uint32Type : string := "unsigned int".
Definition uint64Type : string := "unsigned bigint".

Section Builders.
Variable escape : IValueArray -> string.

Definition prepareMultiInsert (table : string) (columns : list string)
    (values : option IValueArray) : string :=
  let query :=
    JS.format "INSERT INTO %s (%s) %L" [table; JS.join "," columns] in
  match values with
  | Some v => JS.replace query "%L" (escape v)
  | None => query
  end.

(** The [for (const column of columns)] loop, pushing onto [updates]. *)
Fixpoint updates_loop (columns : list string) (updates : list string)
    : list string :=
  match columns with
  | [] => updates
  | column :: rest =>
      updates_loop rest
        (updates ++ [JS.format " %s = excluded.%s" [column; column]])%list
  end.

Definition prepareMultiUpdate (table : string) (primaryKey : list string)
    (columns : list string) (values : option IValueArray) : string :=
  let query :=
    prepareMultiInsert table (primaryKey ++ columns)%list values in
  let updates := updates_loop columns [] in
  JS.format "%s ON CONFLICT (%s) DO UPDATE SET %s"
    [query; JS.join "," primaryKey; JS.join "," updates].
End Builders.

(** [query.toLowerCase().startsWith(verb)]. *)
Definition has_verb (query verb : string) : bool :=
  JS.startsWith (JS.toLowerCase query) verb.

(** What [all] resolves with, given the rows of the driver. *)
Definition all_result (rows : list JS.object) : IQueryResult :=
  (Z.of_nat (List.length rows), rows).

(** What [run] resolves with, given [this.lastID] and [this.changes]. *)
Definition run_result (query : string) (lastID changes : Z) : IQueryResult :=
  let count :=
    if has_verb query "insert" then lastID
    else if has_verb query "update" || has_verb query "delete" then changes
    else 0%Z in
  (count, []).

(** *** getPragma *)

Inductive pragma_value : Type :=
| Single (v : JS.value)
| Column (vs : list JS.value)
| Rows (rows : list JS.object).

(** [rows[0][option]]: reading a property of [rows[0]] when there is no
    such element raises a [TypeError]. *)
Definition first_row_property (rows : list JS.object) (option : string)
    : JS.completion JS.value :=
  match rows with
  | [] => JS.Throw (JS.TypeError "Cannot read properties of undefined")
  | r :: _ => JS.Normal (JS.get r option)
  end.

(** The statements of [getPragma] after the [await]. *)
Definition getPragma_result (option : string) (result : IQueryResult)
    : JS.completion pragma_value :=
  let (count, rows) := result in
  if (count =? 1)%Z then
    match first_row_property rows option with
    | JS.Normal v => JS.Normal (Single v)
    | JS.Throw e => JS.Throw e
    end
  else
    match first_row_property rows option with
    | JS.Normal v =>
        if JS.truthy v
        then JS.Normal (Column (map (fun elem => JS.get elem option) rows))
        else JS.Normal (Rows rows)
    | JS.Throw e => JS.Throw e
    end.

Definition pragma_query (option : string) : string :=
  "PRAGMA " ++ JS.toLowerCase option.

(** [getPragma] is an [async] function: a rejection of the awaited query
    and an exception of the body both reject its promise. *)
Definition getPragma (option : string)
    (answer : JS.settlement IQueryResult) : JS.settlement pragma_value :=
  match answer with
  | JS.Rejected e => JS.Rejected e
  | JS.Resolved result =>
      match getPragma_result (JS.toLowerCase option) result with
      | JS.Normal v => JS.Resolved v
      | JS.Throw e => JS.Rejected e
      end
  end.

(** *** The connection

    [sqlite3]'s [Database] is an oracle over its own state [DB]: [run]
    answers with an error or with [lastID] and [changes], [all] with an
    error or with rows, [close] with an optional error. *)

Inductive run_reply : Type :=
| RunError (e : JS.Error)
| RunDone (lastID changes : Z).

Record Database (DB : Type) : Type := {
  db_run : DB -> string -> option (list JS.value) -> DB * run_reply;
  db_all : DB -> string -> option (list JS.value)
           -> DB * (JS.Error + list JS.object);
  db_close : DB -> DB * option JS.Error
}.
Arguments db_run {DB} _ _ _ _.
Arguments db_all {DB} _ _ _ _.
Arguments db_close {DB} _ _.

(** *** The queues

    The [callback] of an entry settles the promise that the submitting
    call returned; promises are numbered in the order of the calls. *)

Definition promise := nat.

Record ITransactionQueueEntry : Type := {
  tq_queries : list IBulkQuery;
  tq_callback : promise
}.

Record IQueryQueueEntry : Type := {
  qq_query : string;
  qq_values : option (list JS.value);
  qq_callback : promise
}.

(** Where the [async] tick handler is suspended: at the request it has
    handed to the connection and whose callback it awaits.  [Dead t e] is
    the handler left by the exception [e] of the [await
    rollback(connection)] in the [catch] block of transaction [t]: nothing
    catches it, and the statements after that [await] are never
    executed. *)
Inductive handler_state : Type :=
| Idle
| AwaitBegin (t : ITransactionQueueEntry)
| AwaitQuery (t : ITransactionQueueEntry) (q : IBulkQuery)
    (rest : list IBulkQuery)
| AwaitCommit (t : ITransactionQueueEntry)
| AwaitRollback (t : ITransactionQueueEntry) (e : JS.Error)
| AwaitAll (q : IQueryQueueEntry)
| AwaitRun (q : IQueryQueueEntry)
| Dead (t : ITransactionQueueEntry) (e : JS.Error).

(** Where a call of [close] is. *)
Inductive close_state : Type :=
| NotClosing
| Sleeping
| CloseRequested
| CloseSettled (r : JS.settlement unit).

Definition outcome : Type := JS.settlement (option IQueryResult).

(** [getPragma] on the promise of its query once settled.  A query
    promise resolved with [undefined] cannot be destructured: [const
    [count, rows] = undefined] raises a [TypeError]. *)
Definition getPragma_settled (option : string) (o : outcome)
    : JS.settlement pragma_value :=
  match o with
  | JS.Rejected e => JS.Rejected e
  | JS.Resolved (Some result) => getPragma option (JS.Resolved result)
  | JS.Resolved None => JS.Rejected (JS.TypeError "undefined is not iterable")
  end.

(** *** setPragma *)

Definition pragmaFunctionCalls : list string :=
  [ "quick_check";
    "integrity_check";
    "incremental_vacuum";
    "foreign_key_check";
    "foreign_key_list";
    "index_info";
    "index_list";
    "index_xinfo";
    "table_info";
    "table_xinfo";
    "optimize" ].

(** [value: boolean | number | string], and the text it contributes to a
    concatenation. *)
Inductive pragma_setting : Type :=
| SetBoolean (b : bool)
| SetNumber (n : Z)
| SetString (s : string).

Definition setting_text (value : pragma_setting) : string :=
  match value with
  | SetBoolean true => "true"
  | SetBoolean false => "false"
  | SetNumber n => JS.number_to_string n
  | SetString s => s
  end.

(** [pragmaFunctionCalls.indexOf(option) !== -1]. *)
Definition is_function_call (option : string) : bool :=
  existsb (String.eqb option) pragmaFunctionCalls.

(** The statement [setPragma] hands to [query]. *)
Definition setPragma_query (option : string) (value : pragma_setting)
    : string :=
  let option := JS.toLowerCase option in
  let query := "PRAGMA " in
  if is_function_call option
  then query ++ (option ++ "(" ++ setting_text value ++ ")")
  else query ++ (option ++ " = " ++ setting_text value).

Section Scheduler.
Variable DB : Type.
Variable driver : Database DB.

Record state : Type := {
  m_db : DB;
  paused : bool;
  m_transactionQueue : list ITransactionQueueEntry;
  m_allQueue : list IQueryQueueEntry;
  m_runQueue : list IQueryQueueEntry;
  handler : handler_state;
  closing : close_state;
  promises : nat;
  settled : list (promise * outcome);
  sent : list string
}.

Definition set_db (d : DB) (s : state) : state :=
  {| m_db := d; paused := paused s;
     m_transactionQueue := m_transactionQueue s;
     m_allQueue := m_allQueue s; m_runQueue := m_runQueue s;
     handler := handler s; closing := closing s;
     promises := promises s; settled := settled s; sent := sent s |}.

Definition set_paused (b : bool) (s : state) : state :=
  {| m_db := m_db s; paused := b;
     m_transactionQueue := m_transactionQueue s;
     m_allQueue := m_allQueue s; m_runQueue := m_runQueue s;
     handler := handler s; closing := closing s;
     promises := promises s; settled := settled s; sent := sent s |}.

Definition set_transactionQueue (q : list ITransactionQueueEntry)
    (s : state) : state :=
  {| m_db := m_db s; paused := paused s;
     m_transactionQueue := q;
     m_allQueue := m_allQueue s; m_runQueue := m_runQueue s;
     handler := handler s; closing := closing s;
     promises := promises s; settled := settled s; sent := sent s |}.

Definition set_allQueue (q : list IQueryQueueEntry) (s : state) : state :=
  {| m_db := m_db s; paused := paused s;
     m_transactionQueue := m_transactionQueue s;
     m_allQueue := q; m_runQueue := m_runQueue s;
     handler := handler s; closing := closing s;
     promises := promises s; settled := settled s; sent := sent s |}.

Definition set_runQueue (q : list IQueryQueueEntry) (s : state) : state :=
  {| m_db := m_db s; paused := paused s;
     m_transactionQueue := m_transactionQueue s;
     m_allQueue := m_allQueue s; m_runQueue := q;
     handler := handler s; closing := closing s;
     promises := promises s; settled := settled s; sent := sent s |}.

Definition set_handler (h : handler_state) (s : state) : state :=
  {| m_db := m_db s; paused := paused s;
     m_transactionQueue := m_transactionQueue s;
     m_allQueue := m_allQueue s; m_runQueue := m_runQueue s;
     handler := h; closing := closing s;
     promises := promises s; settled := settled s; sent := sent s |}.

Definition set_closing (c : close_state) (s : state) : state :=
  {| m_db := m_db s; paused := paused s;
     m_transactionQueue := m_transactionQueue s;
     m_allQueue := m_allQueue s; m_runQueue := m_runQueue s;
     handler := handler s; closing := c;
     promises := promises s; settled := settled s; sent := sent s |}.

(** A new promise for the caller. *)
Definition new_promise (s : state) : state :=
  {| m_db := m_db s; paused := paused s;
     m_transactionQueue := m_transactionQueue s;
     m_allQueue := m_allQueue s; m_runQueue := m_runQueue s;
     handler := handler s; closing := closing s;
     promises := S (promises s); settled := settled s; sent := sent s |}.

(** [callback(error, result)]. *)
Definition settle (p : promise) (o : outcome) (s : state) : state :=
  {| m_db := m_db s; paused := paused s;
     m_transactionQueue := m_transactionQueue s;
     m_allQueue := m_allQueue s; m_runQueue := m_runQueue s;
     handler := handler s; closing := closing s;
     promises := promises s;
     settled := (settled s ++ [(p, o)])%list; sent := sent s |}.

(** A statement is handed to [m_db]. *)
Definition send (text : string) (s : state) : state :=
  {| m_db := m_db s; paused := paused s;
     m_transactionQueue := m_transactionQueue s;
     m_allQueue := m_allQueue s; m_runQueue := m_runQueue s;
     handler := handler s; closing := closing s;
     promises := promises s; settled := settled s;
     sent := (sent s ++ [text])%list |}.

(** **** Submission: [query] and [transaction] *)

Definition query (text : string) (values : option (list JS.value))
    (s : state) : state :=
  let entry :=
    {| qq_query := text; qq_values := values;
       qq_callback := promises s |} in
  if has_verb text "select"
  then new_promise (set_allQueue (m_allQueue s ++ [entry])%list s)
  else new_promise (set_runQueue (m_runQueue s ++ [entry])%list s).

Definition transaction (queries : list IBulkQuery) (s : state) : state :=
  let entry := {| tq_queries := queries; tq_callback := promises s |} in
  new_promise
    (set_transactionQueue (m_transactionQueue s ++ [entry])%list s).

(** **** The tick handler

    The three [while] loops, each entered at its test.  A loop that finds
    an entry shifts it, hands its first request to the connection and
    suspends.  [shift] yields an entry whenever the length is positive, so
    the [break] of the loops is never taken.  [await this.connection()]
    resumes before any other callback of the event loop: shifting an entry
    and sending its first request are one step. *)

Definition loop_run (s : state) : state :=
  match m_runQueue s with
  | queue :: rest =>
      set_handler (AwaitRun queue)
        (send (qq_query queue) (set_runQueue rest s))
  | [] => set_handler Idle (set_paused false s)
  end.

Definition loop_all (s : state) : state :=
  match m_allQueue s with
  | queue :: rest =>
      set_handler (AwaitAll queue)
        (send (qq_query queue) (set_allQueue rest s))
  | [] => loop_run s
  end.

Definition loop_transactions (s : state) : state :=
  match m_transactionQueue s with
  | queuedTransaction :: rest =>
      set_handler (AwaitBegin queuedTransaction)
        (send "BEGIN TRANSACTION" (set_transactionQueue rest s))
  | [] => loop_all s
  end.

(** The [for (const q of queuedTransaction.queries)] loop. *)
Definition next_statement (t : ITransactionQueueEntry)
    (remaining : list IBulkQuery) (s : state) : state :=
  match remaining with
  | q :: rest =>
      set_handler (AwaitQuery t q rest) (send (Interfaces.query q) s)
  | [] => set_handler (AwaitCommit t) (send "COMMIT" s)
  end.

(** The [catch (e)] block, up to its [await]. *)
Definition catch_transaction (t : ITransactionQueueEntry) (e : JS.Error)
    (s : state) : state :=
  set_handler (AwaitRollback t e) (send "ROLLBACK" s).

(** [values: any[] = []] of the module-level [query]. *)
Definition values_or_empty (v : option (list JS.value))
    : option (list JS.value) :=
  match v with
  | Some l => Some l
  | None => Some []
  end.

(** The handler fires: the timer is paused and the first loop entered.  A
    paused [Metronome] emits no tick. *)
Definition tick (s : state) : state :=
  if paused s then s else loop_transactions (set_paused true s).

(** The connection answers the request in flight and the handler runs
    up to its next [await]. *)
Definition reply (s : state) : state :=
  match handler s with
  | Idle | Dead _ _ => s
  | AwaitBegin t =>
      match db_run driver (m_db s) "BEGIN TRANSACTION" None with
      | (d, RunError e) => catch_transaction t e (set_db d s)
      | (d, RunDone _ _) => next_statement t (tq_queries t) (set_db d s)
      end
  | AwaitQuery t q rest =>
      match db_run driver (m_db s) (Interfaces.query q)
              (values_or_empty (Interfaces.values q)) with
      | (d, RunError e) => catch_transaction t e (set_db d s)
      | (d, RunDone _ _) => next_statement t rest (set_db d s)
      end
  | AwaitCommit t =>
      match db_run driver (m_db s) "COMMIT" None with
      | (d, RunError e) => catch_transaction t e (set_db d s)
      | (d, RunDone _ _) =>
          loop_transactions
            (settle (tq_callback t) (JS.Resolved None) (set_db d s))
      end
  | AwaitRollback t e =>
      match db_run driver (m_db s) "ROLLBACK" None with
      | (d, RunError e') => set_handler (Dead t e') (set_db d s)
      | (d, RunDone _ _) =>
          loop_transactions
            (settle (tq_callback t) (JS.Rejected e) (set_db d s))
      end
  | AwaitAll queue =>
      match db_all driver (m_db s) (qq_query queue) (qq_values queue) with
      | (d, inl e) =>
          loop_all (settle (qq_callback queue) (JS.Rejected e) (set_db d s))
      | (d, inr rows) =>
          loop_all
            (settle (qq_callback queue)
               (JS.Resolved (Some (all_result rows))) (set_db d s))
      end
  | AwaitRun queue =>
      match db_run driver (m_db s) (qq_query queue) (qq_values queue) with
      | (d, RunError e) =>
          loop_run (settle (qq_callback queue) (JS.Rejected e) (set_db d s))
      | (d, RunDone lastID changes) =>
          loop_run
            (settle (qq_callback queue)
               (JS.Resolved (Some (run_result (qq_query queue) lastID changes)))
               (set_db d s))
      end
  end.

(** **** close

    The [while] loop of [close] tests the three queues, sleeps when one of
    them holds an entry and tests again when the sleep has elapsed; when
    the three are empty it calls [m_db.close], whose callback settles the
    promise of [close].  One call of [close] is followed: a call made while
    another is under way is left out. *)

Definition queues_empty (s : state) : bool :=
  match m_transactionQueue s, m_runQueue s, m_allQueue s with
  | [], [], [] => true
  | _, _, _ => false
  end.

(** The test of the [while] loop of [close]: sleep, or call
    [m_db.close]. *)
Definition close_poll (s : state) : state :=
  if queues_empty s
  then set_closing CloseRequested s
  else set_closing Sleeping s.

Definition close (s : state) : state :=
  match closing s with
  | NotClosing => close_poll s
  | _ => s
  end.

Definition wake (s : state) : state :=
  match closing s with
  | Sleeping => close_poll s
  | _ => s
  end.

(** The callback of [m_db.close]. *)
Definition closed (s : state) : state :=
  match closing s with
  | CloseRequested =>
      match db_close driver (m_db s) with
      | (d, Some error) =>
          set_closing (CloseSettled (JS.Rejected error)) (set_db d s)
      | (d, None) =>
          set_closing (CloseSettled (JS.Resolved tt)) (set_db d s)
      end
  | _ => s
  end.

(** **** The event loop

    What the event loop may run next: a call made by the user of the
    instance, a tick of the timer, the callback of the request in flight
    ([Reply]), the end of a sleep of [close] ([Wake]), or the callback of
    [m_db.close] ([Closed]). *)

Inductive event : Type :=
| CallQuery (text : string) (values : option (list JS.value))
| CallTransaction (queries : list IBulkQuery)
| CallClose
| Tick
| Reply
| Wake
| Closed.

Definition step (s : state) (ev : event) : state :=
  match ev with
  | CallQuery text values => query text values s
  | CallTransaction queries => transaction queries s
  | CallClose => close s
  | Tick => tick s
  | Reply => reply s
  | Wake => wake s
  | Closed => closed s
  end.

Definition run (evs : list event) (s : state) : state :=
  fold_left step evs s.

(** A fresh instance on connection [d]. *)
Definition initial (d : DB) : state :=
  {| m_db := d; paused := false;
     m_transactionQueue := []; m_allQueue := []; m_runQueue := [];
     handler := Idle; closing := NotClosing;
     promises := 0; settled := []; sent := [] |}.

(** **** Vocabulary of the ordering properties *)

(** The calls that submit an operation. *)
Definition is_submission (ev : event) : bool :=
  match ev with
  | CallQuery _ _ | CallTransaction _ => true
  | _ => false
  end.

Definition is_transaction (ev : event) : bool :=
  match ev with
  | CallTransaction _ => true
  | _ => false
  end.

Definition is_read (ev : event) : bool :=
  match ev with
  | CallQuery text _ => has_verb text "select"
  | _ => false
  end.

Definition is_write (ev : event) : bool :=
  match ev with
  | CallQuery text _ => negb (has_verb text "select")
  | _ => false
  end.

(** The promises handed out to the calls of one class, when the first
    call of the list receives promise [k]. *)
Fixpoint promises_of (class : event -> bool) (k : nat)
    (calls : list event) : list promise :=
  match calls with
  | [] => []
  | ev :: rest =>
      if class ev then k :: promises_of class (S k) rest
      else promises_of class (S k) rest
  end.

(** The promise whose operation the handler has shifted and not settled
    (a dead handler will never settle it). *)
Definition in_flight (h : handler_state) : list promise :=
  match h with
  | Idle => []
  | AwaitBegin t | AwaitQuery t _ _ | AwaitCommit t | AwaitRollback t _
  | Dead t _ =>
      [tq_callback t]
  | AwaitAll q | AwaitRun q => [qq_callback q]
  end.

(** The promises in the queues, in the order of the drain. *)
Definition queued (s : state) : list promise :=
  (map tq_callback (m_transactionQueue s)
   ++ map qq_callback (m_allQueue s)
   ++ map qq_callback (m_runQueue s))%list.

Definition waiting (s : state) : list promise :=
  (in_flight (handler s) ++ queued s)%list.

(** The promises settled so far, in the order of their settlement. *)
Definition settled_order (s : state) : list promise :=
  map fst (settled s).

(** The connection never refuses a [ROLLBACK]. *)
Definition rollback_accepted : Prop :=
  forall d, exists d' lastID changes,
    db_run driver d "ROLLBACK" None = (d', RunDone lastID changes).

(** A bound on the number of answers the handler still needs. *)
Definition transaction_work (t : ITransactionQueueEntry) : nat :=
  3 + List.length (tq_queries t).

Definition handler_work (h : handler_state) : nat :=
  match h with
  | Idle | Dead _ _ => 0
  | AwaitBegin t => transaction_work t
  | AwaitQuery _ _ rest => 3 + List.length rest
  | AwaitCommit _ => 2
  | AwaitRollback _ _ => 1
  | AwaitAll _ | AwaitRun _ => 1
  end.

(** The work left in the queues alone. *)
Definition queue_work (s : state) : nat :=
  list_sum (map transaction_work (m_transactionQueue s))
  + List.length (m_allQueue s) + List.length (m_runQueue s).

Definition work (s : state) : nat :=
  handler_work (handler s)
  + list_sum (map transaction_work (m_transactionQueue s))
  + List.length (m_allQueue s)
  + List.length (m_runQueue s).

(** What holds of the handler between two answers of a drain in which
    no call arrives: where it is in the three loops, and that the
    timer is paused exactly while it is busy. *)
Definition phase (s : state) : Prop :=
  match handler s with
  | Idle =>
      paused s = false /\ m_transactionQueue s = []
      /\ m_allQueue s = [] /\ m_runQueue s = []
  | AwaitBegin _ | AwaitQuery _ _ _ | AwaitCommit _ | AwaitRollback _ _
  | Dead _ _ =>
      paused s = true
  | AwaitAll _ =>
      paused s = true /\ m_transactionQueue s = []
  | AwaitRun _ =>
      paused s = true /\ m_transactionQueue s = [] /\ m_allQueue s = []
  end.

Definition draining (total : list promise) (s : state) : Prop :=
  (settled_order s ++ waiting s)%list = total /\ phase s.

(** The promises handed out before the [k]-th one, among those of a
    list. *)
Definition older (k : nat) (l : list promise) : list promise :=
  filter (fun p => (p <? k)%nat) l.

(** What holds at every moment after a tick, whatever arrives later, of the
    promises handed out before the [k]-th one: settled and waiting
    together, they are [total] in its order; and a queue that the handler
    has left behind in the current cycle holds none of them. *)
Definition ordered (k : nat) (total : list promise) (s : state) : Prop :=
  older k (settled_order s ++ waiting s)%list = total
  /\ k <= promises s
  /\ match handler s with
     | Idle => older k (queued s) = []
     | AwaitAll _ =>
         paused s = true
         /\ older k (map tq_callback (m_transactionQueue s)) = []
     | AwaitRun _ =>
         paused s = true
         /\ older k (map tq_callback (m_transactionQueue s)) = []
         /\ older k (map qq_callback (m_allQueue s)) = []
     | _ => paused s = true
     end.

(** The handler is executing a transaction. *)
Definition in_transaction (h : handler_state) : bool :=
  match h with
  | AwaitBegin _ | AwaitQuery _ _ _ | AwaitCommit _ | AwaitRollback _ _ => true
  | _ => false
  end.

(** No [ROLLBACK] will be refused: the connection refuses none, or there
    is no transaction to execute. *)
Definition safe (s : state) : Prop :=
  rollback_accepted
  \/ (m_transactionQueue s = [] /\ in_transaction (handler s) = false).

(** The handler has not died. *)
Definition alive (s : state) : Prop :=
  forall t e, handler s <> Dead t e.

(** The statements of the calls of one class. *)
Fixpoint texts_of (class : event -> bool) (calls : list event)
    : list string :=
  match calls with
  | [] => []
  | CallQuery text values :: rest =>
      if class (CallQuery text values)
      then text :: texts_of class rest
      else texts_of class rest
  | _ :: rest => texts_of class rest
  end.

(** The statements of the queued reads, then of the queued writes. *)
Definition queued_texts (s : state) : list string :=
  (map qq_query (m_allQueue s) ++ map qq_query (m_runQueue s))%list.

(** What holds of the statements sent during a drain that started
    with [sent0] already sent and the texts [rw] in the read and write
    queues: while transactions are executed these texts all wait;
    afterwards they leave the queues in their order. *)
Definition sending (sent0 rw : list string) (s : state) : Prop :=
  match handler s with
  | AwaitBegin _ | AwaitQuery _ _ _ | AwaitCommit _ | AwaitRollback _ _ =>
      queued_texts s = rw /\ exists l, sent s = (sent0 ++ l)%list
  | Dead _ _ => True
  | Idle | AwaitAll _ | AwaitRun _ =>
      exists l, (sent s ++ queued_texts s)%list = (sent0 ++ l ++ rw)%list
  end.

(** **** setPragma and the ['ready'] handler of the constructor *)

(** [await this.query(query)]: the promise of [setPragma] settles as the
    promise of this query does. *)
Definition setPragma (option : string) (value : pragma_setting)
    (s : state) : state :=
  query (setPragma_query option value) None s.

(** The listener the constructor registers for ['ready']. *)
Definition ready (s : state) : state :=
  setPragma "foreign_keys" (SetBoolean true) s.

(** **** One transaction, from [BEGIN] to [COMMIT]

    The [try] block of the first loop run against the connection in one
    go: the connection after it, the statements it received after the
    [BEGIN TRANSACTION], and the error that left the block. *)
Fixpoint statements (d : DB) (queries : list IBulkQuery)
    : DB * list string * option JS.Error :=
  match queries with
  | [] => (d, [], None)
  | q :: rest =>
      match db_run driver d (Interfaces.query q)
              (values_or_empty (Interfaces.values q)) with
      | (d', RunError e) => (d', [Interfaces.query q], Some e)
      | (d', RunDone _ _) =>
          match statements d' rest with
          | (d'', l, r) => (d'', Interfaces.query q :: l, r)
          end
      end
  end.

Definition try_block (d : DB) (t : ITransactionQueueEntry)
    : DB * list string * option JS.Error :=
  match db_run driver d "BEGIN TRANSACTION" None with
  | (d0, RunError e) => (d0, [], Some e)
  | (d0, RunDone _ _) =>
      match statements d0 (tq_queries t) with
      | (d1, l, Some e) => (d1, l, Some e)
      | (d1, l, None) =>
          match db_run driver d1 "COMMIT" None with
          | (d2, RunError e) => (d2, (l ++ ["COMMIT"])%list, Some e)
          | (d2, RunDone _ _) => (d2, (l ++ ["COMMIT"])%list, None)
          end
      end
  end.

(** **** Vocabulary of the invariants of an instance *)

(** The handler is between a tick and the end of its drain. *)
Definition busy (h : handler_state) : bool :=
  match h with
  | Idle => false
  | _ => true
  end.

(** The entry the handler has shifted and not settled, by queue. *)
Definition shifted_transaction (h : handler_state)
    : list ITransactionQueueEntry :=
  match h with
  | AwaitBegin t | AwaitQuery t _ _ | AwaitCommit t | AwaitRollback t _
  | Dead t _ => [t]
  | _ => []
  end.

Definition shifted_read (h : handler_state) : list IQueryQueueEntry :=
  match h with
  | AwaitAll q => [q]
  | _ => []
  end.

Definition shifted_write (h : handler_state) : list IQueryQueueEntry :=
  match h with
  | AwaitRun q => [q]
  | _ => []
  end.

(** What the promise of a call can be settled with: a transaction
    resolves with no value; a statement that starts with [select]
    resolves with rows and their number; any other statement resolves
    with no row and the count of [run]. *)
Definition answers (call : event) (o : outcome) : Prop :=
  match call with
  | CallTransaction _ =>
      match o with
      | JS.Rejected _ => True
      | JS.Resolved r => r = None
      end
  | CallQuery text _ =>
      match o with
      | JS.Rejected _ => True
      | JS.Resolved None => False
      | JS.Resolved (Some result) =>
          if has_verb text "select"
          then exists rows, result = all_result rows
          else exists lastID changes, result = run_result text lastID changes
      end
  | _ => False
  end.

(** The promise [p] belongs to [call]: wherever it waits, it waits in
    the queue of the class of [call], a write with the text of [call];
    and where it is settled it is settled as [answers] says. *)
Definition belongs (p : promise) (call : event) (s : state) : Prop :=
  p < promises s
  /\ Forall (fun t => tq_callback t = p -> is_transaction call = true)
       (shifted_transaction (handler s) ++ m_transactionQueue s)%list
  /\ Forall (fun q => qq_callback q = p -> is_read call = true)
       (shifted_read (handler s) ++ m_allQueue s)%list
  /\ Forall (fun q =>
               qq_callback q = p ->
               is_write call = true
               /\ exists values, call = CallQuery (qq_query q) values)
       (shifted_write (handler s) ++ m_runQueue s)%list
  /\ Forall (fun po => fst po = p -> answers call (snd po)) (settled s).

(** Every promise handed out so far is settled or waiting, once. *)
Definition accounted (s : state) : Prop :=
  forall p : promise,
    count_occ Nat.eq_dec (settled_order s ++ waiting s)%list p
    = if (p <? promises s)%nat then 1 else 0.

(** The same of the settled promises and the queues alone: what holds
    when a loop is entered. *)
Definition left_over (s : state) : Prop :=
  forall p : promise,
    count_occ Nat.eq_dec (settled_order s ++ queued s)%list p
    = if (p <? promises s)%nat then 1 else 0.

(** [s1] is [s] after the connection has received the statements [l]
    and has become [d]: nothing else has changed but the handler. *)
Definition advanced (s : state) (d : DB) (l : list string) (s1 : state)
    : Prop :=
  m_db s1 = d
  /\ sent s1 = (sent s ++ l)%list
  /\ settled s1 = settled s
  /\ m_transactionQueue s1 = m_transactionQueue s
  /\ m_allQueue s1 = m_allQueue s
  /\ m_runQueue s1 = m_runQueue s
  /\ paused s1 = paused s
  /\ closing s1 = closing s
  /\ promises s1 = promises s.

End Scheduler.

Arguments m_db {DB} s.
Arguments paused {DB} s.
Arguments m_transactionQueue {DB} s.
Arguments m_allQueue {DB} s.
Arguments m_runQueue {DB} s.
Arguments handler {DB} s.
Arguments closing {DB} s.
Arguments promises {DB} s.
Arguments settled {DB} s.
Arguments sent {DB} s.
Arguments set_db {DB} d s.
Arguments set_paused {DB} b s.
Arguments set_transactionQueue {DB} q s.
Arguments set_allQueue {DB} q s.
Arguments set_runQueue {DB} q s.
Arguments set_handler {DB} h s.
Arguments set_closing {DB} c s.
Arguments new_promise {DB} s.
Arguments settle {DB} p o s.
Arguments send {DB} text s.
Arguments query {DB} text values s.
Arguments transaction {DB} queries s.
Arguments loop_run {DB} s.
Arguments loop_all {DB} s.
Arguments loop_transactions {DB} s.
Arguments next_statement {DB} t remaining s.
Arguments catch_transaction {DB} t e s.
Arguments tick {DB} s.
Arguments reply {DB} driver s.
Arguments queues_empty {DB} s.
Arguments close_poll {DB} s.
Arguments close {DB} s.
Arguments wake {DB} s.
Arguments closed {DB} driver s.
Arguments step {DB} driver s ev.
Arguments run {DB} driver evs s.
Arguments initial {DB} d.
Arguments queued {DB} s.
Arguments waiting {DB} s.
Arguments settled_order {DB} s.
Arguments rollback_accepted {DB} driver.
Arguments work {DB} s.
Arguments queue_work {DB} s.
Arguments phase {DB} s.
Arguments draining {DB} total s.
Arguments ordered {DB} k total s.
Arguments safe {DB} driver s.
Arguments alive {DB} s.
Arguments queued_texts {DB} s.
Arguments sending {DB} sent0 rw s.
Arguments setPragma {DB} option value s.
Arguments ready {DB} s.
Arguments statements {DB} driver d queries.
Arguments try_block {DB} driver d t.
Arguments belongs {DB} p call s.
Arguments accounted {DB} s.
Arguments left_over {DB} s.
Arguments advanced {DB} s d l s1.

End SQLite.

(** ** Postgres.ts: statement builders

    [pgformat] comes from the [pg-format] package; it fills the [%L] of
    the template with the escaped rows. *)

Module Postgres.
Import Interfaces.

Definition hashType : string := "char(64)".
Definition blobType : string := "text".
Definition uint32Type : string := "numeric(10)".
Definition uint64Type : string := "numeric(20)".

Section Builders.
Variable pgformat : string -> option IValueArray -> string.

Definition insert_template (table : string) (columns : list string)
    : string :=
  JS.format "INSERT INTO %s (%s) %L" [table; JS.join "," columns].

Definition prepareMultiInsert (table : string) (columns : list string)
    (values : option IValueArray) : string :=
  let query := insert_template table columns in
  pgformat query values.

(** The [for (const column of columns)] loop, pushing onto [updates]. *)
Fixpoint updates_loop (columns : list string) (updates : list string)
    : list string :=
  match columns with
  | [] => updates
  | column :: rest =>
      updates_loop rest
        (updates ++ [JS.format " %s = excluded.%s" [column; column]])%list
  end.

Definition prepareMultiUpdate (table : string) (primaryKey : list string)
    (columns : list string) (values : option IValueArray) : string :=
  let query :=
    prepareMultiInsert table (primaryKey ++ columns)%list values in
  let updates := updates_loop columns [] in
  JS.format "%s ON CONFLICT (%s) DO UPDATE SET %s"
    [query; JS.join "," primaryKey; JS.join "," updates].

End Builders.

(** *** transformQuery

    The [while] loop of [transformQuery], entered at its test.
    [query.indexOf('?') !== -1] holds when the text has a first question
    mark; the regular expression [/\?/] matches that first question mark,
    and the replacement text is a dollar sign and the decimal digits of
    the counter (the expression has no group, so a dollar sign before a
    digit stands for itself).  One turn of the loop takes one unit of
    [fuel]; the result is [None] when the fuel runs out before the test
    fails. *)
Fixpoint transformQuery_loop (fuel : nat) (query : string) (counter : Z)
    : option string :=
  match JS.split_first "?" query with
  | None => Some query
  | Some _ =>
      match fuel with
      | O => None
      | S fuel' =>
          transformQuery_loop fuel'
            (JS.replace query "?" ("$" ++ JS.number_to_string counter))
            (counter + 1)
      end
  end.

(** A text has no more question marks than characters. *)
Definition transformQuery (query : string) : option string :=
  transformQuery_loop (String.length query) query 1.

(** The text in which the question marks, from left to right, are
    replaced by [$counter], [$(counter + 1)], and so on. *)
Fixpoint numbered (counter : Z) (s : string) : string :=
  match s with
  | EmptyString => EmptyString
  | String c r =>
      if Ascii.eqb c "?"
      then "$" ++ JS.number_to_string counter ++ numbered (counter + 1) r
      else String c (numbered counter r)
  end.

(** *** The pool

    The [pg] pool and the client drawn from it are an oracle over their
    own state [P]: [connect] is answered with an optional error, [query]
    on the client with an error or with [rowCount] and [rows]. *)
Record Pool (P : Type) : Type := {
  pool_connect : P -> P * option JS.Error;
  client_query : P -> string -> option (list JS.value)
                 -> P * (JS.Error + IQueryResult);
  client_release : P -> P
}.
Arguments pool_connect {P} _ _.
Arguments client_query {P} _ _ _ _.
Arguments client_release {P} _ _.

Section Execution.
Variable P : Type.
Variable pool : Pool P.

(** [query]: [openClient] tells whether the caller passed a client.  The
    result is [None] only if [transformQuery] has none. *)
Definition query (m_pool : P) (text : string)
    (values : option (list JS.value)) (openClient : bool)
    : option (P * JS.settlement IQueryResult) :=
  match (if openClient then (m_pool, None) else pool_connect pool m_pool) with
  | (m0, Some e) => Some (m0, JS.Rejected e)
  | (m0, None) =>
      match transformQuery text with
      | None => None
      | Some text' =>
          match client_query pool m0 text' values with
          | (m1, inl e) => Some (m1, JS.Rejected e)
          | (m1, inr res) =>
              Some (if openClient then m1 else client_release pool m1,
                    JS.Resolved res)
          end
      end
  end.

(** The [for (const q of queries)] loop of [transaction]: every statement
    goes through [query] with the client of the transaction; the first
    rejection leaves the loop. *)
Fixpoint run_queries (m_pool : P) (queries : list IBulkQuery)
    : option (P * option JS.Error) :=
  match queries with
  | [] => Some (m_pool, None)
  | q :: rest =>
      match query m_pool (Interfaces.query q) (Interfaces.values q) true with
      | None => None
      | Some (m', JS.Rejected e) => Some (m', Some e)
      | Some (m', JS.Resolved _) => run_queries m' rest
      end
  end.

(** The [catch (e)] block with the [finally] block after it. *)
Definition catch_finally (m_pool : P) (e : JS.Error) : P * option JS.Error :=
  match client_query pool m_pool "ROLLBACK" None with
  | (m', inl e') => (client_release pool m', Some e')
  | (m', inr _) => (client_release pool m', Some e)
  end.

(** [transaction]: [None] when the promise resolves, the error when it
    rejects. *)
Definition transaction (m_pool : P) (queries : list IBulkQuery)
    : option (P * option JS.Error) :=
  match pool_connect pool m_pool with
  | (m0, Some e) => Some (m0, Some e)
  | (m0, None) =>
      match client_query pool m0 "BEGIN" None with
      | (m1, inl e) => Some (catch_finally m1 e)
      | (m1, inr _) =>
          match run_queries m1 queries with
          | None => None
          | Some (m2, Some e) => Some (catch_finally m2 e)
          | Some (m2, None) =>
              match client_query pool m2 "COMMIT" None with
              | (m3, inl e) => Some (catch_finally m3 e)
              | (m3, inr _) => Some (client_release pool m3, None)
              end
          end
      end
  end.
End Execution.

(** *** The requests a call makes *)
Inductive request : Type :=
| Connect
| Query (text : string) (values : option (list JS.value))
| Release.

Definition logged {P : Type} (pool : Pool P) : Pool (P * list request) :=
  {| pool_connect := fun s =>
       match pool_connect pool (fst s) with
       | (m, r) => ((m, (snd s ++ [Connect])%list), r)
       end;
     client_query := fun s text values =>
       match client_query pool (fst s) text values with
       | (m, r) => ((m, (snd s ++ [Query text values])%list), r)
       end;
     client_release := fun s =>
       (client_release pool (fst s), (snd s ++ [Release])%list) |}.

(** The request that executes one statement of a transaction. *)
Definition statement_request (q : IBulkQuery) : request :=
  Query (numbered 1 (Interfaces.query q)) (Interfaces.values q).

End Postgres.
(** ** Inputs of the examples *)

Module Examples.
Import Interfaces.

(** The columns of the accounts table: [id], not unique, and [email],
    unique, with the column types of the backend at hand. *)
Definition id_column (uint64Type : string) : ITableColumn :=
  {| name := "id"; type := uint64Type; nullable := None;
     foreign := None; unique := Some false; default := None |}.

Definition email_column (blobType : string) : ITableColumn :=
  {| name := "email"; type := blobType; nullable := None;
     foreign := None; unique := Some true; default := None |}.

Definition col_id : ITableColumn := id_column SQLite.uint64Type.
Definition col_email : ITableColumn := email_column SQLite.blobType.

Definition accounts_rows : IValueArray :=
  [ [JS.VNum 1; JS.VStr "a@example.org"];
    [JS.VNum 2; JS.VStr "b@example.org"] ].

(** A pool whose connection refuses every statement, and whose [query]
    answers an insert of three rows. *)
Definition duplicate_entry : JS.Error := JS.DriverError "ER_DUP_ENTRY".

Definition refusing_pool : MySQL.Pool unit :=
  {| MySQL.pool_query := fun p _ _ => (p, inr (MySQL.OkPacket 3 7 0));
     MySQL.getConnection := fun p => (p, None);
     MySQL.conn_beginTransaction := fun p => (p, None);
     MySQL.conn_query := fun p _ _ => (p, Some duplicate_entry);
     MySQL.conn_commit := fun p => (p, None);
     MySQL.conn_rollback := fun p => (p, None);
     MySQL.conn_release := fun p => p |}.

(** A listener that returns. *)
Definition quiet_listener : EventEmitter.listener :=
  fun _ => JS.Normal tt.

(** A connection that accepts every request: statements change one row
    and rows are never returned. *)
Definition accepting : SQLite.Database unit :=
  {| SQLite.db_run := fun d _ _ => (d, SQLite.RunDone 1 1);
     SQLite.db_all := fun d _ _ => (d, inr []);
     SQLite.db_close := fun d => (d, None) |}.

(** A connection that keeps track of the open transaction, as SQLite
    does: [BEGIN] opens it, [COMMIT] and [ROLLBACK] close it and are
    refused when none is open, and an [INSERT OR ROLLBACK] that hits a
    conflict is refused and closes it as well.  The state is [true]
    while a transaction is open. *)
Definition no_transaction (verb : string) : JS.Error :=
  JS.DriverError ("cannot " ++ verb ++ " - no transaction is active").

Definition constraint_failed : JS.Error :=
  JS.DriverError "SQLITE_CONSTRAINT: UNIQUE constraint failed".

Definition tracking_run (open : bool) (text : string)
    (values : option (list JS.value)) : bool * SQLite.run_reply :=
  if text =? "BEGIN TRANSACTION" then
    if open
    then (open, SQLite.RunError
                  (JS.DriverError
                     "cannot start a transaction within a transaction"))
    else (true, SQLite.RunDone 0 0)
  else if text =? "COMMIT" then
    if open then (false, SQLite.RunDone 0 0)
    else (open, SQLite.RunError (no_transaction "commit"))
  else if text =? "ROLLBACK" then
    if open then (false, SQLite.RunDone 0 0)
    else (open, SQLite.RunError (no_transaction "rollback"))
  else if SQLite.has_verb text "insert or rollback" then
    (false, SQLite.RunError constraint_failed)
  else (open, SQLite.RunDone 1 1).

Definition tracking : SQLite.Database bool :=
  {| SQLite.db_run := tracking_run;
     SQLite.db_all := fun d _ _ => (d, inr []);
     SQLite.db_close := fun d => (d, None) |}.

(** A connection that refuses every request once it is closed.  The
    state is [true] once closed. *)
Definition database_closed : JS.Error :=
  JS.DriverError "SQLITE_MISUSE: Database is closed".

Definition closable : SQLite.Database bool :=
  {| SQLite.db_run := fun (closed : bool) _ _ =>
       if closed then (closed, SQLite.RunError database_closed)
       else (closed, SQLite.RunDone 1 1);
     SQLite.db_all := fun (closed : bool) _ _ =>
       if closed then (closed, inl database_closed)
       else (closed, inr []);
     SQLite.db_close := fun _ => (true, None) |}.

Definition insert_account : IBulkQuery :=
  {| query := "INSERT INTO accounts (id) VALUES (1)"; values := None |}.

Definition insert_or_rollback : IBulkQuery :=
  {| query := "INSERT OR ROLLBACK INTO accounts (id) VALUES (1)";
     values := None |}.

(** Two columns of a membership table, each with a foreign key. *)
Definition owner_column : ITableColumn :=
  {| name := "owner"; type := SQLite.uint64Type; nullable := None;
     foreign := Some {| table := "accounts"; column := "id";
                        update := None; delete := Some "cascade" |};
     unique := None; default := None |}.

Definition group_column : ITableColumn :=
  {| name := "team"; type := SQLite.uint64Type; nullable := Some true;
     foreign := Some {| table := "teams"; column := "id";
                        update := Some "no action"; delete := Some "" |};
     unique := None; default := None |}.

(** A row whose text holds two dollar signs in a row. *)
Definition price_rows : IValueArray := [ [JS.VNum 1; JS.VStr "US$$"] ].

End Examples.

(** * Properties *)

(** ** Strings *)

Lemma append_assoc (a b c : string) : (a ++ b) ++ c = a ++ (b ++ c).
Proof.
  induction a as [|x a IH]; simpl; [reflexivity|].
  now rewrite IH.
Qed.

Lemma append_empty_r (a : string) : a ++ "" = a.
Proof.
  induction a as [|x a IH]; simpl; [reflexivity|].
  now rewrite IH.
Qed.

Lemma trimEnd_semicolon (x : string) : JS.trimEnd (x ++ ";") = x ++ ";".
Proof.
  induction x as [|c x IH]; simpl; [reflexivity|].
  rewrite IH.
  destruct (x ++ ";") eqn:E; [|reflexivity].
  destruct x; discriminate E.
Qed.

Lemma endsWith_refl (s : string) : JS.endsWith s s = true.
Proof.
  destruct s; simpl; [reflexivity|].
  now rewrite Ascii.eqb_refl, String.eqb_refl.
Qed.

Lemma endsWith_append (x s p : string) :
  JS.endsWith s p = true -> JS.endsWith (x ++ s) p = true.
Proof.
  intros H.
  induction x as [|c x IH]; simpl; [exact H|].
  rewrite IH.
  apply orb_true_r.
Qed.

Lemma includes_append (x s p : string) :
  JS.includes s p = true -> JS.includes (x ++ s) p = true.
Proof.
  intros H.
  induction x as [|c x IH]; [exact H|].
  change (String c x ++ s) with (String c (x ++ s)).
  cbn [JS.includes].
  rewrite IH.
  apply orb_true_r.
Qed.

Lemma lacks_append (c : ascii) (a b : string) :
  JS.lacks c (a ++ b) = JS.lacks c a && JS.lacks c b.
Proof.
  induction a as [|x a IH]; simpl; [reflexivity|].
  rewrite IH.
  now rewrite andb_assoc.
Qed.

Lemma substring_whole (s : string) : substring 0 (String.length s) s = s.
Proof.
  induction s as [|c s IH]; simpl; [reflexivity|].
  now rewrite IH.
Qed.

(** The first occurrence of the marker, after a text that has no percent
    sign. *)
Lemma split_first_marker (pre rest : string) :
  JS.lacks "%" pre = true ->
  JS.split_first "%L" (pre ++ "%L" ++ rest) = Some (pre, rest).
Proof.
  induction pre as [|c pre IH]; intros H.
  - change ("" ++ "%L" ++ rest) with (String "%" (String "L" rest)).
    assert (Hp : prefix "%L" (String "%" (String "L" rest)) = true).
    { simpl. now destruct rest. }
    destruct rest as [|r0 rest].
    + reflexivity.
    + unfold JS.split_first. rewrite Hp.
      change (String.length "%L") with 2.
      change (String.length (String "%" (String "L" (String r0 rest))) - 2)
        with (String.length (String r0 rest) - 0).
      rewrite Nat.sub_0_r.
      change (substring 2 (String.length (String r0 rest))
                (String "%" (String "L" (String r0 rest))))
        with (substring 0 (String.length (String r0 rest)) (String r0 rest)).
      now rewrite substring_whole.
  - simpl in H.
    apply andb_true_iff in H as [Hc Hpre].
    change (String c pre ++ "%L" ++ rest)
      with (String c (pre ++ "%L" ++ rest)).
    cbn [JS.split_first].
    replace (prefix "%L" (String c (pre ++ "%L" ++ rest))) with false.
    + now rewrite (IH Hpre).
    + cbn [prefix].
      destruct (ascii_dec "%" c) as [<-|Hne]; [discriminate Hc|reflexivity].
Qed.

(** A replacement text without dollar sign is inserted as it is. *)
Lemma get_substitution_plain (m b a r : string) :
  JS.lacks "$" r = true ->
  JS.get_substitution m b a r = r.
Proof.
  induction r as [|c r IH]; intros H; [reflexivity|].
  simpl in H.
  apply andb_true_iff in H as [Hc Hr].
  cbn [JS.get_substitution].
  destruct (Ascii.eqb c "$") eqn:E; [discriminate Hc|].
  now rewrite (IH Hr).
Qed.

Lemma replace_marker (pre r : string) :
  JS.lacks "%" pre = true ->
  JS.lacks "$" r = true ->
  JS.replace (pre ++ "%L") "%L" r = pre ++ r.
Proof.
  intros Hpre Hr.
  unfold JS.replace.
  change (pre ++ "%L") with (pre ++ "%L" ++ "").
  rewrite (split_first_marker pre "" Hpre).
  rewrite (get_substitution_plain _ _ _ _ Hr).
  now rewrite append_empty_r.
Qed.

(** ** The statement compiler *)

Section CompilerFacts.
Import Interfaces.

Lemma constraints_loop_without_unique (name : string)
    (fields : list ITableColumn) (acc : list string) :
  Types.constraints_loop name (map Types.without_unique fields) acc
  = Types.constraints_loop name fields acc.
Proof.
  revert acc.
  induction fields as [|f fields IH]; intros acc; [reflexivity|].
  simpl.
  destruct (foreign f); apply IH.
Qed.

Lemma field_text_without_unique (fields : list ITableColumn) :
  map Types.field_text (map Types.without_unique fields)
  = map Types.field_text fields.
Proof.
  rewrite map_map.
  apply map_ext.
  intros col. reflexivity.
Qed.

(** The text of the table statement, placeholders filled in. *)
Lemma table_text (dbType : DBType) (name : string)
    (fields : list ITableColumn) (primaryKey : list string)
    (tableOptions : option string) :
  Types.table
    (Types.prepareCreateTable dbType name fields primaryKey tableOptions)
  = "CREATE TABLE IF NOT EXISTS " ++ name ++ " ("
    ++ JS.join ", " (map Types.field_text fields)
    ++ ", PRIMARY KEY (" ++ JS.join "," primaryKey ++ ")"
    ++ JS.join "," (Types.constraints_loop name fields [])
    ++ ") "
    ++ match Types.present tableOptions with
       | Some o => o
       | None => ""
       end
    ++ ";".
Proof.
  unfold Types.prepareCreateTable.
  cbn [Types.table JS.format JS.format_args Ascii.eqb Bool.eqb fold_right].
  unfold JS.trim.
  cbn [JS.trimStart JS.is_space nat_of_ascii].
  match goal with
  | |- JS.trimEnd ?t = ?r =>
      replace t with
        (("CREATE TABLE IF NOT EXISTS " ++ name ++ " ("
          ++ JS.join ", " (map Types.field_text fields)
          ++ ", PRIMARY KEY (" ++ JS.join "," primaryKey ++ ")"
          ++ JS.join "," (Types.constraints_loop name fields [])
          ++ ") "
          ++ match Types.present tableOptions with
             | Some o => o
             | None => ""
             end) ++ ";")
  end.
  - rewrite trimEnd_semicolon.
    cbn [append].
    repeat (rewrite append_assoc; cbn [append]).
    reflexivity.
  - cbn [append].
    repeat (rewrite append_assoc; cbn [append]).
    reflexivity.
Qed.

Lemma MySQL_updates_loop (columns updates : list string) :
  MySQL.updates_loop columns updates
  = app updates
      (map (fun c => " " ++ c ++ " = VALUES(" ++ c ++ ")") columns).
Proof.
  revert updates.
  induction columns as [|c columns IH]; intros updates.
  - simpl. now rewrite app_nil_r.
  - cbn [MySQL.updates_loop map].
    rewrite IH, <- app_assoc.
    reflexivity.
Qed.

Lemma SQLite_updates_loop (columns updates : list string) :
  SQLite.updates_loop columns updates
  = app updates
      (map (fun c => " " ++ c ++ " = excluded." ++ c) columns).
Proof.
  revert updates.
  induction columns as [|c columns IH]; intros updates.
  - simpl. now rewrite app_nil_r.
  - cbn [SQLite.updates_loop map].
    rewrite IH, <- app_assoc.
    cbn. now rewrite append_empty_r.
Qed.

(** The insert statement of the MySQL backend, for a table and columns
    without percent sign and rows whose escaped text has no dollar
    sign. *)
Lemma MySQL_prepareMultiInsert_text escape (table : string)
    (columns : list string) (rows : IValueArray) :
  JS.lacks "%" table = true ->
  JS.lacks "%" (JS.join "," columns) = true ->
  JS.lacks "$" (escape rows) = true ->
  MySQL.prepareMultiInsert escape table columns (Some rows)
  = "INSERT INTO " ++ table ++ " (" ++ JS.join "," columns
    ++ ") VALUES " ++ escape rows.
Proof.
  intros Ht Hc Hr.
  unfold MySQL.prepareMultiInsert.
  cbn [JS.format JS.format_args Ascii.eqb Bool.eqb fold_right].
  match goal with
  | |- JS.replace ?t _ _ = _ =>
      replace t with
        (("INSERT INTO " ++ table ++ " (" ++ JS.join "," columns
          ++ ") VALUES ") ++ "%L")
  end.
  - rewrite replace_marker; trivial.
    + cbn [append].
      repeat (rewrite append_assoc; cbn [append]).
      reflexivity.
    + repeat (rewrite lacks_append).
      now rewrite Ht, Hc.
  - cbn [append].
    repeat (rewrite append_assoc; cbn [append]).
    reflexivity.
Qed.

(** The template the Postgres backend hands to [pgformat]: no [VALUES]
    keyword either. *)
Lemma Postgres_insert_template (table : string) (columns : list string) :
  Postgres.insert_template table columns
  = "INSERT INTO " ++ table ++ " (" ++ JS.join "," columns ++ ") %L".
Proof.
  unfold Postgres.insert_template.
  cbn [JS.format JS.format_args Ascii.eqb Bool.eqb fold_right append].
  repeat (rewrite append_assoc; cbn [append]).
  reflexivity.
Qed.

End CompilerFacts.

(** C5.  On the SQLite backend [prepareMultiInsert] puts the row tuples
    right after the column list: the statement has no [VALUES] keyword
    between them (the MySQL backend has it, see
    [MySQL_prepareMultiInsert_text]). *)
Theorem SQLite_prepareMultiInsert_text
    (escape : Interfaces.IValueArray -> string) (table : string)
    (columns : list string) (rows : Interfaces.IValueArray) :
  JS.lacks "%" table = true ->
  JS.lacks "%" (JS.join "," columns) = true ->
  JS.lacks "$" (escape rows) = true ->
  SQLite.prepareMultiInsert escape table columns (Some rows)
  = "INSERT INTO " ++ table ++ " (" ++ JS.join "," columns
    ++ ") " ++ escape rows.
Proof.
  intros Ht Hc Hr.
  unfold SQLite.prepareMultiInsert.
  cbn [JS.format JS.format_args Ascii.eqb Bool.eqb fold_right].
  match goal with
  | |- JS.replace ?t _ _ = _ =>
      replace t with
        (("INSERT INTO " ++ table ++ " (" ++ JS.join "," columns ++ ") ")
         ++ "%L")
  end.
  - rewrite replace_marker; trivial.
    + cbn [append].
      repeat (rewrite append_assoc; cbn [append]).
      reflexivity.
    + repeat (rewrite lacks_append).
      now rewrite Ht, Hc.
  - cbn [append].
    repeat (rewrite append_assoc; cbn [append]).
    reflexivity.
Qed.

Lemma SQLite_prepareMultiInsert_text_accounts :
  (JS.lacks "%" "accounts" = true
   /\ JS.lacks "%" (JS.join "," ["id"; "email"]) = true
   /\ JS.lacks "$" (SqlString.escape Examples.accounts_rows) = true)
  /\ SQLite.prepareMultiInsert SqlString.escape "accounts" ["id"; "email"]
       (Some Examples.accounts_rows)
     = "INSERT INTO accounts (id,email) (1, 'a@example.org'), (2, 'b@example.org')".
Proof.
  split; [repeat split; reflexivity|].
  exact (SQLite_prepareMultiInsert_text SqlString.escape "accounts"
           ["id"; "email"] Examples.accounts_rows
           eq_refl eq_refl eq_refl).
Defined.

(** C6 as stated fails: the MySQL text for the accounts example does not
    end in [ON DUPLICATE KEY UPDATE email = VALUES(email)], and the SQLite
    text does not contain [ON CONFLICT (id) DO UPDATE SET email =
    excluded.email]; every assignment starts with a space of its own. *)
Lemma prepareMultiUpdate_accounts_not_as_stated :
  JS.endsWith
    (MySQL.prepareMultiUpdate SqlString.escape "accounts" ["id"] ["email"]
       (Some Examples.accounts_rows))
    "ON DUPLICATE KEY UPDATE email = VALUES(email)" = false
  /\ JS.includes
       (SQLite.prepareMultiUpdate SqlString.escape "accounts" ["id"] ["email"]
          (Some Examples.accounts_rows))
       "ON CONFLICT (id) DO UPDATE SET email = excluded.email" = false.
Proof.
  split; vm_compute; reflexivity.
Qed.

(** C6, amended.  [prepareMultiUpdate] is the multi-insert over
    [primaryKey ++ columns] followed by the conflict clause, with one
    assignment per element of [columns], in order, each with a leading
    space, and none for [primaryKey]; for the accounts example the text
    ends in [ON DUPLICATE KEY UPDATE  email = VALUES(email)] on MySQL and
    in [ON CONFLICT (id) DO UPDATE SET  email = excluded.email] on SQLite,
    whatever the rows. *)
Theorem prepareMultiUpdate_text
    (escape : Interfaces.IValueArray -> string) (table : string)
    (primaryKey columns : list string)
    (values : option Interfaces.IValueArray) :
  MySQL.prepareMultiUpdate escape table primaryKey columns values
  = MySQL.prepareMultiInsert escape table (primaryKey ++ columns)%list values
    ++ " ON DUPLICATE KEY UPDATE "
    ++ JS.join "," (map (fun c => " " ++ c ++ " = VALUES(" ++ c ++ ")") columns)
  /\ SQLite.prepareMultiUpdate escape table primaryKey columns values
     = SQLite.prepareMultiInsert escape table (primaryKey ++ columns)%list values
       ++ " ON CONFLICT (" ++ JS.join "," primaryKey ++ ") DO UPDATE SET "
       ++ JS.join "," (map (fun c => " " ++ c ++ " = excluded." ++ c) columns)
  /\ JS.endsWith
       (MySQL.prepareMultiUpdate escape "accounts" ["id"] ["email"] values)
       "ON DUPLICATE KEY UPDATE  email = VALUES(email)" = true
  /\ JS.endsWith
       (SQLite.prepareMultiUpdate escape "accounts" ["id"] ["email"] values)
       "ON CONFLICT (id) DO UPDATE SET  email = excluded.email" = true.
Proof.
  assert (HM : forall t pk cols,
    MySQL.prepareMultiUpdate escape t pk cols values
    = MySQL.prepareMultiInsert escape t (pk ++ cols)%list values
      ++ " ON DUPLICATE KEY UPDATE "
      ++ JS.join "," (map (fun c => " " ++ c ++ " = VALUES(" ++ c ++ ")") cols)).
  { intros t pk cols.
    unfold MySQL.prepareMultiUpdate.
    rewrite MySQL_updates_loop.
    cbn [JS.format JS.format_args Ascii.eqb Bool.eqb fold_right app].
    now rewrite append_empty_r. }
  assert (HS : forall t pk cols,
    SQLite.prepareMultiUpdate escape t pk cols values
    = SQLite.prepareMultiInsert escape t (pk ++ cols)%list values
      ++ " ON CONFLICT (" ++ JS.join "," pk ++ ") DO UPDATE SET "
      ++ JS.join "," (map (fun c => " " ++ c ++ " = excluded." ++ c) cols)).
  { intros t pk cols.
    unfold SQLite.prepareMultiUpdate.
    rewrite SQLite_updates_loop.
    cbn [JS.format JS.format_args Ascii.eqb Bool.eqb fold_right app].
    rewrite append_empty_r.
    repeat (rewrite append_assoc; cbn [append]).
    reflexivity. }
  split; [apply HM|].
  split; [apply HS|].
  split.
  - rewrite HM.
    apply endsWith_append.
    vm_compute; reflexivity.
  - rewrite HS.
    apply endsWith_append.
    vm_compute; reflexivity.
Qed.

(** C7 as stated fails: with an empty primary key the call returns a
    statement, it does not throw. *)
Lemma prepareCreateTable_empty_key_returns :
  Types.prepareCreateTable_call Interfaces.SQLITE "accounts"
    [Examples.col_id; Examples.col_email] [] None
  = JS.Normal
      {| Types.table :=
           "CREATE TABLE IF NOT EXISTS accounts (id unsigned bigint NOT NULL , email text NOT NULL , PRIMARY KEY ()) ;";
         Types.indexes :=
           ["CREATE UNIQUE INDEX IF NOT EXISTS accounts_unique_email ON accounts (email);"] |}
  /\ ~ (exists e,
         Types.prepareCreateTable_call Interfaces.SQLITE "accounts"
           [Examples.col_id; Examples.col_email] [] None
         = JS.Throw e).
Proof.
  split; [vm_compute; reflexivity|].
  intros [e H]. discriminate H.
Qed.

(** C7, amended.  [prepareCreateTable] does not validate the primary key:
    for an empty list the call completes normally and the table statement
    carries the clause [PRIMARY KEY ()]. *)
Theorem prepareCreateTable_empty_key
    (dbType : Interfaces.DBType) (name : string)
    (fields : list Interfaces.ITableColumn) (tableOptions : option string) :
  exists p,
    Types.prepareCreateTable_call dbType name fields [] tableOptions
    = JS.Normal p
    /\ Types.table p
       = "CREATE TABLE IF NOT EXISTS " ++ name ++ " ("
         ++ JS.join ", " (map Types.field_text fields)
         ++ ", PRIMARY KEY ()"
         ++ JS.join "," (Types.constraints_loop name fields [])
         ++ ") "
         ++ match Types.present tableOptions with
            | Some o => o
            | None => ""
            end
         ++ ";".
Proof.
  eexists. split; [reflexivity|].
  now rewrite table_text.
Qed.

(** C8.  The index list has one statement [CREATE UNIQUE INDEX IF NOT
    EXISTS <table>_unique_<column> ON <table> (<column>)], closed by a
    semicolon, for each column whose [unique] flag is [true], in column
    order, and nothing else; the table statement is the one obtained with
    all [unique] flags removed, so it says nothing about uniqueness.  For
    the accounts example, whatever the two column types, the table
    statement contains [PRIMARY KEY (id)] and the index list is the single
    statement on [email]. *)
Theorem prepareCreateTable_unique_indexes
    (dbType : Interfaces.DBType) (name : string)
    (fields : list Interfaces.ITableColumn) (primaryKey : list string)
    (tableOptions : option string) (uint64Type blobType : string) :
  Types.indexes
    (Types.prepareCreateTable dbType name fields primaryKey tableOptions)
  = map (fun col =>
           "CREATE UNIQUE INDEX IF NOT EXISTS " ++ name ++ "_unique_"
           ++ Interfaces.name col ++ " ON " ++ name
           ++ " (" ++ Interfaces.name col ++ ")" ++ ";")
        (filter Types.is_unique fields)
  /\ Types.table
       (Types.prepareCreateTable dbType name fields primaryKey tableOptions)
     = Types.table
         (Types.prepareCreateTable dbType name
            (map Types.without_unique fields) primaryKey tableOptions)
  /\ Types.indexes
       (Types.prepareCreateTable dbType name
          (map Types.without_unique fields) primaryKey tableOptions)
     = []
  /\ JS.includes
       (Types.table
          (Types.prepareCreateTable dbType "accounts"
             [Examples.id_column uint64Type; Examples.email_column blobType]
             ["id"] tableOptions))
       "PRIMARY KEY (id)" = true
  /\ Types.indexes
       (Types.prepareCreateTable dbType "accounts"
          [Examples.id_column uint64Type; Examples.email_column blobType]
          ["id"] tableOptions)
     = ["CREATE UNIQUE INDEX IF NOT EXISTS accounts_unique_email ON accounts (email)"
        ++ ";"].
Proof.
  split; [|split; [|split; [|split]]].
  - unfold Types.prepareCreateTable.
    cbn [Types.indexes].
    apply map_ext.
    intros col.
    unfold Types.unique_index_text.
    cbn [JS.format JS.format_args Ascii.eqb Bool.eqb fold_right append].
    repeat (rewrite append_assoc; cbn [append]).
    reflexivity.
  - rewrite !table_text.
    now rewrite field_text_without_unique, constraints_loop_without_unique.
  - unfold Types.prepareCreateTable.
    cbn [Types.indexes].
    induction fields as [|f fields IH]; [reflexivity|exact IH].
  - rewrite table_text.
    apply (includes_append "CREATE TABLE IF NOT EXISTS ").
    apply (includes_append "accounts").
    apply (includes_append " (").
    apply includes_append.
    reflexivity.
  - reflexivity.
Qed.

(** ** Counts *)

Lemma has_verb_insert_not_select (q : string) :
  SQLite.has_verb q "insert" = true -> SQLite.has_verb q "select" = false.
Proof.
  unfold SQLite.has_verb, JS.startsWith.
  destruct (JS.toLowerCase q) as [|c r]; [discriminate|].
  cbn [prefix].
  destruct (ascii_dec "i" c) as [<-|]; [|discriminate].
  reflexivity.
Qed.

Lemma has_verb_update_not_select (q : string) :
  SQLite.has_verb q "update" = true -> SQLite.has_verb q "select" = false.
Proof.
  unfold SQLite.has_verb, JS.startsWith.
  destruct (JS.toLowerCase q) as [|c r]; [discriminate|].
  cbn [prefix].
  destruct (ascii_dec "u" c) as [<-|]; [|discriminate].
  reflexivity.
Qed.

Lemma has_verb_delete_not_select (q : string) :
  SQLite.has_verb q "delete" = true -> SQLite.has_verb q "select" = false.
Proof.
  unfold SQLite.has_verb, JS.startsWith.
  destruct (JS.toLowerCase q) as [|c r]; [discriminate|].
  cbn [prefix].
  destruct (ascii_dec "d" c) as [<-|]; [|discriminate].
  reflexivity.
Qed.

Lemma has_verb_insert_not_update (q : string) :
  SQLite.has_verb q "insert" = true ->
  SQLite.has_verb q "update" = false /\ SQLite.has_verb q "delete" = false.
Proof.
  unfold SQLite.has_verb, JS.startsWith.
  destruct (JS.toLowerCase q) as [|c r]; [discriminate|].
  cbn [prefix].
  destruct (ascii_dec "i" c) as [<-|]; [|discriminate].
  split; reflexivity.
Qed.




(** ** getPragma *)

(** The statement of [getPragma] is no [select], and no [insert], [update]
    or [delete] either: [query] routes it to [run], which resolves with
    the count 0 and no rows. *)
Lemma pragma_query_verbs (option : string) :
  SQLite.has_verb (SQLite.pragma_query option) "select" = false
  /\ forall lastID changes,
       SQLite.run_result (SQLite.pragma_query option) lastID changes
       = (0%Z, []).
Proof.
  split; [reflexivity|].
  intros lastID changes. reflexivity.
Qed.


(** Through [query] the precondition is never met: the promise of
    [getPragma] rejects with the [TypeError] whenever the statement itself
    succeeds. *)
Lemma getPragma_after_run (option : string) (lastID changes : Z) :
  exists message,
    SQLite.getPragma option
      (JS.Resolved (SQLite.run_result (SQLite.pragma_query option)
                      lastID changes))
    = JS.Rejected (JS.TypeError message).
Proof.
  eexists. reflexivity.
Qed.

(** ** createTable *)




(** ** The scheduler of the SQLite backend *)

Section SchedulerFacts.
Import SQLite.
Variable DB : Type.
Variable driver : Database DB.

Local Abbreviation state := (SQLite.state DB).



Lemma work_loop_run (s : state) : work (loop_run s) = queue_work s.
Proof.
  destruct s as [d p tq aq rq h c n st sn].
  unfold loop_run, work, queue_work; cbn.
  destruct rq; cbn; lia.
Qed.

Lemma work_loop_all (s : state) : work (loop_all s) = queue_work s.
Proof.
  unfold loop_all.
  destruct (m_allQueue s) eqn:E; [apply work_loop_run|].
  destruct s as [d p tq aq rq h c n st sn].
  cbn in E. subst aq.
  unfold work, queue_work; cbn. lia.
Qed.

Lemma work_loop_transactions (s : state) :
  work (loop_transactions s) = queue_work s.
Proof.
  unfold loop_transactions.
  destruct (m_transactionQueue s) eqn:E; [apply work_loop_all|].
  destruct s as [d p tq aq rq h c n st sn].
  cbn in E. subst tq.
  unfold work, queue_work; cbn. lia.
Qed.

(** Every answer brings a busy handler closer to the end of the drain. *)
Lemma reply_work (s : state) :
  handler s <> Idle -> alive s ->
  work (reply driver s) < work s.
Proof.
  intros Hidle Hdead.
  unfold reply.
  destruct (handler s) as [|t|t q rest|t|t e|q|q|t e] eqn:Hh;
    try contradiction; try (now exfalso; apply (Hdead t e)).
  - destruct (db_run driver (m_db s) "BEGIN TRANSACTION" None) as [d [e|l ch]].
    + destruct s as [d0 p tq aq rq h c n st sn]; cbn in Hh; subst h.
      unfold work, transaction_work; cbn. lia.
    + destruct s as [d0 p tq aq rq h c n st sn]; cbn in Hh; subst h.
      unfold work, transaction_work, next_statement; cbn.
      destruct (tq_queries t); cbn; lia.
  - destruct (db_run driver (m_db s) (Interfaces.query q)
                (values_or_empty (Interfaces.values q))) as [d [e|l ch]].
    + destruct s as [d0 p tq aq rq h c n st sn]; cbn in Hh; subst h.
      unfold work; cbn. lia.
    + destruct s as [d0 p tq aq rq h c n st sn]; cbn in Hh; subst h.
      unfold work, next_statement; cbn.
      destruct rest; cbn; lia.
  - destruct (db_run driver (m_db s) "COMMIT" None) as [d [e|l ch]].
    + destruct s as [d0 p tq aq rq h c n st sn]; cbn in Hh; subst h.
      unfold work; cbn. lia.
    + rewrite work_loop_transactions.
      destruct s as [d0 p tq aq rq h c n st sn]; cbn in Hh; subst h.
      unfold work, queue_work; cbn. lia.
  - destruct (db_run driver (m_db s) "ROLLBACK" None) as [d [e'|l ch]].
    + destruct s as [d0 p tq aq rq h c n st sn]; cbn in Hh; subst h.
      unfold work; cbn. lia.
    + rewrite work_loop_transactions.
      destruct s as [d0 p tq aq rq h c n st sn]; cbn in Hh; subst h.
      unfold work, queue_work; cbn. lia.
  - destruct (db_all driver (m_db s) (qq_query q) (qq_values q))
      as [d [e|rows]];
      rewrite work_loop_all;
      destruct s as [d0 p tq aq rq h c n st sn]; cbn in Hh; subst h;
      unfold work, queue_work; cbn; lia.
  - destruct (db_run driver (m_db s) (qq_query q) (qq_values q))
      as [d [e|l ch]];
      rewrite work_loop_run;
      destruct s as [d0 p tq aq rq h c n st sn]; cbn in Hh; subst h;
      unfold work, queue_work; cbn; lia.
Qed.

(** The three loops keep the order of what is left. *)
Lemma loop_run_draining (total : list promise) (s : state) :
  (settled_order s ++ queued s)%list = total ->
  m_transactionQueue s = [] -> m_allQueue s = [] -> paused s = true ->
  draining total (loop_run s).
Proof.
  destruct s as [d p tq aq rq h c n st sn]; cbn.
  intros Ht -> -> ->.
  unfold loop_run, draining, phase, waiting, queued, settled_order in *.
  cbn in *.
  destruct rq as [|q rest]; cbn; auto.
Qed.

Lemma loop_all_draining (total : list promise) (s : state) :
  (settled_order s ++ queued s)%list = total ->
  m_transactionQueue s = [] -> paused s = true ->
  draining total (loop_all s).
Proof.
  intros Ht Htq Hp.
  unfold loop_all.
  destruct (m_allQueue s) as [|q rest] eqn:E;
    [now apply loop_run_draining|].
  destruct s as [d p tq aq rq h c n st sn]; cbn in *.
  subst tq aq p.
  unfold draining, phase, waiting, queued, settled_order in *.
  cbn in *. auto.
Qed.

Lemma loop_transactions_draining (total : list promise) (s : state) :
  (settled_order s ++ queued s)%list = total ->
  paused s = true ->
  draining total (loop_transactions s).
Proof.
  intros Ht Hp.
  unfold loop_transactions.
  destruct (m_transactionQueue s) as [|t rest] eqn:E;
    [now apply loop_all_draining|].
  destruct s as [d p tq aq rq h c n st sn]; cbn in *.
  subst tq p.
  unfold draining, phase, waiting, queued, settled_order in *.
  cbn in *. auto.
Qed.

(** An answer keeps the order of what is left, whatever the answer. *)
Lemma reply_draining (total : list promise) (s : state) :
  draining total s -> draining total (reply driver s).
Proof.
  intros [Ht Hph].
  unfold reply.
  unfold phase in Hph.
  destruct (handler s) as [|t|t q rest|t|t e|q|q|t e] eqn:Hh.
  - split; [exact Ht|]. unfold phase. now rewrite Hh.
  - destruct (db_run driver (m_db s) "BEGIN TRANSACTION" None) as [d [e|l ch]];
      destruct s as [d0 p tq aq rq h c n st sn]; cbn in *; subst h p;
      unfold draining, phase, waiting, queued, settled_order,
             next_statement in *;
      cbn in *; [auto|].
    destruct (tq_queries t); cbn; auto.
  - destruct (db_run driver (m_db s) (Interfaces.query q)
                (values_or_empty (Interfaces.values q))) as [d [e|l ch]];
      destruct s as [d0 p tq aq rq h c n st sn]; cbn in *; subst h p;
      unfold draining, phase, waiting, queued, settled_order,
             next_statement in *;
      cbn in *; [auto|].
    destruct rest; cbn; auto.
  - destruct (db_run driver (m_db s) "COMMIT" None) as [d [e|l ch]].
    + destruct s as [d0 p tq aq rq h c n st sn]; cbn in *; subst h p.
      unfold draining, phase, waiting, queued, settled_order in *.
      cbn in *. auto.
    + apply loop_transactions_draining.
      * destruct s as [d0 p tq aq rq h c n st sn]; cbn in *; subst h.
        unfold waiting, queued, settled_order in *. cbn in *.
        now rewrite map_app, <- app_assoc.
      * now destruct s.
  - destruct (db_run driver (m_db s) "ROLLBACK" None) as [d [e'|l ch]].
    + destruct s as [d0 p tq aq rq h c n st sn]; cbn in *; subst h p.
      unfold draining, phase, waiting, queued, settled_order in *.
      cbn in *. auto.
    + apply loop_transactions_draining.
      * destruct s as [d0 p tq aq rq h c n st sn]; cbn in *; subst h.
        unfold waiting, queued, settled_order in *. cbn in *.
        now rewrite map_app, <- app_assoc.
      * now destruct s.
  - destruct Hph as [Hp Htq].
    destruct (db_all driver (m_db s) (qq_query q) (qq_values q))
      as [d [e|rows]];
      (apply loop_all_draining;
       [ destruct s as [d0 p tq aq rq h c n st sn]; cbn in *; subst h;
         unfold waiting, queued, settled_order in *; cbn in *;
         now rewrite map_app, <- app_assoc
       | now destruct s
       | now destruct s ]).
  - destruct Hph as (Hp & Htq & Haq).
    destruct (db_run driver (m_db s) (qq_query q) (qq_values q))
      as [d [e|l ch]];
      (apply loop_run_draining;
       [ destruct s as [d0 p tq aq rq h c n st sn]; cbn in *; subst h;
         unfold waiting, queued, settled_order in *; cbn in *;
         now rewrite map_app, <- app_assoc
       | now destruct s
       | now destruct s
       | now destruct s ]).
  - split; [exact Ht|]. unfold phase. now rewrite Hh.
Qed.

(** Outside of transactions the three loops start no transaction when the
    transaction queue is empty. *)
Lemma loop_run_quiet (s : state) :
  m_transactionQueue s = [] ->
  m_transactionQueue (loop_run s) = []
  /\ in_transaction (handler (loop_run s)) = false.
Proof.
  destruct s as [d p tq aq rq h c n st sn]; cbn.
  intros ->. unfold loop_run; cbn.
  destruct rq; cbn; auto.
Qed.

Lemma loop_all_quiet (s : state) :
  m_transactionQueue s = [] ->
  m_transactionQueue (loop_all s) = []
  /\ in_transaction (handler (loop_all s)) = false.
Proof.
  intros Htq.
  unfold loop_all.
  destruct (m_allQueue s) eqn:E; [now apply loop_run_quiet|].
  destruct s as [d p tq aq rq h c n st sn]; cbn in *. auto.
Qed.

(** An answer keeps the drain safe from a refused [ROLLBACK], and a safe
    handler does not die. *)
Lemma reply_safe (s : state) :
  draining (settled_order s ++ waiting s)%list s ->
  safe driver s -> safe driver (reply driver s).
Proof.
  intros [_ Hph] [Hrb|[Htq Hin]]; [now left|].
  right.
  unfold reply.
  unfold phase in Hph.
  destruct (handler s) as [|t|t q rest|t|t e|q|q|t e] eqn:Hh;
    try discriminate Hin.
  - now rewrite Hh.
  - destruct (db_all driver (m_db s) (qq_query q) (qq_values q))
      as [d [e|rows]];
      (apply loop_all_quiet; now destruct s).
  - destruct (db_run driver (m_db s) (qq_query q) (qq_values q))
      as [d [e|l ch]];
      (apply loop_run_quiet; now destruct s).
  - now rewrite Hh.
Qed.

Lemma loop_run_alive (s : state) : alive (loop_run s).
Proof.
  intros t e.
  destruct s as [d p tq aq rq h c n st sn].
  unfold loop_run; cbn. destruct rq; cbn; discriminate.
Qed.

Lemma loop_all_alive (s : state) : alive (loop_all s).
Proof.
  unfold loop_all.
  destruct (m_allQueue s) eqn:E; [apply loop_run_alive|].
  intros t e. destruct s as [d p tq aq rq h c n st sn]. cbn. discriminate.
Qed.

Lemma loop_transactions_alive (s : state) : alive (loop_transactions s).
Proof.
  unfold loop_transactions.
  destruct (m_transactionQueue s) eqn:E; [apply loop_all_alive|].
  intros t e. destruct s as [d p tq aq rq h c n st sn]. cbn. discriminate.
Qed.

Lemma reply_alive (s : state) :
  safe driver s -> alive s -> alive (reply driver s).
Proof.
  intros Hsafe Halive.
  unfold reply.
  destruct (handler s) as [|t|t q rest|t|t e|q|q|t e] eqn:Hh.
  - intros t e. rewrite Hh. discriminate.
  - destruct (db_run driver (m_db s) "BEGIN TRANSACTION" None)
      as [d [e|l ch]]; intros t' e'.
    + destruct s; cbn; discriminate.
    + unfold next_statement.
      destruct (tq_queries t); destruct s; cbn; discriminate.
  - destruct (db_run driver (m_db s) (Interfaces.query q)
                (values_or_empty (Interfaces.values q)))
      as [d [e|l ch]]; intros t' e'.
    + destruct s; cbn; discriminate.
    + unfold next_statement.
      destruct rest; destruct s; cbn; discriminate.
  - destruct (db_run driver (m_db s) "COMMIT" None) as [d [e|l ch]].
    + intros t' e'. destruct s; cbn; discriminate.
    + apply loop_transactions_alive.
  - destruct Hsafe as [Hrb|[_ Hin]];
      [|rewrite Hh in Hin; discriminate Hin].
    destruct (Hrb (m_db s)) as (d & l & ch & Hrun).
    rewrite Hrun.
    apply loop_transactions_alive.
  - destruct (db_all driver (m_db s) (qq_query q) (qq_values q))
      as [d [e|rows]]; apply loop_all_alive.
  - destruct (db_run driver (m_db s) (qq_query q) (qq_values q))
      as [d [e|l ch]]; apply loop_run_alive.
  - exfalso. now apply (Halive t e).
Qed.


(** The statements sent: those of the transactions come first. *)
Lemma loop_run_sending (sent0 rw : list string) (s : state) :
  (exists l, (sent s ++ queued_texts s)%list = (sent0 ++ l ++ rw)%list) ->
  m_allQueue s = [] ->
  sending sent0 rw (loop_run s).
Proof.
  destruct s as [d p tq aq rq h c n st sn]; cbn.
  intros [l Hl] ->.
  unfold loop_run, sending, queued_texts in *. cbn in *.
  destruct rq as [|q rest]; cbn in *; exists l; [exact Hl|].
  now rewrite <- app_assoc.
Qed.

Lemma loop_all_sending (sent0 rw : list string) (s : state) :
  (exists l, (sent s ++ queued_texts s)%list = (sent0 ++ l ++ rw)%list) ->
  sending sent0 rw (loop_all s).
Proof.
  intros Hl.
  unfold loop_all.
  destruct (m_allQueue s) as [|q rest] eqn:E;
    [now apply loop_run_sending|].
  destruct s as [d p tq aq rq h c n st sn]; cbn in *. subst aq.
  destruct Hl as [l Hl].
  unfold sending, queued_texts in *. cbn in *.
  exists l. now rewrite <- app_assoc.
Qed.

Lemma loop_transactions_sending (sent0 rw : list string) (s : state) :
  queued_texts s = rw -> (exists l, sent s = (sent0 ++ l)%list) ->
  sending sent0 rw (loop_transactions s).
Proof.
  intros Hrw [l Hl].
  unfold loop_transactions.
  destruct (m_transactionQueue s) as [|t rest] eqn:E.
  - apply loop_all_sending. exists l.
    now rewrite Hl, Hrw, app_assoc.
  - destruct s as [d p tq aq rq h c n st sn]; cbn in *. subst tq.
    unfold sending, queued_texts in *. cbn in *.
    split; [exact Hrw|].
    exists (l ++ ["BEGIN TRANSACTION"])%list.
    now rewrite Hl, app_assoc.
Qed.

Lemma reply_sending (total : list promise) (sent0 rw : list string)
    (s : state) :
  draining total s -> sending sent0 rw s ->
  sending sent0 rw (reply driver s).
Proof.
  intros [_ Hph] Hs.
  unfold reply.
  unfold phase in Hph. unfold sending in Hs.
  destruct (handler s) as [|t|t q rest|t|t e|q|q|t e] eqn:Hh.
  - unfold sending. now rewrite Hh.
  - destruct Hs as [Hrw [l Hl]].
    destruct (db_run driver (m_db s) "BEGIN TRANSACTION" None) as [d [e|l0 ch]];
      destruct s as [d0 p tq aq rq h c n st sn]; cbn in *; subst h;
      unfold sending, queued_texts, next_statement in *; cbn in *.
    + split; [exact Hrw|].
      exists (l ++ ["ROLLBACK"])%list. now rewrite Hl, app_assoc.
    + destruct (tq_queries t) as [|q0 qs]; cbn;
        (split; [exact Hrw|]);
        eexists; rewrite Hl, <- app_assoc; reflexivity.
  - destruct Hs as [Hrw [l Hl]].
    destruct (db_run driver (m_db s) (Interfaces.query q)
                (values_or_empty (Interfaces.values q))) as [d [e|l0 ch]];
      destruct s as [d0 p tq aq rq h c n st sn]; cbn in *; subst h;
      unfold sending, queued_texts, next_statement in *; cbn in *.
    + split; [exact Hrw|].
      exists (l ++ ["ROLLBACK"])%list. now rewrite Hl, app_assoc.
    + destruct rest as [|q0 qs]; cbn;
        (split; [exact Hrw|]);
        eexists; rewrite Hl, <- app_assoc; reflexivity.
  - destruct Hs as [Hrw [l Hl]].
    destruct (db_run driver (m_db s) "COMMIT" None) as [d [e|l0 ch]].
    + destruct s as [d0 p tq aq rq h c n st sn]; cbn in *; subst h.
      unfold sending, queued_texts in *; cbn in *.
      split; [exact Hrw|].
      exists (l ++ ["ROLLBACK"])%list. now rewrite Hl, app_assoc.
    + apply loop_transactions_sending.
      * now destruct s.
      * exists l. now destruct s.
  - destruct Hs as [Hrw [l Hl]].
    destruct (db_run driver (m_db s) "ROLLBACK" None) as [d [e'|l0 ch]].
    + destruct s as [d0 p tq aq rq h c n st sn]; cbn in *; subst h.
      now unfold sending.
    + apply loop_transactions_sending.
      * now destruct s.
      * exists l. now destruct s.
  - destruct (db_all driver (m_db s) (qq_query q) (qq_values q))
      as [d [e|rows]];
      (apply loop_all_sending; now destruct s).
  - destruct Hph as (_ & _ & Haq).
    destruct (db_run driver (m_db s) (qq_query q) (qq_values q))
      as [d [e|l0 ch]];
      (apply loop_run_sending; now destruct s).
  - unfold sending. now rewrite Hh.
Qed.


Lemma run_app (evs1 evs2 : list event) (s : state) :
  run driver (evs1 ++ evs2)%list s = run driver evs2 (run driver evs1 s).
Proof.
  unfold run. apply fold_left_app.
Qed.

(** Answers keep the order of what is left. *)
Lemma replies_draining (total : list promise) (sent0 rw : list string)
    (n : nat) :
  forall s : state,
    draining total s -> sending sent0 rw s ->
    draining total (run driver (repeat Reply n) s)
    /\ sending sent0 rw (run driver (repeat Reply n) s).
Proof.
  induction n as [|n IH]; intros s Hd Hs; [now split|].
  cbn [repeat run fold_left step].
  apply IH; [now apply reply_draining|now apply (reply_sending total)].
Qed.

(** Enough answers end a drain that is safe from a refused [ROLLBACK]. *)
Lemma replies_end_drain (total : list promise) (n : nat) :
  forall s : state,
    draining total s -> safe driver s -> alive s -> work s <= n ->
    handler (run driver (repeat Reply n) s) = Idle.
Proof.
  induction n as [|n IH]; intros s Hd Hsafe Halive Hw.
  - cbn.
    destruct (handler s) eqn:Hh; try reflexivity;
      try (destruct s as [d0 p tq aq rq h c k st sn]; cbn in *; subst h;
           unfold work in Hw; cbn in Hw; unfold transaction_work in Hw; lia).
    exfalso. now apply (Halive t e).
  - cbn [repeat run fold_left step].
    apply IH.
    + now apply reply_draining.
    + apply reply_safe; [|exact Hsafe].
      split; [reflexivity|apply Hd].
    + now apply reply_alive.
    + destruct (handler s) eqn:Hh;
        try (assert (work (reply driver s) < work s);
             [apply reply_work; [rewrite Hh; discriminate|exact Halive]|lia]).
      * unfold reply. rewrite Hh.
        destruct Hd as [_ Hph]. unfold phase in Hph. rewrite Hh in Hph.
        destruct Hph as (_ & Htq & Haq & Hrq).
        unfold work. rewrite Hh, Htq, Haq, Hrq. cbn. lia.
Qed.

(** One drain cycle, from the queues as the tick finds them: at every
    moment the promises settled so far, followed by those still waiting,
    are the promises the tick found, in the order transactions, reads,
    writes. *)
Lemma drain_cycle_order (s : state) (n : nat) :
  paused s = false ->
  let s' := run driver (Tick :: repeat Reply n) s in
  draining (settled_order s ++ queued s)%list s'
  /\ sending (sent s) (queued_texts s) s'.
Proof.
  intros Hp.
  cbn [run fold_left step].
  apply replies_draining.
  - unfold tick. rewrite Hp.
    apply loop_transactions_draining; now destruct s.
  - unfold tick. rewrite Hp.
    apply loop_transactions_sending.
    + now destruct s.
    + exists []. rewrite app_nil_r. now destruct s.
Qed.

(** The cycle ends when no [ROLLBACK] is refused. *)
Lemma drain_cycle (s : state) :
  paused s = false ->
  m_transactionQueue s = [] \/ rollback_accepted driver ->
  exists n,
    let s' := run driver (Tick :: repeat Reply n) s in
    handler s' = Idle /\ paused s' = false /\ queues_empty s' = true
    /\ settled_order s' = (settled_order s ++ queued s)%list
    /\ exists l, sent s' = (sent s ++ l ++ queued_texts s)%list.
Proof.
  intros Hp Hsafe.
  set (s1 := tick s).
  exists (work s1).
  destruct (drain_cycle_order s (work s1) Hp) as [Hd Hsend].
  cbn zeta in Hd, Hsend |- *.
  assert (Hd1 : draining (settled_order s ++ queued s)%list s1).
  { unfold s1, tick. rewrite Hp.
    apply loop_transactions_draining; now destruct s. }
  assert (Hsafe1 : safe driver s1).
  { destruct Hsafe as [Htq|Hrb]; [|now left].
    right. unfold s1, tick. rewrite Hp.
    unfold loop_transactions.
    replace (m_transactionQueue (set_paused true s)) with (@nil ITransactionQueueEntry)
      by (now destruct s).
    apply loop_all_quiet. now destruct s. }
  assert (Halive1 : alive s1).
  { unfold s1, tick. rewrite Hp. apply loop_transactions_alive. }
  assert (Hidle : handler (run driver (Tick :: repeat Reply (work s1)) s) = Idle).
  { cbn [run fold_left step]. fold s1.
    exact (replies_end_drain _ (work s1) s1 Hd1 Hsafe1 Halive1
             (Nat.le_refl _)). }
  set (s' := run driver (Tick :: repeat Reply (work s1)) s) in *.
  destruct Hd as [Ht Hph].
  unfold phase in Hph. rewrite Hidle in Hph.
  destruct Hph as (Hp' & Htq & Haq & Hrq).
  repeat split; trivial.
  - unfold queues_empty. now rewrite Htq, Haq, Hrq.
  - rewrite <- Ht.
    unfold waiting, queued. rewrite Hidle, Htq, Haq, Hrq.
    cbn. now rewrite app_nil_r.
  - unfold sending in Hsend. rewrite Hidle in Hsend.
    destruct Hsend as [l Hl].
    exists l. rewrite <- Hl.
    unfold queued_texts at 1. rewrite Haq, Hrq. cbn.
    now rewrite app_nil_r.
Qed.


(** What a sequence of submitting calls leaves in the queues. *)
Lemma run_submissions (calls : list event) :
  forall s : state,
    forallb is_submission calls = true ->
    let s' := run driver calls s in
    map tq_callback (m_transactionQueue s')
    = (map tq_callback (m_transactionQueue s)
       ++ promises_of is_transaction (promises s) calls)%list
    /\ map qq_callback (m_allQueue s')
       = (map qq_callback (m_allQueue s)
          ++ promises_of is_read (promises s) calls)%list
    /\ map qq_callback (m_runQueue s')
       = (map qq_callback (m_runQueue s)
          ++ promises_of is_write (promises s) calls)%list
    /\ map qq_query (m_allQueue s')
       = (map qq_query (m_allQueue s) ++ texts_of is_read calls)%list
    /\ map qq_query (m_runQueue s')
       = (map qq_query (m_runQueue s) ++ texts_of is_write calls)%list
    /\ handler s' = handler s /\ paused s' = paused s
    /\ settled s' = settled s /\ sent s' = sent s
    /\ promises s' = promises s + List.length calls.
Proof.
  induction calls as [|ev calls IH]; intros s Hall.
  - cbn. rewrite !app_nil_r. repeat split. lia.
  - cbn [forallb] in Hall.
    apply andb_true_iff in Hall as [Hev Hall].
    cbn [run fold_left].
    specialize (IH (step driver s ev) Hall).
    cbn zeta in IH.
    change (fold_left (step driver) calls (step driver s ev))
      with (run driver calls (step driver s ev)).
    destruct IH as (Htq & Haq & Hrq & Hat & Hrt & Hh & Hp & Hst & Hsn & Hn).
    rewrite Htq, Haq, Hrq, Hat, Hrt, Hh, Hp, Hst, Hsn, Hn.
    destruct ev as [text values|queries| | | | |]; try discriminate Hev.
    + cbn [step promises_of texts_of is_transaction is_read is_write].
      unfold query.
      destruct (has_verb text "select");
        destruct s as [d0 p tq aq rq h c n st sn]; cbn;
        rewrite ?map_app, <- ?app_assoc; cbn; repeat split; lia.
    + cbn [step promises_of texts_of is_transaction is_read is_write].
      unfold transaction.
      destruct s as [d0 p tq aq rq h c n st sn]; cbn.
      rewrite ?map_app, <- ?app_assoc; cbn. repeat split; lia.
Qed.

End SchedulerFacts.


(** *** The order of settlement, whatever arrives during the drain *)

Section ArrivalFacts.
Import SQLite.
Variable DB : Type.
Variable driver : Database DB.

Local Abbreviation state := (SQLite.state DB).

Lemma older_app (k : nat) (a b : list promise) :
  older k (a ++ b) = (older k a ++ older k b)%list.
Proof.
  apply filter_app.
Qed.

Lemma older_cons (k : nat) (p : promise) (l : list promise) :
  older k (p :: l) = (older k [p] ++ older k l)%list.
Proof.
  change (p :: l) with ([p] ++ l)%list.
  apply older_app.
Qed.

Lemma older_new (k : nat) (p : promise) : k <= p -> older k [p] = [].
Proof.
  intros H. unfold older. cbn [filter].
  destruct (Nat.ltb_spec p k); [lia|reflexivity].
Qed.

Lemma older_all (k : nat) (l : list promise) :
  Forall (fun p => p < k) l -> older k l = l.
Proof.
  induction 1 as [|p l Hp _ IH]; [reflexivity|].
  unfold older in *. cbn [filter].
  destruct (Nat.ltb_spec p k); [|lia].
  now rewrite IH.
Qed.

Lemma promises_of_bounds (class : event -> bool) (calls : list event) :
  forall k,
    Forall (fun p => k <= p < k + List.length calls)
      (promises_of class k calls).
Proof.
  induction calls as [|ev calls IH]; intros k; [constructor|].
  cbn [promises_of List.length].
  assert (Hrest : Forall (fun p => k <= p < k + S (List.length calls))
                    (promises_of class (S k) calls)).
  { eapply Forall_impl; [|apply IH]. cbn. intros p Hp. lia. }
  destruct (class ev); [constructor; [lia|exact Hrest]|exact Hrest].
Qed.

(** Splitting [older] along the lists of the goal. *)
Ltac older_split :=
  cbn [map];
  repeat
    (rewrite !older_app
     || match goal with
        | |- context [older ?k (?x :: ?l)] =>
            lazymatch l with
            | [] => fail
            | _ => rewrite (older_cons k x l)
            end
        end).

(** The three loops. *)
Lemma loop_run_ordered (k : nat) (total : list promise) (s : state) :
  older k (settled_order s ++ queued s) = total ->
  k <= promises s -> paused s = true ->
  older k (map tq_callback (m_transactionQueue s)) = [] ->
  older k (map qq_callback (m_allQueue s)) = [] ->
  ordered k total (loop_run s).
Proof.
  destruct s as [d p tq aq rq h c n st sn].
  unfold ordered, loop_run, waiting, queued, settled_order.
  cbn -[older].
  intros Ht Hk -> Htq Haq.
  destruct rq as [|q rest]; cbn -[older].
  - repeat split; trivial.
    now rewrite !older_app, Htq, Haq.
  - repeat split; trivial.
    rewrite <- Ht.
    older_split.
    now rewrite Htq, Haq.
Qed.

Lemma loop_all_ordered (k : nat) (total : list promise) (s : state) :
  older k (settled_order s ++ queued s) = total ->
  k <= promises s -> paused s = true ->
  older k (map tq_callback (m_transactionQueue s)) = [] ->
  ordered k total (loop_all s).
Proof.
  intros Ht Hk Hp Htq.
  unfold loop_all.
  destruct (m_allQueue s) as [|q rest] eqn:E.
  - apply loop_run_ordered; trivial. now rewrite E.
  - destruct s as [d p tq aq rq h c n st sn].
    unfold ordered, waiting, queued, settled_order in *.
    cbn -[older] in *. subst aq p.
    repeat split; trivial.
    rewrite <- Ht.
    older_split.
    rewrite Htq. cbn [app].
    now rewrite <- app_assoc.
Qed.

Lemma loop_transactions_ordered (k : nat) (total : list promise)
    (s : state) :
  older k (settled_order s ++ queued s) = total ->
  k <= promises s -> paused s = true ->
  ordered k total (loop_transactions s).
Proof.
  intros Ht Hk Hp.
  unfold loop_transactions.
  destruct (m_transactionQueue s) as [|t rest] eqn:E.
  - apply loop_all_ordered; trivial. now rewrite E.
  - destruct s as [d p tq aq rq h c n st sn].
    unfold ordered, waiting, queued, settled_order in *.
    cbn -[older] in *. subst tq p.
    repeat split; trivial.
Qed.

(** Every event keeps the order. *)
Lemma reply_ordered (k : nat) (total : list promise) (s : state) :
  ordered k total s -> ordered k total (reply driver s).
Proof.
  intros (Ht & Hk & Hph).
  unfold reply.
  destruct (handler s) as [|t|t q rest|t|t e|q|q|t e] eqn:Hh.
  - unfold ordered. now rewrite Hh.
  - destruct (db_run driver (m_db s) "BEGIN TRANSACTION" None) as [d [e|l ch]];
      destruct s as [d0 p tq aq rq h c n st sn];
      unfold ordered, waiting, queued, settled_order, next_statement in *;
      cbn -[older] in *; subst h; cbn -[older] in *; [auto|].
    destruct (tq_queries t); cbn -[older]; auto.
  - destruct (db_run driver (m_db s) (Interfaces.query q)
                (values_or_empty (Interfaces.values q))) as [d [e|l ch]];
      destruct s as [d0 p tq aq rq h c n st sn];
      unfold ordered, waiting, queued, settled_order, next_statement in *;
      cbn -[older] in *; subst h; cbn -[older] in *; [auto|].
    destruct rest; cbn -[older]; auto.
  - destruct (db_run driver (m_db s) "COMMIT" None) as [d [e|l ch]].
    + destruct s as [d0 p tq aq rq h c n st sn];
        unfold ordered, waiting, queued, settled_order in *;
        cbn -[older] in *; subst h; cbn -[older] in *; auto.
    + apply loop_transactions_ordered.
      * destruct s as [d0 p tq aq rq h c n st sn];
          unfold waiting, queued, settled_order in *;
          cbn -[older] in *; subst h; cbn -[older] in *.
        now rewrite map_app, <- app_assoc.
      * now destruct s.
      * destruct s; cbn in *; assumption.
  - destruct (db_run driver (m_db s) "ROLLBACK" None) as [d [e'|l ch]].
    + destruct s as [d0 p tq aq rq h c n st sn];
        unfold ordered, waiting, queued, settled_order in *;
        cbn -[older] in *; subst h; cbn -[older] in *; auto.
    + apply loop_transactions_ordered.
      * destruct s as [d0 p tq aq rq h c n st sn];
          unfold waiting, queued, settled_order in *;
          cbn -[older] in *; subst h; cbn -[older] in *.
        now rewrite map_app, <- app_assoc.
      * now destruct s.
      * destruct s; cbn in *; assumption.
  - destruct Hph as [Hp Htq].
    destruct (db_all driver (m_db s) (qq_query q) (qq_values q))
      as [d [e|rows]];
      (apply loop_all_ordered;
       [ destruct s as [d0 p tq aq rq h c n st sn];
         unfold waiting, queued, settled_order in *;
         cbn -[older] in *; subst h; cbn -[older] in *;
         now rewrite map_app, <- app_assoc
       | now destruct s
       | now destruct s
       | now destruct s ]).
  - destruct Hph as (Hp & Htq & Haq).
    destruct (db_run driver (m_db s) (qq_query q) (qq_values q))
      as [d [e|l ch]];
      (apply loop_run_ordered;
       [ destruct s as [d0 p tq aq rq h c n st sn];
         unfold waiting, queued, settled_order in *;
         cbn -[older] in *; subst h; cbn -[older] in *;
         now rewrite map_app, <- app_assoc
       | now destruct s
       | now destruct s
       | now destruct s
       | now destruct s ]).
  - unfold ordered. now rewrite Hh.
Qed.

Lemma tick_ordered (k : nat) (total : list promise) (s : state) :
  ordered k total s -> ordered k total (tick s).
Proof.
  intros Ho.
  unfold tick.
  destruct (paused s) eqn:Hp; [exact Ho|].
  destruct Ho as (Ht & Hk & Hph).
  destruct (handler s) eqn:Hh;
    [|exfalso; intuition congruence..].
  apply loop_transactions_ordered.
  - destruct s as [d0 p tq aq rq h c n st sn];
      unfold waiting, queued, settled_order in *;
      cbn -[older] in *; subst h; exact Ht.
  - now destruct s.
  - now destruct s.
Qed.

Lemma query_ordered (k : nat) (total : list promise) (text : string)
    (values : option (list JS.value)) (s : state) :
  ordered k total s -> ordered k total (query text values s).
Proof.
  intros (Ht & Hk & Hph).
  unfold query.
  destruct (has_verb text "select");
    destruct s as [d0 p tq aq rq h c n st sn];
    unfold ordered, waiting, queued, settled_order in *;
    cbn -[older] in *;
    destruct h; cbn -[older] in *;
    rewrite ?map_app; cbn [map qq_callback];
    revert Ht Hph; older_split;
    rewrite ?(older_new k n Hk), ?app_nil_r;
    intros Ht Hph;
    repeat split; try lia; try tauto; try assumption.
Qed.

Lemma transaction_ordered (k : nat) (total : list promise)
    (queries : list Interfaces.IBulkQuery) (s : state) :
  ordered k total s -> ordered k total (transaction queries s).
Proof.
  intros (Ht & Hk & Hph).
  unfold transaction.
  destruct s as [d0 p tq aq rq h c n st sn];
    unfold ordered, waiting, queued, settled_order in *;
    cbn -[older] in *;
    destruct h; cbn -[older] in *;
    rewrite ?map_app; cbn [map tq_callback];
    revert Ht Hph; older_split;
    rewrite ?(older_new k n Hk), ?app_nil_r;
    intros Ht Hph;
    repeat split; try lia; try tauto; try assumption.
Qed.

Lemma step_ordered (k : nat) (total : list promise) (s : state)
    (ev : event) :
  ordered k total s -> ordered k total (step driver s ev).
Proof.
  intros Ho.
  destruct ev as [text values|queries| | | | |]; cbn [step].
  - now apply query_ordered.
  - now apply transaction_ordered.
  - unfold close, close_poll.
    destruct (closing s); try exact Ho.
    destruct (queues_empty s); now destruct s.
  - now apply tick_ordered.
  - now apply reply_ordered.
  - unfold wake, close_poll.
    destruct (closing s); try exact Ho.
    destruct (queues_empty s); now destruct s.
  - unfold closed.
    destruct (closing s); try exact Ho.
    destruct (db_close driver (m_db s)) as [d [e|]]; now destruct s.
Qed.

Lemma run_ordered (k : nat) (total : list promise) (evs : list event) :
  forall s : state, ordered k total s -> ordered k total (run driver evs s).
Proof.
  induction evs as [|ev evs IH]; intros s Ho; [exact Ho|].
  cbn [run fold_left].
  apply IH. now apply step_ordered.
Qed.

End ArrivalFacts.



(** Reads R1 and R2 and a write W1, the write called first, whatever the
    connection answers: no transaction is queued and the promises settle
    in the order R1, R2, W1 during the drain of the next tick. *)
Lemma reads_before_write (DB : Type) (driver : SQLite.Database DB) (d : DB) :
  exists n,
    let s' :=
      SQLite.run driver
        ([ SQLite.CallQuery "INSERT INTO accounts (id) VALUES (1)" None;
           SQLite.CallQuery "SELECT id FROM accounts" None;
           SQLite.CallQuery "SELECT email FROM accounts" None ]
         ++ SQLite.Tick :: repeat SQLite.Reply n)%list
        (SQLite.initial d) in
    SQLite.handler s' = SQLite.Idle
    /\ SQLite.settled_order s' = [1; 2; 0].
Proof.
  set (s1 :=
         SQLite.run driver
           [ SQLite.CallQuery "INSERT INTO accounts (id) VALUES (1)" None;
             SQLite.CallQuery "SELECT id FROM accounts" None;
             SQLite.CallQuery "SELECT email FROM accounts" None ]
           (SQLite.initial d)).
  destruct (drain_cycle DB driver s1 eq_refl (or_introl eq_refl))
    as (n & H1 & _ & _ & H4 & _).
  exists n.
  cbn zeta.
  rewrite run_app. fold s1.
  split; [exact H1|exact H4].
Qed.

Section ShutdownFacts.
Import SQLite.
Variable DB : Type.
Variable driver : Database DB.

(** [close] hands the connection its [close] request only at a moment
    when the three queues are empty. *)
Lemma close_requested_on_empty_queues (s : SQLite.state DB) (ev : event) :
  closing s <> CloseRequested ->
  closing (step driver s ev) = CloseRequested ->
  queues_empty s = true /\ (ev = CallClose \/ ev = Wake).
Proof.
  intros Hnot Hreq.
  destruct ev as [text values|queries| | | | |]; cbn [step] in Hreq.
  - exfalso. apply Hnot. rewrite <- Hreq.
    unfold query.
    destruct (has_verb text "select"); now destruct s.
  - exfalso. apply Hnot. rewrite <- Hreq. now destruct s.
  - unfold close, close_poll in Hreq.
    destruct (closing s) eqn:Hc; try congruence.
    destruct (queues_empty s) eqn:Hq; [auto|].
    destruct s; cbn in Hreq; discriminate.
  - exfalso. apply Hnot. rewrite <- Hreq.
    unfold tick.
    destruct (paused s); [reflexivity|].
    unfold loop_transactions, loop_all, loop_run.
    destruct s as [d0 p tq aq rq h c n st sn]; cbn.
    destruct tq; [|reflexivity].
    destruct aq; [|reflexivity].
    destruct rq; reflexivity.
  - exfalso. apply Hnot. rewrite <- Hreq.
    unfold reply.
    destruct (handler s) as [|t|t q rest|t|t e|q|q|t e]; try reflexivity.
    + destruct (db_run driver (m_db s) "BEGIN TRANSACTION" None)
        as [d [e|l ch]]; [now destruct s|].
      unfold next_statement. destruct (tq_queries t); now destruct s.
    + destruct (db_run driver (m_db s) (Interfaces.query q)
                  (values_or_empty (Interfaces.values q)))
        as [d [e|l ch]]; [now destruct s|].
      unfold next_statement. destruct rest; now destruct s.
    + destruct (db_run driver (m_db s) "COMMIT" None)
        as [d [e|l ch]]; [now destruct s|].
      unfold loop_transactions, loop_all, loop_run.
      destruct s as [d0 p tq aq rq h c n st sn]; cbn.
      destruct tq; [|reflexivity].
      destruct aq; [|reflexivity].
      destruct rq; reflexivity.
    + destruct (db_run driver (m_db s) "ROLLBACK" None)
        as [d [e'|l ch]]; [now destruct s|].
      unfold loop_transactions, loop_all, loop_run.
      destruct s as [d0 p tq aq rq h c n st sn]; cbn.
      destruct tq; [|reflexivity].
      destruct aq; [|reflexivity].
      destruct rq; reflexivity.
    + destruct (db_all driver (m_db s) (qq_query q) (qq_values q))
        as [d [e|rows]];
        unfold loop_all, loop_run;
        destruct s as [d0 p tq aq rq h c n st sn]; cbn;
        (destruct aq; [|reflexivity]); destruct rq; reflexivity.
    + destruct (db_run driver (m_db s) (qq_query q) (qq_values q))
        as [d [e|l ch]];
        unfold loop_run;
        destruct s as [d0 p tq aq rq h c n st sn]; cbn;
        destruct rq; reflexivity.
  - unfold wake, close_poll in Hreq.
    destruct (closing s) eqn:Hc; try congruence.
    destruct (queues_empty s) eqn:Hq; [auto|].
    destruct s; cbn in Hreq; discriminate.
  - unfold closed in Hreq.
    destruct (closing s) eqn:Hc; congruence.
Qed.

(** A handler that died on a refused [ROLLBACK] stays dead: the timer
    remains paused, so no tick starts a new drain; whatever is called or
    answered afterwards, no promise is settled any more. *)
Lemma dead_handler_stays (t : ITransactionQueueEntry) (e : JS.Error)
    (evs : list event) :
  forall s : SQLite.state DB,
    handler s = Dead t e -> paused s = true ->
    let s' := run driver evs s in
    handler s' = Dead t e /\ paused s' = true /\ settled s' = settled s.
Proof.
  induction evs as [|ev evs IH]; intros s Hh Hp; [now repeat split|].
  cbn [run fold_left].
  assert (Hstep : handler (step driver s ev) = Dead t e
                  /\ paused (step driver s ev) = true
                  /\ settled (step driver s ev) = settled s).
  { destruct ev as [text values|queries| | | | |]; cbn [step].
    - unfold query. destruct (has_verb text "select"); now destruct s.
    - now destruct s.
    - unfold close, close_poll.
      destruct (closing s); auto.
      destruct (queues_empty s); now destruct s.
    - unfold tick. rewrite Hp. auto.
    - unfold reply. rewrite Hh. auto.
    - unfold wake, close_poll.
      destruct (closing s); auto.
      destruct (queues_empty s); now destruct s.
    - unfold closed.
      destruct (closing s); auto.
      destruct (db_close driver (m_db s)) as [d [e'|]]; now destruct s. }
  destruct Hstep as (Hh' & Hp' & Hst).
  destruct (IH (step driver s ev) Hh' Hp') as (H1 & H2 & H3).
  cbn zeta.
  change (fold_left (step driver) evs (step driver s ev))
    with (run driver evs (step driver s ev)).
  repeat split; trivial.
  now rewrite H3.
Qed.

(** The failure path when the connection accepts the [ROLLBACK]: the
    promise of the transaction is rejected with the error of the
    statement, and the handler goes on with the queues as they were. *)
Lemma failed_statement_rejects_its_transaction (s : SQLite.state DB)
    (t : ITransactionQueueEntry) (q : Interfaces.IBulkQuery)
    (rest : list Interfaces.IBulkQuery) (e : JS.Error) (d1 d2 : DB)
    (lastID changes : Z) :
  handler s = AwaitQuery t q rest ->
  db_run driver (m_db s) (Interfaces.query q)
    (values_or_empty (Interfaces.values q)) = (d1, RunError e) ->
  db_run driver d1 "ROLLBACK" None = (d2, RunDone lastID changes) ->
  exists s1,
    run driver [Reply; Reply] s = loop_transactions s1
    /\ settled s1 = (settled s ++ [(tq_callback t, JS.Rejected e)])%list
    /\ sent s1 = (sent s ++ ["ROLLBACK"])%list
    /\ m_db s1 = d2
    /\ m_transactionQueue s1 = m_transactionQueue s
    /\ m_allQueue s1 = m_allQueue s
    /\ m_runQueue s1 = m_runQueue s.
Proof.
  intros Hh Hq Hrb.
  eexists. split.
  - cbn [run fold_left step].
    unfold reply at 2. rewrite Hh, Hq.
    unfold reply, catch_transaction.
    destruct s as [d0 p tq aq rq h c n st sn]; cbn in *.
    rewrite Hrb. reflexivity.
  - destruct s as [d0 p tq aq rq h c n st sn]; cbn. repeat split.
Qed.

End ShutdownFacts.

(** C2.  A transaction is submitted and [close] is called at once; the
    tick shifts the transaction and starts it; the next poll of [close]
    finds the three queues empty and asks the connection to close; the
    connection answers the [BEGIN] and then the [close]: the promise of
    [close] is settled while the promise of the transaction, still in
    flight, is not. *)
Theorem close_settles_before_transaction (DB : Type)
    (driver : SQLite.Database DB) (d : DB)
    (queries : list Interfaces.IBulkQuery) :
  let s :=
    SQLite.run driver
      [ SQLite.CallTransaction queries; SQLite.CallClose; SQLite.Tick;
        SQLite.Wake; SQLite.Reply; SQLite.Closed ]
      (SQLite.initial d) in
  (exists r, SQLite.closing s = SQLite.CloseSettled r)
  /\ SQLite.promises s = 1
  /\ SQLite.settled s = []
  /\ SQLite.in_flight (SQLite.handler s) = [0].
Proof.
  intros s. subst s.
  change
    (SQLite.run driver
       [ SQLite.CallTransaction queries; SQLite.CallClose; SQLite.Tick;
         SQLite.Wake; SQLite.Reply; SQLite.Closed ]
       (SQLite.initial d))
    with
    (SQLite.closed driver
       (SQLite.reply driver
          {| SQLite.m_db := d; SQLite.paused := true;
             SQLite.m_transactionQueue := [];
             SQLite.m_allQueue := []; SQLite.m_runQueue := [];
             SQLite.handler :=
               SQLite.AwaitBegin
                 {| SQLite.tq_queries := queries; SQLite.tq_callback := 0 |};
             SQLite.closing := SQLite.CloseRequested;
             SQLite.promises := 1; SQLite.settled := [];
             SQLite.sent := ["BEGIN TRANSACTION"] |})).
  unfold SQLite.reply.
  cbn [SQLite.handler SQLite.m_db].
  destruct (SQLite.db_run driver d "BEGIN TRANSACTION" None) as [d1 [e|l ch]].
  - unfold SQLite.closed. cbn.
    destruct (SQLite.db_close driver d1) as [d2 [e2|]]; cbn;
      repeat split; eexists; reflexivity.
  - unfold SQLite.next_statement.
    destruct queries as [|q rest]; unfold SQLite.closed; cbn;
      destruct (SQLite.db_close driver d1) as [d2 [e2|]]; cbn;
      repeat split; eexists; reflexivity.
Qed.

(** What becomes of that transaction on a connection that refuses every
    request once closed: its next statement is refused, the [ROLLBACK] of
    the [catch] block is refused as well, the handler dies and, whatever
    is called or answered afterwards, the promise of the transaction is
    never settled. *)
Lemma transaction_lost_across_close :
  let t :=
    {| SQLite.tq_queries := [Examples.insert_account; Examples.insert_account];
       SQLite.tq_callback := 0 |} in
  let s :=
    SQLite.run Examples.closable
      [ SQLite.CallTransaction [Examples.insert_account; Examples.insert_account];
        SQLite.CallClose; SQLite.Tick; SQLite.Wake; SQLite.Reply;
        SQLite.Closed; SQLite.Reply; SQLite.Reply ]
      (SQLite.initial false) in
  SQLite.closing s = SQLite.CloseSettled (JS.Resolved tt)
  /\ SQLite.handler s = SQLite.Dead t Examples.database_closed
  /\ SQLite.settled s = []
  /\ forall evs, SQLite.settled (SQLite.run Examples.closable evs s) = [].
Proof.
  intros t s.
  repeat split; try reflexivity.
  intros evs.
  destruct (dead_handler_stays bool Examples.closable t
              Examples.database_closed evs s eq_refl eq_refl)
    as (_ & _ & H).
  exact H.
Qed.

(** C3.  A transaction whose statement is refused with a conflict that has
    already rolled the transaction back, a second transaction and a read
    behind it: the connection refuses the [ROLLBACK] of the [catch] block,
    the handler dies there, no promise is settled (not that of the failed
    transaction, not those of the two operations behind it), the timer
    stays paused, and whatever is called or answered afterwards no promise
    is settled any more. *)
Theorem refused_rollback_stops_the_drain :
  let s :=
    SQLite.run Examples.tracking
      [ SQLite.CallTransaction [Examples.insert_or_rollback];
        SQLite.CallTransaction [Examples.insert_account];
        SQLite.CallQuery "SELECT id FROM accounts" None;
        SQLite.Tick; SQLite.Reply; SQLite.Reply; SQLite.Reply ]
      (SQLite.initial false) in
  SQLite.sent s
  = ["BEGIN TRANSACTION";
     "INSERT OR ROLLBACK INTO accounts (id) VALUES (1)"; "ROLLBACK"]
  /\ SQLite.handler s
     = SQLite.Dead
         {| SQLite.tq_queries := [Examples.insert_or_rollback];
            SQLite.tq_callback := 0 |}
         (Examples.no_transaction "rollback")
  /\ SQLite.settled s = []
  /\ SQLite.waiting s = [0; 1; 2]
  /\ SQLite.paused s = true
  /\ forall evs, SQLite.settled (SQLite.run Examples.tracking evs s) = [].
Proof.
  intros s.
  repeat split; try reflexivity.
  intros evs.
  destruct (dead_handler_stays bool Examples.tracking
              {| SQLite.tq_queries := [Examples.insert_or_rollback];
                 SQLite.tq_callback := 0 |}
              (Examples.no_transaction "rollback") evs s eq_refl eq_refl)
    as (_ & _ & H).
  exact H.
Qed.

(** The sibling path: on the MySQL backend the promise of [transaction]
    is rejected on every failure, also when the [ROLLBACK] is refused. *)
Lemma MySQL_transaction_rejects_on_failure (P : Type) (pool : MySQL.Pool P)
    (m_db : P) (queries : list Interfaces.IBulkQuery) (m1 m2 : P)
    (e : JS.Error) :
  MySQL.getConnection pool m_db = (m1, None) ->
  MySQL.conn_beginTransaction pool m1 = (m2, None) ->
  snd (MySQL.run_queries P pool m2 queries) = Some e ->
  exists e', snd (MySQL.transaction P pool m_db queries) = Some e'.
Proof.
  intros Hc Hb Hq.
  unfold MySQL.transaction. rewrite Hc, Hb.
  destruct (MySQL.run_queries P pool m2 queries) as [m3 r].
  cbn in Hq. subst r.
  unfold MySQL.catch_finally.
  destruct (MySQL.conn_rollback pool m3) as [m4 [e'|]]; eexists; reflexivity.
Qed.

(** ** More on the statement compiler *)

Section TextFacts.

Lemma prefix_append (p y : string) : prefix p (p ++ y) = true.
Proof.
  induction p as [|c p IH]; [now destruct y|].
  cbn [append prefix].
  destruct (ascii_dec c c) as [_|Hne]; [exact IH|now elim Hne].
Qed.

Lemma includes_middle (x p y : string) : JS.includes (x ++ p ++ y) p = true.
Proof.
  apply includes_append.
  destruct (p ++ y) eqn:E; cbn [JS.includes]; rewrite <- E, prefix_append;
    reflexivity.
Qed.

Lemma startsWith_append (p y : string) : JS.startsWith (p ++ y) p = true.
Proof.
  apply prefix_append.
Qed.

Lemma upper_char_idem (c : ascii) :
  JS.upper_char (JS.upper_char c) = JS.upper_char c.
Proof.
  destruct c as [[] [] [] [] [] [] [] []]; reflexivity.
Qed.

Lemma lower_upper_char (c : ascii) :
  JS.lower_char (JS.upper_char c) = JS.lower_char c.
Proof.
  destruct c as [[] [] [] [] [] [] [] []]; reflexivity.
Qed.

Lemma lower_char_idem (c : ascii) :
  JS.lower_char (JS.lower_char c) = JS.lower_char c.
Proof.
  destruct c as [[] [] [] [] [] [] [] []]; reflexivity.
Qed.

Lemma toUpperCase_idem (s : string) :
  JS.toUpperCase (JS.toUpperCase s) = JS.toUpperCase s.
Proof.
  induction s as [|c s IH]; [reflexivity|].
  cbn. now rewrite upper_char_idem, IH.
Qed.

Lemma toLowerCase_toUpperCase (s : string) :
  JS.toLowerCase (JS.toUpperCase s) = JS.toLowerCase s.
Proof.
  induction s as [|c s IH]; [reflexivity|].
  cbn. now rewrite lower_upper_char, IH.
Qed.

Lemma toLowerCase_idem (s : string) :
  JS.toLowerCase (JS.toLowerCase s) = JS.toLowerCase s.
Proof.
  induction s as [|c s IH]; [reflexivity|].
  cbn. now rewrite lower_char_idem, IH.
Qed.

(** Changing the case of a text does not make it empty, nor fill it. *)
Lemma present_toUpperCase (o : option string) :
  Types.present (option_map JS.toUpperCase o)
  = option_map JS.toUpperCase (Types.present o).
Proof.
  destruct o as [[|c s]|]; reflexivity.
Qed.

(** In a replacement text a run without dollar sign is copied. *)
Lemma get_substitution_app (m b a x r : string) :
  JS.lacks "$" x = true ->
  JS.get_substitution m b a (x ++ r) = x ++ JS.get_substitution m b a r.
Proof.
  induction x as [|c x IH]; intros H; [reflexivity|].
  simpl in H.
  apply andb_true_iff in H as [Hc Hx].
  cbn [append JS.get_substitution].
  destruct (Ascii.eqb c "$") eqn:E; [discriminate Hc|].
  now rewrite (IH Hx).
Qed.

Lemma replace_marker_with (pre r : string) :
  JS.lacks "%" pre = true ->
  JS.replace (pre ++ "%L") "%L" r
  = pre ++ JS.get_substitution "%L" pre "" r.
Proof.
  intros Hpre.
  unfold JS.replace.
  change (pre ++ "%L") with (pre ++ "%L" ++ "").
  rewrite (split_first_marker pre "" Hpre).
  now rewrite append_empty_r.
Qed.

End TextFacts.

Section CompilerExtras.
Import Interfaces.

(** The constraints of the columns with a foreign key, in column order. *)
Lemma constraints_loop_flat_map (name : string) (fields : list ITableColumn)
    (acc : list string) :
  Types.constraints_loop name fields acc
  = app acc
      (flat_map
         (fun field =>
            match foreign field with
            | Some fk => [Types.constraint_text name field fk]
            | None => []
            end)
         fields).
Proof.
  revert acc.
  induction fields as [|f fields IH]; intros acc.
  - cbn. now rewrite app_nil_r.
  - cbn [Types.constraints_loop flat_map].
    destruct (foreign f) as [fk|].
    + rewrite IH, <- app_assoc. reflexivity.
    + apply IH.
Qed.

Lemma constraint_text_shape (name : string) (field : ITableColumn)
    (fk : IForeignKey) :
  Types.constraint_text name field fk
  = ", CONSTRAINT " ++ name ++ "_" ++ Interfaces.name field
    ++ "_fkey FOREIGN KEY (" ++ Interfaces.name field ++ ") REFERENCES "
    ++ Interfaces.table fk ++ " (" ++ column fk ++ ")"
    ++ match Types.present (delete fk) with
       | Some d => " ON DELETE " ++ JS.toUpperCase d
       | None => ""
       end
    ++ match Types.present (update fk) with
       | Some u => " ON UPDATE " ++ JS.toUpperCase u
       | None => ""
       end.
Proof.
  unfold Types.constraint_text, Types.constraint_fmt.
  cbn [JS.format JS.format_args Ascii.eqb Bool.eqb fold_right append].
  destruct (Types.present (delete fk)) as [d|];
    destruct (Types.present (update fk)) as [u|];
    cbn [append];
    repeat (rewrite append_assoc; cbn [append]);
    rewrite ?append_empty_r; reflexivity.
Qed.

End CompilerExtras.

(** X1.  The foreign-key clause of a column: the constraint is named
    [<table>_<column>_fkey], [ON DELETE] comes before [ON UPDATE], an
    action that is absent or the empty string is left out, and the
    actions are written in upper case: the clause is the same whatever
    the case of the actions in the input. *)
Theorem foreign_key_clause (name : string)
    (field : Interfaces.ITableColumn) (fk : Interfaces.IForeignKey) :
  Types.constraint_text name field fk
  = ", CONSTRAINT " ++ name ++ "_" ++ Interfaces.name field
    ++ "_fkey FOREIGN KEY (" ++ Interfaces.name field ++ ") REFERENCES "
    ++ Interfaces.table fk ++ " (" ++ Interfaces.column fk ++ ")"
    ++ match Types.present (Interfaces.delete fk) with
       | Some d => " ON DELETE " ++ JS.toUpperCase d
       | None => ""
       end
    ++ match Types.present (Interfaces.update fk) with
       | Some u => " ON UPDATE " ++ JS.toUpperCase u
       | None => ""
       end
  /\ Types.constraint_text name field (Types.upper_actions fk)
     = Types.constraint_text name field fk.
Proof.
  split; [apply constraint_text_shape|].
  rewrite !constraint_text_shape.
  unfold Types.upper_actions.
  cbn [Interfaces.table Interfaces.column Interfaces.delete Interfaces.update].
  rewrite !present_toUpperCase.
  destruct (Types.present (Interfaces.delete fk)) as [d|];
    destruct (Types.present (Interfaces.update fk)) as [u|];
    cbn [option_map]; rewrite ?toUpperCase_idem; reflexivity.
Qed.

(** X2.  Every foreign-key clause starts with a comma of its own and
    the clauses are joined by commas: with two columns or more that have
    a foreign key the table statement holds two commas in a row before
    the second [CONSTRAINT]. *)
Theorem two_foreign_keys_double_comma (dbType : Interfaces.DBType)
    (name : string) (fields : list Interfaces.ITableColumn)
    (primaryKey : list string) (tableOptions : option string) :
  2 <= List.length (filter Types.has_foreign fields) ->
  JS.includes
    (Types.table
       (Types.prepareCreateTable dbType name fields primaryKey tableOptions))
    ",, CONSTRAINT " = true.
Proof.
  intros Htwo.
  rewrite table_text, constraints_loop_flat_map.
  cbn [app].
  assert (Hc : exists c1 c2 rest,
    flat_map
      (fun field =>
         match Interfaces.foreign field with
         | Some fk => [Types.constraint_text name field fk]
         | None => []
         end) fields
    = c1 :: (", CONSTRAINT " ++ c2) :: rest).
  { clear - Htwo.
    induction fields as [|f fields IH]; [cbn in Htwo; lia|].
    cbn [filter flat_map] in *.
    unfold Types.has_foreign at 1 in Htwo.
    destruct (Interfaces.foreign f) as [fk|]; [|now apply IH].
    cbn [List.length app] in *.
    clear IH.
    assert (H1 : 1 <= List.length (filter Types.has_foreign fields)) by lia.
    clear Htwo.
    induction fields as [|g fields IH]; [cbn in H1; lia|].
    cbn [filter flat_map] in *.
    unfold Types.has_foreign at 1 in H1.
    destruct (Interfaces.foreign g) as [gk|].
    - cbn [app].
      rewrite (constraint_text_shape name g gk).
      eexists _, _, _. reflexivity.
    - destruct (IH H1) as (c1 & c2 & rest & E).
      exists c1, c2, rest. exact E. }
  destruct Hc as (c1 & c2 & rest & ->).
  apply (includes_append "CREATE TABLE IF NOT EXISTS ").
  apply includes_append.
  apply (includes_append " (").
  apply includes_append.
  apply (includes_append ", PRIMARY KEY (").
  apply includes_append.
  apply (includes_append ")").
  cbn [JS.join].
  destruct rest as [|c3 rest].
  - replace ((c1 ++ "," ++ ", CONSTRAINT " ++ c2) ++ _)
      with (c1 ++ ",, CONSTRAINT " ++ (c2 ++ ") "
              ++ match Types.present tableOptions with
                 | Some o => o
                 | None => ""
                 end ++ ";")).
    + apply includes_middle.
    + cbn [append]. repeat (rewrite append_assoc; cbn [append]). reflexivity.
  - replace ((c1 ++ "," ++ (", CONSTRAINT " ++ c2) ++ "," ++ JS.join "," (c3 :: rest)) ++ _)
      with (c1 ++ ",, CONSTRAINT " ++ (c2 ++ "," ++ JS.join "," (c3 :: rest) ++ ") "
              ++ match Types.present tableOptions with
                 | Some o => o
                 | None => ""
                 end ++ ";")).
    + apply includes_middle.
    + cbn [append]. repeat (rewrite append_assoc; cbn [append]). reflexivity.
Qed.

Lemma two_foreign_keys_double_comma_membership :
  2 <= List.length
         (filter Types.has_foreign
            [Examples.col_id; Examples.owner_column; Examples.group_column])
  /\ JS.includes
       (Types.table
          (Types.prepareCreateTable Interfaces.SQLITE "membership"
             [Examples.col_id; Examples.owner_column; Examples.group_column]
             ["id"] None))
       ",, CONSTRAINT " = true.
Proof.
  assert (H : 2 <= List.length
                     (filter Types.has_foreign
                        [Examples.col_id; Examples.owner_column;
                         Examples.group_column])).
  { cbn. lia. }
  split; [exact H|].
  exact (two_foreign_keys_double_comma Interfaces.SQLITE "membership"
           [Examples.col_id; Examples.owner_column; Examples.group_column]
           ["id"] None H).
Defined.

(** X3.  Whatever the input, the table statement starts with [CREATE
    TABLE IF NOT EXISTS <name> (], holds the clause [PRIMARY KEY (...)]
    with the key columns in the order given, joined by commas, and ends
    with the table options, when there are any, and a semicolon; the
    final [trim] removes nothing. *)
Theorem table_statement_frame (dbType : Interfaces.DBType) (name : string)
    (fields : list Interfaces.ITableColumn) (primaryKey : list string)
    (tableOptions : option string) :
  let sql :=
    Types.table
      (Types.prepareCreateTable dbType name fields primaryKey tableOptions) in
  JS.startsWith sql ("CREATE TABLE IF NOT EXISTS " ++ name ++ " (") = true
  /\ JS.includes sql (", PRIMARY KEY (" ++ JS.join "," primaryKey ++ ")")
     = true
  /\ JS.endsWith sql
       (") " ++ match Types.present tableOptions with
                | Some o => o
                | None => ""
                end ++ ";") = true
  /\ JS.trim sql = sql.
Proof.
  cbn zeta.
  rewrite table_text.
  split; [|split; [|split]].
  - replace ("CREATE TABLE IF NOT EXISTS " ++ name ++ " ("
             ++ JS.join ", " (map Types.field_text fields)
             ++ ", PRIMARY KEY (" ++ JS.join "," primaryKey ++ ")"
             ++ JS.join "," (Types.constraints_loop name fields [])
             ++ ") "
             ++ match Types.present tableOptions with
                | Some o => o
                | None => ""
                end ++ ";")
      with (("CREATE TABLE IF NOT EXISTS " ++ name ++ " (")
            ++ JS.join ", " (map Types.field_text fields)
            ++ ", PRIMARY KEY (" ++ JS.join "," primaryKey ++ ")"
            ++ JS.join "," (Types.constraints_loop name fields [])
            ++ ") "
            ++ match Types.present tableOptions with
               | Some o => o
               | None => ""
               end ++ ";").
    + apply startsWith_append.
    + cbn [append]. repeat (rewrite append_assoc; cbn [append]). reflexivity.
  - apply (includes_append "CREATE TABLE IF NOT EXISTS ").
    apply includes_append.
    apply (includes_append " (").
    apply includes_append.
    replace (", PRIMARY KEY (" ++ JS.join "," primaryKey ++ ")"
             ++ JS.join "," (Types.constraints_loop name fields [])
             ++ ") "
             ++ match Types.present tableOptions with
                | Some o => o
                | None => ""
                end ++ ";")
      with ("" ++ (", PRIMARY KEY (" ++ JS.join "," primaryKey ++ ")")
            ++ JS.join "," (Types.constraints_loop name fields [])
            ++ ") "
            ++ match Types.present tableOptions with
               | Some o => o
               | None => ""
               end ++ ";").
    + apply includes_middle.
    + cbn [append]. repeat (rewrite append_assoc; cbn [append]). reflexivity.
  - apply (endsWith_append "CREATE TABLE IF NOT EXISTS ").
    apply endsWith_append.
    apply (endsWith_append " (").
    apply endsWith_append.
    apply (endsWith_append ", PRIMARY KEY (").
    apply endsWith_append.
    apply (endsWith_append ")").
    apply endsWith_append.
    apply endsWith_refl.
  - unfold JS.trim.
    cbn [append JS.trimStart JS.is_space nat_of_ascii].
    match goal with
    | |- JS.trimEnd ?t = _ =>
        replace t with
          (("CREATE TABLE IF NOT EXISTS " ++ name ++ " ("
            ++ JS.join ", " (map Types.field_text fields)
            ++ ", PRIMARY KEY (" ++ JS.join "," primaryKey ++ ")"
            ++ JS.join "," (Types.constraints_loop name fields [])
            ++ ") "
            ++ match Types.present tableOptions with
               | Some o => o
               | None => ""
               end) ++ ";")
    end.
    + rewrite trimEnd_semicolon.
      cbn [append]. repeat (rewrite append_assoc; cbn [append]). reflexivity.
    + cbn [append]. repeat (rewrite append_assoc; cbn [append]). reflexivity.
Qed.

Section CreateTableFacts.
Import Interfaces.

Lemma indexes_empty (dbType : DBType) (name : string)
    (fields : list ITableColumn) (primaryKey : list string)
    (tableOptions : option string) :
  existsb Types.is_unique fields = false ->
  Types.indexes
    (Types.prepareCreateTable dbType name fields primaryKey tableOptions)
  = [].
Proof.
  intros H.
  unfold Types.prepareCreateTable. cbn [Types.indexes].
  induction fields as [|f fields IH]; [reflexivity|].
  cbn [existsb] in H.
  apply orb_false_iff in H as [Hf H].
  cbn [filter]. rewrite Hf. now apply IH.
Qed.

Lemma indexes_not_empty (dbType : DBType) (name : string)
    (fields : list ITableColumn) (primaryKey : list string)
    (tableOptions : option string) :
  existsb Types.is_unique fields = true ->
  Types.indexes
    (Types.prepareCreateTable dbType name fields primaryKey tableOptions)
  <> [].
Proof.
  intros H.
  unfold Types.prepareCreateTable. cbn [Types.indexes].
  induction fields as [|f fields IH]; [discriminate H|].
  cbn [existsb] in H.
  cbn [filter].
  destruct (Types.is_unique f); [discriminate|].
  now apply IH.
Qed.

End CreateTableFacts.

(** X4.  [createTable] hands the backend one transaction that holds the
    table statement alone.  When that transaction fails, or when no
    column is unique, it is the only one: the index statements are never
    executed after a failure.  Otherwise a second transaction follows
    with the index statements of the unique columns, in column order,
    and its result is the result of the call: the table statement is not
    undone when an index statement fails. *)
Theorem createTable_transactions (World : Type)
    (transaction :
       World -> list Interfaces.IBulkQuery -> World * option JS.Error)
    (db : World) (dbType : Interfaces.DBType) (name : string)
    (fields : list Interfaces.ITableColumn) (primaryKey : list string)
    (tableOptions : option string) :
  let p := Types.prepareCreateTable dbType name fields primaryKey tableOptions in
  let r :=
    Types.createTable (World * list (list Interfaces.IBulkQuery))
      (Types.recorded World transaction) (db, []) dbType name fields
      primaryKey tableOptions in
  let calls := snd (fst r) in
  let index_statements :=
    map (fun col => Types.statement (Types.unique_index_text name col))
      (filter Types.is_unique fields) in
  snd r
  = snd (Types.createTable World transaction db dbType name fields
           primaryKey tableOptions)
  /\ match transaction db [Types.statement (Types.table p)] with
     | (_, Some e) =>
         calls = [[Types.statement (Types.table p)]] /\ snd r = Some e
     | (db1, None) =>
         if existsb Types.is_unique fields
         then calls = [[Types.statement (Types.table p)]; index_statements]
              /\ snd r = snd (transaction db1 index_statements)
         else calls = [[Types.statement (Types.table p)]] /\ snd r = None
     end.
Proof.
  cbn zeta.
  set (p := Types.prepareCreateTable dbType name fields primaryKey
              tableOptions).
  assert (Hi : Types.indexes p
               = map (Types.unique_index_text name)
                   (filter Types.is_unique fields)) by reflexivity.
  unfold Types.createTable, Types.recorded.
  cbv zeta. fold p.
  cbn [fst snd app].
  destruct (transaction db [Types.statement (Types.table p)])
    as [db1 [e|]] eqn:E1.
  - cbn [fst snd]. auto.
  - destruct (existsb Types.is_unique fields) eqn:Hu.
    + pose proof (indexes_not_empty dbType name fields primaryKey
                    tableOptions Hu) as Hne.
      fold p in Hne.
      destruct (Types.indexes p) as [|i rest] eqn:Ei; [now elim Hne|].
      rewrite Hi, map_map.
      cbn [fst snd app].
      destruct (transaction db1
                  (map (fun col =>
                          Types.statement (Types.unique_index_text name col))
                     (filter Types.is_unique fields))) as [db2 r2].
      cbn [fst snd]. auto.
    + pose proof (indexes_empty dbType name fields primaryKey
                    tableOptions Hu) as He.
      fold p in He. rewrite He.
      cbn [fst snd]. auto.
Qed.

Section InsertFacts.
Import Interfaces.
Variable escape : IValueArray -> string.

Lemma MySQL_insert_query (table : string) (columns : list string) :
  JS.format "INSERT INTO %s (%s) VALUES %L" [table; JS.join "," columns]
  = ("INSERT INTO " ++ table ++ " (" ++ JS.join "," columns ++ ") VALUES ")
    ++ "%L".
Proof.
  cbn [JS.format JS.format_args Ascii.eqb Bool.eqb fold_right append].
  repeat (rewrite append_assoc; cbn [append]).
  reflexivity.
Qed.

Lemma SQLite_insert_query (table : string) (columns : list string) :
  JS.format "INSERT INTO %s (%s) %L" [table; JS.join "," columns]
  = ("INSERT INTO " ++ table ++ " (" ++ JS.join "," columns ++ ") ") ++ "%L".
Proof.
  cbn [JS.format JS.format_args Ascii.eqb Bool.eqb fold_right append].
  repeat (rewrite append_assoc; cbn [append]).
  reflexivity.
Qed.

Lemma doubled_dollar (m b a x y : string) :
  JS.lacks "$" x = true -> JS.lacks "$" y = true ->
  JS.get_substitution m b a (x ++ "$$" ++ y) = x ++ "$" ++ y.
Proof.
  intros Hx Hy.
  rewrite (get_substitution_app _ _ _ _ _ Hx).
  cbn [append JS.get_substitution Ascii.eqb Bool.eqb].
  now rewrite (get_substitution_plain _ _ _ _ Hy).
Qed.

End InsertFacts.

(** X5.  [prepareMultiInsert] puts the escaped rows into the statement
    with [String.replace], which reads the dollar patterns of its
    replacement text: of two dollar signs in a row in the escaped rows
    (the [escape] of the [mysql] package leaves dollar signs as they
    are) only one reaches the statement, on the MySQL and on the SQLite
    backend. *)
Theorem prepareMultiInsert_halves_doubled_dollar
    (escape : Interfaces.IValueArray -> string) (table : string)
    (columns : list string) (rows : Interfaces.IValueArray)
    (before after : string) :
  JS.lacks "%" table = true ->
  JS.lacks "%" (JS.join "," columns) = true ->
  escape rows = before ++ "$$" ++ after ->
  JS.lacks "$" before = true ->
  JS.lacks "$" after = true ->
  MySQL.prepareMultiInsert escape table columns (Some rows)
  = "INSERT INTO " ++ table ++ " (" ++ JS.join "," columns ++ ") VALUES "
    ++ before ++ "$" ++ after
  /\ SQLite.prepareMultiInsert escape table columns (Some rows)
     = "INSERT INTO " ++ table ++ " (" ++ JS.join "," columns ++ ") "
       ++ before ++ "$" ++ after.
Proof.
  intros Ht Hc He Hb Ha.
  unfold MySQL.prepareMultiInsert, SQLite.prepareMultiInsert.
  rewrite MySQL_insert_query, SQLite_insert_query.
  rewrite !replace_marker_with, He, !doubled_dollar; trivial.
  - split; cbn [append]; repeat (rewrite append_assoc; cbn [append]);
      reflexivity.
  - repeat (rewrite lacks_append). now rewrite Ht, Hc.
  - repeat (rewrite lacks_append). now rewrite Ht, Hc.
Qed.

Lemma prepareMultiInsert_halves_doubled_dollar_prices :
  (JS.lacks "%" "prices" = true
   /\ JS.lacks "%" (JS.join "," ["id"; "amount"]) = true
   /\ SqlString.escape Examples.price_rows = "(1, 'US" ++ "$$" ++ "')"
   /\ JS.lacks "$" "(1, 'US" = true
   /\ JS.lacks "$" "')" = true)
  /\ MySQL.prepareMultiInsert SqlString.escape "prices" ["id"; "amount"]
       (Some Examples.price_rows)
     = "INSERT INTO prices (id,amount) VALUES (1, 'US$')".
Proof.
  split; [repeat split; reflexivity|].
  exact (proj1 (prepareMultiInsert_halves_doubled_dollar SqlString.escape
                  "prices" ["id"; "amount"] Examples.price_rows
                  "(1, 'US" "')" eq_refl eq_refl eq_refl eq_refl eq_refl)).
Defined.

(** X6.  Without values the statement keeps the marker [%L] where the
    rows would stand: [prepareMultiInsert] returns the template as
    [format] left it, and the statement of [prepareMultiUpdate] still
    holds the marker, on the MySQL and on the SQLite backend. *)
Theorem prepareMultiInsert_without_values
    (escape : Interfaces.IValueArray -> string) (table : string)
    (primaryKey columns : list string) :
  MySQL.prepareMultiInsert escape table columns None
  = "INSERT INTO " ++ table ++ " (" ++ JS.join "," columns ++ ") VALUES %L"
  /\ SQLite.prepareMultiInsert escape table columns None
     = "INSERT INTO " ++ table ++ " (" ++ JS.join "," columns ++ ") %L"
  /\ JS.includes
       (MySQL.prepareMultiUpdate escape table primaryKey columns None)
       "%L ON DUPLICATE KEY UPDATE " = true
  /\ JS.includes
       (SQLite.prepareMultiUpdate escape table primaryKey columns None)
       "%L ON CONFLICT (" = true.
Proof.
  assert (HM : forall cols,
    MySQL.prepareMultiInsert escape table cols None
    = "INSERT INTO " ++ table ++ " (" ++ JS.join "," cols ++ ") VALUES %L").
  { intros cols. unfold MySQL.prepareMultiInsert.
    rewrite MySQL_insert_query.
    cbn [append]. repeat (rewrite append_assoc; cbn [append]). reflexivity. }
  assert (HS : forall cols,
    SQLite.prepareMultiInsert escape table cols None
    = "INSERT INTO " ++ table ++ " (" ++ JS.join "," cols ++ ") %L").
  { intros cols. unfold SQLite.prepareMultiInsert.
    rewrite SQLite_insert_query.
    cbn [append]. repeat (rewrite append_assoc; cbn [append]). reflexivity. }
  split; [apply HM|].
  split; [apply HS|].
  split.
  - unfold MySQL.prepareMultiUpdate.
    rewrite HM, MySQL_updates_loop.
    cbn [JS.format JS.format_args Ascii.eqb Bool.eqb fold_right app].
    rewrite append_empty_r.
    match goal with
    | |- JS.includes ?t _ = true =>
        replace t with
          (("INSERT INTO " ++ table ++ " ("
            ++ JS.join "," (primaryKey ++ columns)%list ++ ") VALUES ")
           ++ "%L ON DUPLICATE KEY UPDATE "
           ++ JS.join ","
                (map (fun c => " " ++ c ++ " = VALUES(" ++ c ++ ")") columns))
    end.
    + apply includes_middle.
    + cbn [append]. repeat (rewrite append_assoc; cbn [append]). reflexivity.
  - unfold SQLite.prepareMultiUpdate.
    rewrite HS, SQLite_updates_loop.
    cbn [JS.format JS.format_args Ascii.eqb Bool.eqb fold_right app].
    rewrite append_empty_r.
    match goal with
    | |- JS.includes ?t _ = true =>
        replace t with
          (("INSERT INTO " ++ table ++ " ("
            ++ JS.join "," (primaryKey ++ columns)%list ++ ") ")
           ++ "%L ON CONFLICT ("
           ++ JS.join "," primaryKey ++ ") DO UPDATE SET "
           ++ JS.join ","
                (map (fun c => " " ++ c ++ " = excluded." ++ c) columns))
    end.
    + apply includes_middle.
    + cbn [append]. repeat (rewrite append_assoc; cbn [append]). reflexivity.
Qed.

(** ** The Postgres backend *)

Section PostgresFacts.
Import Interfaces.

Lemma Postgres_updates_loop (columns updates : list string) :
  Postgres.updates_loop columns updates
  = app updates
      (map (fun c => " " ++ c ++ " = excluded." ++ c) columns).
Proof.
  revert updates.
  induction columns as [|c columns IH]; intros updates.
  - simpl. now rewrite app_nil_r.
  - cbn [Postgres.updates_loop map].
    rewrite IH, <- app_assoc.
    cbn. now rewrite append_empty_r.
Qed.

(** The decimal digits of a number hold none of the characters that
    [replace] or the loop of [transformQuery] look for. *)
Lemma lacks_digits (c : ascii) (d : Decimal.uint) :
  In c ["?"; "$"; "&"; "`"; "'"]%char ->
  JS.lacks c (NilEmpty.string_of_uint d) = true.
Proof.
  intros Hc.
  induction d; cbn [NilEmpty.string_of_uint JS.lacks]; rewrite ?IHd;
    try reflexivity;
    destruct Hc as [<-|[<-|[<-|[<-|[<-|[]]]]]]; reflexivity.
Qed.

Lemma lacks_number (c : ascii) (n : Z) :
  In c ["?"; "$"; "&"; "`"; "'"]%char ->
  JS.lacks c (JS.number_to_string n) = true.
Proof.
  intros Hc.
  unfold JS.number_to_string, NilZero.string_of_int, NilZero.string_of_uint.
  destruct (Z.to_int n) as [d|d].
  - destruct d; try apply lacks_digits; trivial.
    destruct Hc as [<-|[<-|[<-|[<-|[<-|[]]]]]]; reflexivity.
  - cbn [JS.lacks].
    replace (negb (Ascii.eqb "-" c)) with true
      by (destruct Hc as [<-|[<-|[<-|[<-|[<-|[]]]]]]; reflexivity).
    destruct d; try apply lacks_digits; trivial.
    destruct Hc as [<-|[<-|[<-|[<-|[<-|[]]]]]]; reflexivity.
Qed.

(** The replacement text of [transformQuery] stands for itself. *)
Lemma placeholder_literal (m b a : string) (n : Z) :
  JS.get_substitution m b a ("$" ++ JS.number_to_string n)
  = "$" ++ JS.number_to_string n.
Proof.
  pose proof (lacks_number "$" n) as Hd.
  pose proof (lacks_number "&" n) as Ha.
  pose proof (lacks_number "`" n) as Hb.
  pose proof (lacks_number "'" n) as Hq.
  cbn [In] in Hd, Ha, Hb, Hq.
  specialize (Hd ltac:(tauto)). specialize (Ha ltac:(tauto)).
  specialize (Hb ltac:(tauto)). specialize (Hq ltac:(tauto)).
  destruct (JS.number_to_string n) as [|d rest] eqn:E; [reflexivity|].
  change ("$" ++ String d rest) with (String "$" (String d rest)).
  cbn [JS.get_substitution].
  change (Ascii.eqb "$" "$") with true. cbv iota.
  cbn [JS.lacks] in Hd, Ha, Hb, Hq.
  apply andb_true_iff in Hd as [Hd Hrest].
  apply andb_true_iff in Ha as [Ha _].
  apply andb_true_iff in Hb as [Hb _].
  apply andb_true_iff in Hq as [Hq _].
  apply negb_true_iff in Hd, Ha, Hb, Hq.
  rewrite Hd, Ha, Hb, Hq.
  do 2 f_equal.
  now apply get_substitution_plain.
Qed.

Lemma split_first_question (pre rest : string) :
  JS.lacks "?" pre = true ->
  JS.split_first "?" (pre ++ String "?" rest) = Some (pre, rest).
Proof.
  induction pre as [|c pre IH]; intros H.
  - change ("" ++ String "?" rest) with (String "?" rest).
    assert (Hp : prefix "?" (String "?" rest) = true).
    { simpl. now destruct rest. }
    destruct rest as [|r0 rest]; [reflexivity|].
    unfold JS.split_first. rewrite Hp.
    change (String.length "?") with 1.
    change (String.length (String "?" (String r0 rest)) - 1)
      with (String.length (String r0 rest) - 0).
    rewrite Nat.sub_0_r.
    change (substring 1 (String.length (String r0 rest))
              (String "?" (String r0 rest)))
      with (substring 0 (String.length (String r0 rest)) (String r0 rest)).
    now rewrite substring_whole.
  - simpl in H.
    apply andb_true_iff in H as [Hc Hpre].
    change (String c pre ++ String "?" rest)
      with (String c (pre ++ String "?" rest)).
    cbn [JS.split_first].
    replace (prefix "?" (String c (pre ++ String "?" rest))) with false.
    + now rewrite (IH Hpre).
    + cbn [prefix].
      destruct (ascii_dec "?" c) as [<-|Hne]; [discriminate Hc|reflexivity].
Qed.

Lemma split_first_no_question (s : string) :
  JS.lacks "?" s = true -> JS.split_first "?" s = None.
Proof.
  induction s as [|c s IH]; intros H; [reflexivity|].
  simpl in H.
  apply andb_true_iff in H as [Hc Hs].
  cbn [JS.split_first].
  replace (prefix "?" (String c s)) with false.
  - now rewrite (IH Hs).
  - cbn [prefix].
    destruct (ascii_dec "?" c) as [<-|Hne]; [discriminate Hc|reflexivity].
Qed.

Lemma replace_question (pre rest : string) (n : Z) :
  JS.lacks "?" pre = true ->
  JS.replace (pre ++ String "?" rest) "?" ("$" ++ JS.number_to_string n)
  = (pre ++ "$" ++ JS.number_to_string n) ++ rest.
Proof.
  intros H.
  unfold JS.replace.
  rewrite (split_first_question pre rest H), placeholder_literal.
  now rewrite !append_assoc.
Qed.

Lemma append_char (pre : string) (c : ascii) (r : string) :
  pre ++ String c r = (pre ++ String c "") ++ r.
Proof.
  now rewrite append_assoc.
Qed.

(** The loop numbers the question marks from left to right, given one
    unit of fuel for each character that is left. *)
Lemma transformQuery_loop_numbered (s : string) :
  forall (fuel : nat) (pre : string) (counter : Z),
    JS.lacks "?" pre = true ->
    String.length s <= fuel ->
    Postgres.transformQuery_loop fuel (pre ++ s) counter
    = Some (pre ++ Postgres.numbered counter s).
Proof.
  induction s as [|c s IH]; intros fuel pre counter Hpre Hfuel.
  - rewrite append_empty_r.
    destruct fuel; cbn [Postgres.transformQuery_loop Postgres.numbered];
      rewrite (split_first_no_question pre Hpre), ?append_empty_r;
      reflexivity.
  - cbn [Postgres.numbered].
    destruct (Ascii.eqb c "?") eqn:Ec.
    + apply Ascii.eqb_eq in Ec. subst c.
      destruct fuel as [|fuel]; [cbn in Hfuel; lia|].
      cbn [Postgres.transformQuery_loop].
      rewrite (split_first_question pre s Hpre).
      rewrite (replace_question pre s counter Hpre).
      rewrite IH.
      * now rewrite !append_assoc.
      * rewrite !lacks_append, Hpre.
        rewrite (lacks_number "?" counter); [reflexivity|cbn; tauto].
      * cbn in Hfuel. lia.
    + rewrite append_char.
      rewrite IH.
      * now rewrite append_assoc.
      * rewrite lacks_append, Hpre.
        cbn [JS.lacks]. rewrite Ec. reflexivity.
      * cbn in Hfuel. lia.
Qed.

Lemma numbered_lacks_question (s : string) :
  forall counter : Z, JS.lacks "?" (Postgres.numbered counter s) = true.
Proof.
  induction s as [|c s IH]; intros counter; [reflexivity|].
  cbn [Postgres.numbered].
  destruct (Ascii.eqb c "?") eqn:Ec.
  - change ("$" ++ JS.number_to_string counter
            ++ Postgres.numbered (counter + 1) s)
      with (String "$" (JS.number_to_string counter
                        ++ Postgres.numbered (counter + 1) s)).
    cbn [JS.lacks].
    rewrite lacks_append, IH.
    rewrite (lacks_number "?" counter); [reflexivity|cbn; tauto].
  - cbn [JS.lacks]. now rewrite Ec, IH.
Qed.

Lemma numbered_without_question (s : string) :
  forall counter : Z,
    JS.lacks "?" s = true -> Postgres.numbered counter s = s.
Proof.
  induction s as [|c s IH]; intros counter H; [reflexivity|].
  cbn [JS.lacks] in H.
  apply andb_true_iff in H as [Hc Hs].
  apply negb_true_iff in Hc.
  cbn [Postgres.numbered].
  now rewrite Hc, IH.
Qed.

Lemma transformQuery_total (query : string) :
  Postgres.transformQuery query = Some (Postgres.numbered 1 query).
Proof.
  exact (transformQuery_loop_numbered query (String.length query) "" 1
           eq_refl (Nat.le_refl _)).
Qed.

End PostgresFacts.

(** X7.  [transformQuery] always returns: the loop ends within one turn
    per character of the text.  The result is the text in which the
    question marks, from left to right, are replaced by [$1], [$2], and
    so on, a question mark inside a quoted literal included; no
    question mark is left, and a text without question mark is returned
    as it is. *)
Theorem transformQuery_numbers_the_question_marks (query : string) :
  Postgres.transformQuery query = Some (Postgres.numbered 1 query)
  /\ (forall fuel : nat,
        String.length query <= fuel ->
        Postgres.transformQuery_loop fuel query 1
        = Some (Postgres.numbered 1 query))
  /\ JS.lacks "?" (Postgres.numbered 1 query) = true
  /\ (forall before middle after : string,
        JS.lacks "?" before = true -> JS.lacks "?" middle = true ->
        JS.lacks "?" after = true ->
        Postgres.transformQuery (before ++ "?" ++ middle ++ "?" ++ after)
        = Some (before ++ "$1" ++ middle ++ "$2" ++ after))
  /\ (JS.lacks "?" query = true -> Postgres.transformQuery query = Some query).
Proof.
  split; [apply transformQuery_total|].
  split.
  { intros fuel Hfuel.
    exact (transformQuery_loop_numbered query fuel "" 1 eq_refl Hfuel). }
  split; [apply numbered_lacks_question|].
  split.
  - intros before middle after Hb Hm Ha.
    rewrite transformQuery_total.
    f_equal.
    assert (Hn : forall (x : string) (k : Z) (r : string),
              JS.lacks "?" x = true ->
              Postgres.numbered k (x ++ r) = x ++ Postgres.numbered k r).
    { induction x as [|c x IHx]; intros k r Hx; [reflexivity|].
      cbn [JS.lacks] in Hx.
      apply andb_true_iff in Hx as [Hc Hx].
      apply negb_true_iff in Hc.
      cbn [append Postgres.numbered].
      now rewrite Hc, IHx. }
    rewrite (Hn before 1%Z _ Hb).
    change ("?" ++ middle ++ "?" ++ after)
      with (String "?" (middle ++ "?" ++ after)).
    cbn [Postgres.numbered].
    change (Ascii.eqb "?" "?") with true. cbv iota.
    rewrite (Hn middle (1 + 1)%Z _ Hm).
    change ("?" ++ after) with (String "?" after).
    cbn [Postgres.numbered].
    change (Ascii.eqb "?" "?") with true. cbv iota.
    rewrite (numbered_without_question after _ Ha).
    reflexivity.
  - intros H.
    rewrite transformQuery_total.
    now rewrite (numbered_without_question query 1 H).
Qed.

(** X8.  The upsert statement of the Postgres backend: the insert
    template handed to [pgformat] is over the key columns followed by
    the other columns and has no [VALUES] keyword; the conflict clause
    names the key columns and has one assignment per other column, in
    order, each with a leading space of its own, joined by commas. *)
Theorem Postgres_prepareMultiUpdate_text
    (pgformat : string -> option Interfaces.IValueArray -> string)
    (table : string) (primaryKey columns : list string)
    (values : option Interfaces.IValueArray) :
  Postgres.prepareMultiUpdate pgformat table primaryKey columns values
  = pgformat
      ("INSERT INTO " ++ table ++ " ("
       ++ JS.join "," (primaryKey ++ columns)%list ++ ") %L") values
    ++ " ON CONFLICT (" ++ JS.join "," primaryKey ++ ") DO UPDATE SET "
    ++ JS.join "," (map (fun c => " " ++ c ++ " = excluded." ++ c) columns).
Proof.
  unfold Postgres.prepareMultiUpdate, Postgres.prepareMultiInsert.
  rewrite Postgres_updates_loop, Postgres_insert_template.
  cbn [JS.format JS.format_args Ascii.eqb Bool.eqb fold_right app].
  rewrite append_empty_r.
  repeat (rewrite append_assoc; cbn [append]).
  reflexivity.
Qed.

(** ** The requests of the pooled backends *)

Section MySQLRequests.
Import Interfaces.
Variable P : Type.
Variable pool : MySQL.Pool P.

(** The loop of [transaction] sends the statements in order and stops at
    the first one that is refused. *)
Lemma MySQL_logged_run_queries (queries : list IBulkQuery) :
  forall (m : P) (log : list MySQL.request),
  exists k,
    k <= List.length queries
    /\ MySQL.run_queries (P * list MySQL.request) (MySQL.logged pool)
         (m, log) queries
       = ((fst (MySQL.run_queries P pool m queries),
           (log ++ map MySQL.statement_request (firstn k queries))%list),
          snd (MySQL.run_queries P pool m queries))
    /\ (snd (MySQL.run_queries P pool m queries) = None ->
        k = List.length queries).
Proof.
  induction queries as [|q rest IH]; intros m log.
  - exists 0. cbn. rewrite app_nil_r. auto.
  - cbn [MySQL.run_queries MySQL.logged MySQL.conn_query fst snd].
    destruct (MySQL.conn_query pool m (query q)
                (MySQL.values_or_empty (values q))) as [m' [e|]].
    + exists 1. cbn. repeat split; [lia|discriminate].
    + destruct (IH m' (log ++ [MySQL.statement_request q])%list)
        as (k & Hk & Hrun & Hall).
      exists (S k).
      unfold MySQL.statement_request at 1 in Hrun.
      rewrite Hrun.
      cbn [firstn map List.length].
      rewrite <- app_assoc.
      repeat split; [lia|].
      intros Hs. now rewrite (Hall Hs).
Qed.

Lemma MySQL_logged_catch_finally (m : P) (log : list MySQL.request)
    (e : JS.Error) :
  MySQL.catch_finally (P * list MySQL.request) (MySQL.logged pool) (m, log) e
  = ((fst (MySQL.catch_finally P pool m e),
      (log ++ [MySQL.Rollback; MySQL.Release])%list),
     snd (MySQL.catch_finally P pool m e))
  /\ snd (MySQL.catch_finally P pool m e) <> None.
Proof.
  unfold MySQL.catch_finally.
  cbn [MySQL.logged MySQL.conn_rollback MySQL.conn_release fst snd].
  destruct (MySQL.conn_rollback pool m) as [m' [e'|]];
    cbn [fst snd]; rewrite <- app_assoc; split; try reflexivity; discriminate.
Qed.

End MySQLRequests.


Section PostgresRequests.
Import Interfaces.
Variable P : Type.
Variable pool : Postgres.Pool P.

(** A statement sent with the client of the caller: one request, the
    text with its placeholders numbered, and no release. *)
Lemma Postgres_logged_query_open (m : P) (log : list Postgres.request)
    (text : string) (values : option (list JS.value)) :
  exists m' o,
    Postgres.query P pool m text values true = Some (m', o)
    /\ Postgres.query (P * list Postgres.request) (Postgres.logged pool)
         (m, log) text values true
       = Some ((m', (log ++ [Postgres.Query (Postgres.numbered 1 text)
                               values])%list), o).
Proof.
  unfold Postgres.query.
  rewrite transformQuery_total.
  cbn [Postgres.logged Postgres.client_query fst snd].
  destruct (Postgres.client_query pool m (Postgres.numbered 1 text) values)
    as [m' [e|res]]; eexists _, _; split; reflexivity.
Qed.

Lemma Postgres_logged_run_queries (queries : list IBulkQuery) :
  forall (m : P) (log : list Postgres.request),
  exists k m' r,
    k <= List.length queries
    /\ Postgres.run_queries P pool m queries = Some (m', r)
    /\ Postgres.run_queries (P * list Postgres.request)
         (Postgres.logged pool) (m, log) queries
       = Some ((m', (log ++ map Postgres.statement_request
                               (firstn k queries))%list), r)
    /\ (r = None -> k = List.length queries).
Proof.
  induction queries as [|q rest IH]; intros m log.
  - exists 0, m, None. cbn. rewrite app_nil_r. auto.
  - cbn [Postgres.run_queries].
    destruct (Postgres_logged_query_open m log (query q) (values q))
      as (m' & o & Hq & Hlq).
    rewrite Hq, Hlq.
    destruct o as [res|e].
    + destruct (IH m' (log ++ [Postgres.statement_request q])%list)
        as (k & m'' & r & Hk & Hrun & Hlrun & Hall).
      exists (S k), m'', r.
      unfold Postgres.statement_request at 1 in Hlrun.
      rewrite Hrun, Hlrun.
      cbn [firstn map List.length].
      rewrite <- app_assoc.
      repeat split; [lia|].
      intros Hs. now rewrite (Hall Hs).
    + exists 1, m', (Some e). cbn. repeat split; [lia|discriminate].
Qed.

Lemma Postgres_logged_catch_finally (m : P) (log : list Postgres.request)
    (e : JS.Error) :
  Postgres.catch_finally (P * list Postgres.request) (Postgres.logged pool)
    (m, log) e
  = ((fst (Postgres.catch_finally P pool m e),
      (log ++ [Postgres.Query "ROLLBACK" None; Postgres.Release])%list),
     snd (Postgres.catch_finally P pool m e))
  /\ snd (Postgres.catch_finally P pool m e) <> None.
Proof.
  unfold Postgres.catch_finally.
  cbn [Postgres.logged Postgres.client_query Postgres.client_release fst snd].
  destruct (Postgres.client_query pool m "ROLLBACK" None) as [m' [e'|res]];
    cbn [fst snd]; rewrite <- app_assoc; split; try reflexivity; discriminate.
Qed.

End PostgresRequests.



(** ** Invariants of an SQLite instance *)

(** X12.  The statement of [setPragma]: the option is put in lower
    case first, so its case in the call makes no difference; the
    statement never starts with [select], so [query] appends it to the
    queue of the writes, behind the writes already waiting, and leaves
    the queue of the reads alone. *)
Theorem setPragma_statement (option : string)
    (value : SQLite.pragma_setting) :
  SQLite.setPragma_query (JS.toUpperCase option) value
  = SQLite.setPragma_query option value
  /\ SQLite.setPragma_query (JS.toLowerCase option) value
     = SQLite.setPragma_query option value
  /\ SQLite.has_verb (SQLite.setPragma_query option value) "select" = false
  /\ forall (DB : Type) (s : SQLite.state DB),
       SQLite.m_allQueue (SQLite.setPragma option value s)
       = SQLite.m_allQueue s
       /\ map SQLite.qq_query
            (SQLite.m_runQueue (SQLite.setPragma option value s))
          = (map SQLite.qq_query (SQLite.m_runQueue s)
             ++ [SQLite.setPragma_query option value])%list.
Proof.
  assert (Hv : SQLite.has_verb (SQLite.setPragma_query option value) "select"
               = false).
  { unfold SQLite.setPragma_query, SQLite.has_verb.
    destruct (SQLite.is_function_call (JS.toLowerCase option));
      reflexivity. }
  split; [|split; [|split; [exact Hv|]]].
  - unfold SQLite.setPragma_query.
    now rewrite toLowerCase_toUpperCase.
  - unfold SQLite.setPragma_query.
    now rewrite toLowerCase_idem.
  - intros DB s.
    unfold SQLite.setPragma, SQLite.query.
    rewrite Hv.
    destruct s as [d0 p tq aq rq h c n st sn]; cbn.
    now rewrite map_app.
Qed.

Section InstanceFacts.
Import SQLite.
Variable DB : Type.
Variable driver : Database DB.

Local Abbreviation state := (SQLite.state DB).

(** The timer and the handler. *)
Lemma loop_run_timer (s : state) :
  paused s = true ->
  paused (loop_run s) = busy (handler (loop_run s)).
Proof.
  destruct s as [d0 p tq aq rq h c n st sn]; cbn.
  intros ->.
  unfold loop_run; cbn.
  destruct rq; reflexivity.
Qed.

Lemma loop_all_timer (s : state) :
  paused s = true ->
  paused (loop_all s) = busy (handler (loop_all s)).
Proof.
  intros Hp.
  unfold loop_all.
  destruct (m_allQueue s) eqn:E; [now apply loop_run_timer|].
  destruct s as [d0 p tq aq rq h c n st sn]; cbn in *.
  now subst p.
Qed.

Lemma loop_transactions_timer (s : state) :
  paused s = true ->
  paused (loop_transactions s) = busy (handler (loop_transactions s)).
Proof.
  intros Hp.
  unfold loop_transactions.
  destruct (m_transactionQueue s) eqn:E; [now apply loop_all_timer|].
  destruct s as [d0 p tq aq rq h c n st sn]; cbn in *.
  now subst p.
Qed.

Lemma reply_timer (s : state) :
  paused s = busy (handler s) ->
  paused (reply driver s) = busy (handler (reply driver s)).
Proof.
  intros Hp.
  unfold reply.
  destruct (handler s) as [|t|t q rest|t|t e|q|q|t e] eqn:Hh;
    try (now rewrite Hh); cbn [busy] in Hp.
  - destruct (db_run driver (m_db s) "BEGIN TRANSACTION" None)
      as [d [e|l ch]]; [now destruct s|].
    unfold next_statement. destruct (tq_queries t); now destruct s.
  - destruct (db_run driver (m_db s) (Interfaces.query q)
                (values_or_empty (Interfaces.values q)))
      as [d [e|l ch]]; [now destruct s|].
    unfold next_statement. destruct rest; now destruct s.
  - destruct (db_run driver (m_db s) "COMMIT" None)
      as [d [e|l ch]]; [now destruct s|].
    apply loop_transactions_timer. now destruct s.
  - destruct (db_run driver (m_db s) "ROLLBACK" None)
      as [d [e'|l ch]]; [now destruct s|].
    apply loop_transactions_timer. now destruct s.
  - destruct (db_all driver (m_db s) (qq_query q) (qq_values q))
      as [d [e|rows]]; apply loop_all_timer; now destruct s.
  - destruct (db_run driver (m_db s) (qq_query q) (qq_values q))
      as [d [e|l ch]]; apply loop_run_timer; now destruct s.
Qed.

Lemma step_timer (s : state) (ev : event) :
  paused s = busy (handler s) ->
  paused (step driver s ev) = busy (handler (step driver s ev)).
Proof.
  intros Hp.
  destruct ev as [text values|queries| | | | |]; cbn [step].
  - unfold query. destruct (has_verb text "select"); now destruct s.
  - now destruct s.
  - unfold close, close_poll.
    destruct (closing s); trivial.
    destruct (queues_empty s); now destruct s.
  - unfold tick.
    destruct (paused s) eqn:E; [congruence|].
    apply loop_transactions_timer. now destruct s.
  - now apply reply_timer.
  - unfold wake, close_poll.
    destruct (closing s); trivial.
    destruct (queues_empty s); now destruct s.
  - unfold closed.
    destruct (closing s); trivial.
    destruct (db_close driver (m_db s)) as [d [e|]]; now destruct s.
Qed.

Lemma run_timer (evs : list event) :
  forall s : state,
    paused s = busy (handler s) ->
    paused (run driver evs s) = busy (handler (run driver evs s)).
Proof.
  induction evs as [|ev evs IH]; intros s Hp; [exact Hp|].
  cbn [run fold_left].
  apply IH. now apply step_timer.
Qed.

End InstanceFacts.

(** X13.  At every moment of the life of an instance, whatever is
    called and whatever the connection answers, the timer is paused
    exactly while the handler is between a tick and the end of its
    drain (or has died in it); a tick that arrives meanwhile changes
    nothing, so no second drain starts while one is under way. *)
Theorem timer_paused_while_draining (DB : Type)
    (driver : SQLite.Database DB) (d : DB) (evs : list SQLite.event) :
  let s := SQLite.run driver evs (SQLite.initial d) in
  SQLite.paused s = SQLite.busy (SQLite.handler s)
  /\ (SQLite.handler s <> SQLite.Idle -> SQLite.step driver s SQLite.Tick = s).
Proof.
  cbn zeta.
  assert (H : SQLite.paused (SQLite.run driver evs (SQLite.initial d))
              = SQLite.busy
                  (SQLite.handler (SQLite.run driver evs (SQLite.initial d)))).
  { apply run_timer. reflexivity. }
  split; [exact H|].
  intros Hbusy.
  cbn [SQLite.step]. unfold SQLite.tick.
  rewrite H.
  destruct (SQLite.handler (SQLite.run driver evs (SQLite.initial d)));
    [now elim Hbusy|reflexivity..].
Qed.

Section AccountFacts.
Import SQLite.
Variable DB : Type.
Variable driver : Database DB.

Local Abbreviation state := (SQLite.state DB).

(** Counting the occurrences of a promise in the lists of a state. *)
Ltac count_promises :=
  repeat (progress (rewrite ?map_app, ?count_occ_app;
                    cbn [count_occ map fst List.length app]));
  repeat match goal with
         | |- context [Nat.eq_dec ?a ?b] => destruct (Nat.eq_dec a b)
         | H : context [Nat.eq_dec ?a ?b] |- _ => destruct (Nat.eq_dec a b)
         end;
  repeat match goal with
         | |- context [(?a <? ?b)%nat] => destruct (Nat.ltb_spec a b)
         | H : context [(?a <? ?b)%nat] |- _ => destruct (Nat.ltb_spec a b)
         end;
  cbn [qq_callback tq_callback fst] in *;
  try lia.

Ltac open_state s :=
  destruct s as [d0 pz tq aq rq h c n st sn];
  unfold left_over, waiting, queued, settled_order in *;
  cbn -[Nat.ltb count_occ] in *.

Lemma loop_run_accounted (s : state) :
  left_over s -> accounted (loop_run s).
Proof.
  intros H p. specialize (H p).
  unfold loop_run.
  destruct (m_runQueue s) as [|q rest] eqn:E; open_state s; subst rq;
    revert H; count_promises.
Qed.

Lemma loop_all_accounted (s : state) :
  left_over s -> accounted (loop_all s).
Proof.
  intros H.
  unfold loop_all.
  destruct (m_allQueue s) as [|q rest] eqn:E;
    [now apply loop_run_accounted|].
  intros p. specialize (H p).
  open_state s. subst aq.
  revert H. count_promises.
Qed.

Lemma loop_transactions_accounted (s : state) :
  left_over s -> accounted (loop_transactions s).
Proof.
  intros H.
  unfold loop_transactions.
  destruct (m_transactionQueue s) as [|t rest] eqn:E;
    [now apply loop_all_accounted|].
  intros p. specialize (H p).
  open_state s. subst tq.
  revert H. count_promises.
Qed.

(** Settling the promise in flight leaves the count as it is. *)
Lemma settle_left_over (s : state) (cb : promise) (o : outcome) (d : DB) :
  in_flight (handler s) = [cb] ->
  accounted s -> left_over (settle cb o (set_db d s)).
Proof.
  intros Hf H p. specialize (H p).
  unfold waiting in H. rewrite Hf in H.
  open_state s.
  revert H. count_promises.
Qed.

(** The handler goes on with the transaction in flight. *)
Lemma same_flight (s s' : state) :
  in_flight (handler s') = in_flight (handler s) ->
  settled s' = settled s -> promises s' = promises s ->
  m_transactionQueue s' = m_transactionQueue s ->
  m_allQueue s' = m_allQueue s -> m_runQueue s' = m_runQueue s ->
  accounted s -> accounted s'.
Proof.
  intros Hf Hs Hn Ht Ha Hr H p. specialize (H p).
  unfold waiting, queued, settled_order in *.
  now rewrite Hf, Hs, Hn, Ht, Ha, Hr.
Qed.

Lemma reply_accounted (s : state) :
  accounted s -> accounted (reply driver s).
Proof.
  intros H.
  unfold reply.
  destruct (handler s) as [|t|t q rest|t|t e|q|q|t e] eqn:Hh; trivial.
  - destruct (db_run driver (m_db s) "BEGIN TRANSACTION" None)
      as [d [e|l ch]].
    + apply (same_flight s); trivial; rewrite ?Hh; now destruct s.
    + unfold next_statement.
      destruct (tq_queries t);
        (apply (same_flight s); trivial; rewrite ?Hh; now destruct s).
  - destruct (db_run driver (m_db s) (Interfaces.query q)
                (values_or_empty (Interfaces.values q)))
      as [d [e|l ch]].
    + apply (same_flight s); trivial; rewrite ?Hh; now destruct s.
    + unfold next_statement.
      destruct rest;
        (apply (same_flight s); trivial; rewrite ?Hh; now destruct s).
  - destruct (db_run driver (m_db s) "COMMIT" None) as [d [e|l ch]].
    + apply (same_flight s); trivial; rewrite ?Hh; now destruct s.
    + apply loop_transactions_accounted, settle_left_over; trivial.
      now rewrite Hh.
  - destruct (db_run driver (m_db s) "ROLLBACK" None) as [d [e'|l ch]].
    + apply (same_flight s); trivial; rewrite ?Hh; now destruct s.
    + apply loop_transactions_accounted, settle_left_over; trivial.
      now rewrite Hh.
  - destruct (db_all driver (m_db s) (qq_query q) (qq_values q))
      as [d [e|rows]];
      apply loop_all_accounted, settle_left_over; trivial;
      now rewrite Hh.
  - destruct (db_run driver (m_db s) (qq_query q) (qq_values q))
      as [d [e|l ch]];
      apply loop_run_accounted, settle_left_over; trivial;
      now rewrite Hh.
Qed.

Lemma step_accounted (s : state) (ev : event) :
  paused s = busy (handler s) ->
  accounted s -> accounted (step driver s ev).
Proof.
  intros Hp H.
  destruct ev as [text values|queries| | | | |]; cbn [step].
  - intros p. specialize (H p).
    unfold query.
    destruct (has_verb text "select"); open_state s;
      revert H; count_promises.
  - intros p. specialize (H p).
    open_state s.
    revert H. count_promises.
  - unfold close, close_poll.
    destruct (closing s); trivial.
    destruct (queues_empty s);
      (apply (same_flight s); trivial; now destruct s).
  - unfold tick.
    destruct (paused s) eqn:E; [exact H|].
    apply loop_transactions_accounted.
    intros p. specialize (H p).
    unfold waiting in H.
    destruct (handler s); try discriminate Hp.
    open_state s. exact H.
  - now apply reply_accounted.
  - unfold wake, close_poll.
    destruct (closing s); trivial.
    destruct (queues_empty s);
      (apply (same_flight s); trivial; now destruct s).
  - unfold closed.
    destruct (closing s); trivial.
    destruct (db_close driver (m_db s)) as [d [e|]];
      (apply (same_flight s); trivial; now destruct s).
Qed.

Lemma run_accounted (evs : list event) :
  forall s : state,
    paused s = busy (handler s) -> accounted s ->
    accounted (run driver evs s).
Proof.
  induction evs as [|ev evs IH]; intros s Hp H; [exact H|].
  cbn [run fold_left].
  apply IH; [now apply step_timer|now apply step_accounted].
Qed.

Lemma initial_accounted (d : DB) : accounted (initial d).
Proof.
  intros p. reflexivity.
Qed.

(** An accounted state holds every promise once, and no other. *)
Lemma accounted_NoDup (s : state) :
  accounted s -> NoDup (settled_order s ++ waiting s)%list.
Proof.
  intros H.
  apply (NoDup_count_occ Nat.eq_dec).
  intros p. rewrite (H p).
  destruct (p <? promises s)%nat; lia.
Qed.

Lemma accounted_In (s : state) (p : promise) :
  accounted s ->
  (In p (settled_order s ++ waiting s)%list <-> p < promises s).
Proof.
  intros H.
  rewrite (count_occ_In Nat.eq_dec), (H p).
  destruct (Nat.ltb_spec p (promises s)); lia.
Qed.

End AccountFacts.

(** X14.  At every moment of the life of an instance, whatever is
    called and whatever the connection answers, every promise handed
    out so far is exactly once among the settled promises, the promise
    in flight and the promises in the three queues, and nothing else is
    there: no promise is settled twice, none is settled while it still
    waits, and none is dropped (the promise of a handler that has died
    stays in flight for ever). *)
Theorem promises_accounted_once (DB : Type) (driver : SQLite.Database DB)
    (d : DB) (evs : list SQLite.event) :
  let s := SQLite.run driver evs (SQLite.initial d) in
  NoDup (SQLite.settled_order s ++ SQLite.waiting s)%list
  /\ forall p : SQLite.promise,
       In p (SQLite.settled_order s ++ SQLite.waiting s)%list
       <-> p < SQLite.promises s.
Proof.
  cbn zeta.
  assert (H : SQLite.accounted (SQLite.run driver evs (SQLite.initial d))).
  { apply run_accounted; [reflexivity|apply initial_accounted]. }
  split; [now apply accounted_NoDup|].
  intros p. now apply accounted_In.
Qed.

Section AnswerFacts.
Import SQLite.
Variable DB : Type.
Variable driver : Database DB.

Local Abbreviation state := (SQLite.state DB).

Lemma answers_transaction (call : event) (e : JS.Error) :
  is_transaction call = true ->
  answers call (JS.Resolved None) /\ answers call (JS.Rejected e).
Proof.
  destruct call; try discriminate. intros _. now split.
Qed.

Lemma answers_read (call : event) (rows : list JS.object) (e : JS.Error) :
  is_read call = true ->
  answers call (JS.Resolved (Some (all_result rows)))
  /\ answers call (JS.Rejected e).
Proof.
  destruct call as [text values| | | | | |]; try discriminate.
  cbn [is_read answers]. intros ->.
  split; [now exists rows|exact I].
Qed.

Lemma answers_write (call : event) (q : IQueryQueueEntry)
    (lastID changes : Z) (e : JS.Error) :
  is_write call = true /\ (exists values, call = CallQuery (qq_query q) values) ->
  answers call
    (JS.Resolved (Some (run_result (qq_query q) lastID changes)))
  /\ answers call (JS.Rejected e).
Proof.
  intros [Hw [values ->]].
  cbn [is_write answers] in *.
  apply negb_true_iff in Hw. rewrite Hw.
  split; [now exists lastID, changes|exact I].
Qed.

Ltac forall_split :=
  rewrite ?Forall_app, ?Forall_cons_iff, ?Forall_nil_iff in *.

Ltac open_belongs s :=
  destruct s as [d0 pz tq aq rq h c n st sn];
  unfold belongs in *;
  cbn [m_db paused m_transactionQueue m_allQueue m_runQueue handler
       closing promises settled sent set_db set_paused
       set_transactionQueue set_allQueue set_runQueue set_handler
       set_closing new_promise settle send shifted_transaction
       shifted_read shifted_write app] in *.

Lemma loop_run_belongs (p : promise) (call : event) (s : state) :
  belongs p call (set_handler Idle s) -> belongs p call (loop_run s).
Proof.
  intros H.
  unfold loop_run.
  destruct (m_runQueue s) as [|q rest] eqn:E; open_belongs s; subst rq;
    forall_split; tauto.
Qed.

Lemma loop_all_belongs (p : promise) (call : event) (s : state) :
  belongs p call (set_handler Idle s) -> belongs p call (loop_all s).
Proof.
  intros H.
  unfold loop_all.
  destruct (m_allQueue s) as [|q rest] eqn:E;
    [now apply loop_run_belongs|].
  open_belongs s. subst aq.
  forall_split. tauto.
Qed.

Lemma loop_transactions_belongs (p : promise) (call : event) (s : state) :
  belongs p call (set_handler Idle s) ->
  belongs p call (loop_transactions s).
Proof.
  intros H.
  unfold loop_transactions.
  destruct (m_transactionQueue s) as [|t rest] eqn:E;
    [now apply loop_all_belongs|].
  open_belongs s. subst tq.
  forall_split. tauto.
Qed.

(** The transaction in flight goes on or is settled. *)
Lemma transaction_goes_on (p : promise) (call : event) (s s' : state)
    (t : ITransactionQueueEntry) :
  shifted_transaction (handler s) = [t] ->
  shifted_transaction (handler s') = [t] ->
  shifted_read (handler s') = [] -> shifted_write (handler s') = [] ->
  settled s' = settled s -> promises s' = promises s ->
  m_transactionQueue s' = m_transactionQueue s ->
  m_allQueue s' = m_allQueue s -> m_runQueue s' = m_runQueue s ->
  belongs p call s -> belongs p call s'.
Proof.
  intros Hf Hf' Hr' Hw' Hs Hn Ht Ha Hr H.
  unfold belongs in *.
  rewrite Hf', Hr', Hw', Hs, Hn, Ht, Ha, Hr.
  rewrite Hf in H.
  forall_split. cbn [app]. tauto.
Qed.

Lemma transaction_settled (p : promise) (call : event) (s : state)
    (t : ITransactionQueueEntry) (o : outcome) (d : DB) :
  shifted_transaction (handler s) = [t] ->
  (is_transaction call = true -> answers call o) ->
  belongs p call s ->
  belongs p call (set_handler Idle (settle (tq_callback t) o (set_db d s))).
Proof.
  intros Hf Ho H.
  open_belongs s. rewrite Hf in H.
  forall_split. cbn [fst snd]. tauto.
Qed.

Lemma read_settled (p : promise) (call : event) (s : state)
    (q : IQueryQueueEntry) (o : outcome) (d : DB) :
  handler s = AwaitAll q ->
  (is_read call = true -> answers call o) ->
  belongs p call s ->
  belongs p call (set_handler Idle (settle (qq_callback q) o (set_db d s))).
Proof.
  intros Hf Ho H.
  open_belongs s. subst h.
  cbn [shifted_transaction shifted_read shifted_write app] in H.
  forall_split. cbn [fst snd]. tauto.
Qed.

Lemma write_settled (p : promise) (call : event) (s : state)
    (q : IQueryQueueEntry) (o : outcome) (d : DB) :
  handler s = AwaitRun q ->
  (is_write call = true /\ (exists values, call = CallQuery (qq_query q) values) ->
   answers call o) ->
  belongs p call s ->
  belongs p call (set_handler Idle (settle (qq_callback q) o (set_db d s))).
Proof.
  intros Hf Ho H.
  open_belongs s. subst h.
  cbn [shifted_transaction shifted_read shifted_write app] in H.
  forall_split. cbn [fst snd]. tauto.
Qed.

Lemma reply_belongs (p : promise) (call : event) (s : state) :
  belongs p call s -> belongs p call (reply driver s).
Proof.
  intros H.
  unfold reply.
  destruct (handler s) as [|t|t q rest|t|t e|q|q|t e] eqn:Hh; trivial.
  - destruct (db_run driver (m_db s) "BEGIN TRANSACTION" None)
      as [d [e|l ch]].
    + apply (transaction_goes_on p call s _ t); trivial;
        rewrite ?Hh; now destruct s.
    + unfold next_statement.
      destruct (tq_queries t);
        (apply (transaction_goes_on p call s _ t); trivial;
         rewrite ?Hh; now destruct s).
  - destruct (db_run driver (m_db s) (Interfaces.query q)
                (values_or_empty (Interfaces.values q)))
      as [d [e|l ch]].
    + apply (transaction_goes_on p call s _ t); trivial;
        rewrite ?Hh; now destruct s.
    + unfold next_statement.
      destruct rest;
        (apply (transaction_goes_on p call s _ t); trivial;
         rewrite ?Hh; now destruct s).
  - destruct (db_run driver (m_db s) "COMMIT" None) as [d [e|l ch]].
    + apply (transaction_goes_on p call s _ t); trivial;
        rewrite ?Hh; now destruct s.
    + apply loop_transactions_belongs, transaction_settled; trivial.
      * now rewrite Hh.
      * intros Ht. apply (answers_transaction call (JS.TypeError "") Ht).
  - destruct (db_run driver (m_db s) "ROLLBACK" None) as [d [e'|l ch]].
    + apply (transaction_goes_on p call s _ t); trivial;
        rewrite ?Hh; now destruct s.
    + apply loop_transactions_belongs, transaction_settled; trivial.
      * now rewrite Hh.
      * intros Ht. apply (answers_transaction call e Ht).
  - destruct (db_all driver (m_db s) (qq_query q) (qq_values q))
      as [d [e|rows]];
      apply loop_all_belongs, read_settled; trivial; intros Hr.
    + apply (answers_read call [] e Hr).
    + apply (answers_read call rows (JS.TypeError "") Hr).
  - destruct (db_run driver (m_db s) (qq_query q) (qq_values q))
      as [d [e|l ch]];
      apply loop_run_belongs, write_settled; trivial; intros Hw.
    + apply (answers_write call q 0 0 e Hw).
    + apply (answers_write call q l ch (JS.TypeError "") Hw).
Qed.

(** The handler is not replaced. *)
Lemma same_handler_belongs (p : promise) (call : event) (s s' : state) :
  handler s' = handler s ->
  settled s' = settled s -> promises s' = promises s ->
  m_transactionQueue s' = m_transactionQueue s ->
  m_allQueue s' = m_allQueue s -> m_runQueue s' = m_runQueue s ->
  belongs p call s -> belongs p call s'.
Proof.
  intros Hh Hs Hn Ht Ha Hr H.
  unfold belongs in *.
  now rewrite Hh, Hs, Hn, Ht, Ha, Hr.
Qed.

Lemma step_belongs (p : promise) (call : event) (s : state) (ev : event) :
  paused s = busy (handler s) ->
  belongs p call s -> belongs p call (step driver s ev).
Proof.
  intros Hp H.
  destruct ev as [text values|queries| | | | |]; cbn [step].
  - unfold query.
    destruct (has_verb text "select"); open_belongs s;
      forall_split; cbn [qq_callback];
      intuition (try lia).
  - unfold transaction. open_belongs s.
    forall_split. cbn [tq_callback].
    intuition (try lia).
  - unfold close, close_poll.
    destruct (closing s); trivial.
    destruct (queues_empty s);
      (apply (same_handler_belongs p call s); trivial; now destruct s).
  - unfold tick.
    destruct (paused s) eqn:E; [exact H|].
    apply loop_transactions_belongs.
    destruct (handler s) eqn:Hh; try discriminate Hp.
    apply (same_handler_belongs p call s); trivial; now destruct s.
  - now apply reply_belongs.
  - unfold wake, close_poll.
    destruct (closing s); trivial.
    destruct (queues_empty s);
      (apply (same_handler_belongs p call s); trivial; now destruct s).
  - unfold closed.
    destruct (closing s); trivial.
    destruct (db_close driver (m_db s)) as [d [e|]];
      (apply (same_handler_belongs p call s); trivial; now destruct s).
Qed.

Lemma run_belongs (p : promise) (call : event) (evs : list event) :
  forall s : state,
    paused s = busy (handler s) ->
    belongs p call s -> belongs p call (run driver evs s).
Proof.
  induction evs as [|ev evs IH]; intros s Hp H; [exact H|].
  cbn [run fold_left].
  apply IH; [now apply step_timer|now apply step_belongs].
Qed.

(** A promise that occurs nowhere satisfies every condition on the
    entries that carry it. *)
Lemma absent_Forall (A : Type) (f : A -> promise) (p : promise)
    (Q : A -> Prop) (l : list A) :
  ~ In p (map f l) -> Forall (fun x => f x = p -> Q x) l.
Proof.
  intros Hn.
  apply Forall_forall.
  intros x Hx Hf.
  elim Hn. rewrite <- Hf. now apply in_map.
Qed.

Lemma in_flight_shifted (h : handler_state) :
  in_flight h
  = (map tq_callback (shifted_transaction h)
     ++ map qq_callback (shifted_read h)
     ++ map qq_callback (shifted_write h))%list.
Proof.
  now destruct h.
Qed.

(** The promise a call receives belongs to it. *)
Lemma submission_belongs (call : event) (s : state) :
  accounted s -> is_submission call = true ->
  belongs (promises s) call (step driver s call).
Proof.
  intros Hacc Hsub.
  pose proof (proj1 (accounted_In DB s (promises s) Hacc)) as Hfresh.
  assert (Hn : ~ In (promises s) (settled_order s ++ waiting s)%list).
  { intros Hin. specialize (Hfresh Hin). lia. }
  clear Hfresh.
  unfold waiting, queued, settled_order in Hn.
  rewrite in_flight_shifted in Hn.
  rewrite !in_app_iff in Hn.
  assert (H1 : Forall (fun po => fst po = promises s -> answers call (snd po))
                 (settled s)).
  { apply absent_Forall. tauto. }
  assert (H2 : forall Q,
            Forall (fun t => tq_callback t = promises s -> Q t)
              (shifted_transaction (handler s) ++ m_transactionQueue s)%list).
  { intros Q. apply absent_Forall. rewrite map_app, in_app_iff. tauto. }
  assert (H3 : forall Q,
            Forall (fun q => qq_callback q = promises s -> Q q)
              (shifted_read (handler s) ++ m_allQueue s)%list).
  { intros Q. apply absent_Forall. rewrite map_app, in_app_iff. tauto. }
  assert (H4 : forall Q,
            Forall (fun q => qq_callback q = promises s -> Q q)
              (shifted_write (handler s) ++ m_runQueue s)%list).
  { intros Q. apply absent_Forall. rewrite map_app, in_app_iff. tauto. }
  clear Hn Hacc.
  destruct call as [text values|queries| | | | |]; try discriminate Hsub;
    cbn [step].
  - unfold query.
    destruct (has_verb text "select") eqn:Hv.
    + specialize (H2 (fun _ => is_transaction (CallQuery text values) = true)).
      specialize (H3 (fun _ => is_read (CallQuery text values) = true)).
      specialize
        (H4 (fun q =>
               is_write (CallQuery text values) = true
               /\ exists values0,
                    CallQuery text values = CallQuery (qq_query q) values0)).
      open_belongs s.
      forall_split. cbn [qq_callback].
      intuition (try lia).
    + specialize (H2 (fun _ => is_transaction (CallQuery text values) = true)).
      specialize (H3 (fun _ => is_read (CallQuery text values) = true)).
      specialize
        (H4 (fun q =>
               is_write (CallQuery text values) = true
               /\ exists values0,
                    CallQuery text values = CallQuery (qq_query q) values0)).
      open_belongs s.
      forall_split. cbn [qq_callback qq_query].
      intuition (try lia).
      * cbn [is_write]. now rewrite Hv.
      * now exists values.
  - specialize (H2 (fun _ => is_transaction (CallTransaction queries) = true)).
    specialize (H3 (fun _ => is_read (CallTransaction queries) = true)).
    specialize
      (H4 (fun q =>
             is_write (CallTransaction queries) = true
             /\ exists values0,
                  CallTransaction queries = CallQuery (qq_query q) values0)).
    unfold transaction.
    open_belongs s.
    forall_split. cbn [tq_callback].
    intuition (try lia).
Qed.

(** The promise of a call is settled as the call says, whatever happens
    before and after the call. *)
Lemma settled_as_called (d : DB) (evs1 evs2 : list event) (call : event)
    (o : outcome) :
  is_submission call = true ->
  In (promises (run driver evs1 (initial d)), o)
     (settled (run driver (evs1 ++ call :: evs2)%list (initial d))) ->
  answers call o.
Proof.
  intros Hsub Hin.
  set (s1 := run driver evs1 (initial d)) in *.
  assert (Hp1 : paused s1 = busy (handler s1)).
  { apply run_timer. reflexivity. }
  assert (Hacc : accounted s1).
  { apply run_accounted; [reflexivity|apply initial_accounted]. }
  rewrite run_app in Hin. fold s1 in Hin.
  cbn [run fold_left] in Hin.
  change (fold_left (step driver) evs2 (step driver s1 call))
    with (run driver evs2 (step driver s1 call)) in Hin.
  pose proof (run_belongs (promises s1) call evs2 (step driver s1 call)
                (step_timer DB driver s1 call Hp1)
                (submission_belongs call s1 Hacc Hsub)) as Hb.
  destruct Hb as (_ & _ & _ & _ & Hs).
  rewrite Forall_forall in Hs.
  exact (Hs _ Hin eq_refl).
Qed.

End AnswerFacts.



(** X16.  On an instance with the queues, [getPragma] never resolves:
    its statement goes through [run], so whenever the promise of its
    query is settled, at any moment of the life of the instance, the
    promise of [getPragma] is rejected, with the error of the
    connection or with the [TypeError] of reading [rows[0]] of an empty
    list. *)
Theorem getPragma_never_resolves (DB : Type) (driver : SQLite.Database DB)
    (d : DB) (evs1 evs2 : list SQLite.event) (option : string)
    (o : SQLite.outcome) :
  In (SQLite.promises (SQLite.run driver evs1 (SQLite.initial d)), o)
     (SQLite.settled
        (SQLite.run driver
           (evs1 ++ SQLite.CallQuery (SQLite.pragma_query option) None
                 :: evs2)%list
           (SQLite.initial d))) ->
  exists e, SQLite.getPragma_settled option o = JS.Rejected e.
Proof.
  intros Hin.
  pose proof (settled_as_called DB driver d evs1 evs2
                (SQLite.CallQuery (SQLite.pragma_query option) None) o
                eq_refl Hin) as Ha.
  cbn [SQLite.answers] in Ha.
  destruct o as [[result|]|e]; [|contradiction|now exists e].
  rewrite (proj1 (pragma_query_verbs option)) in Ha.
  destruct Ha as (lastID & changes & ->).
  cbn [SQLite.getPragma_settled].
  destruct (getPragma_after_run option lastID changes) as [message Hm].
  rewrite Hm. now eexists.
Qed.

Lemma getPragma_never_resolves_foreign_keys :
  let o := JS.Resolved (Some (0%Z, [])) in
  In (0, o)
     (SQLite.settled
        (SQLite.run Examples.accepting
           ([] ++ SQLite.CallQuery (SQLite.pragma_query "foreign_keys") None
               :: [SQLite.Tick; SQLite.Reply])%list
           (SQLite.initial tt)))
  /\ exists e, SQLite.getPragma_settled "foreign_keys" o = JS.Rejected e.
Proof.
  cbv zeta.
  assert (H : In (0, JS.Resolved (Some (0%Z, [])))
                (SQLite.settled
                   (SQLite.run Examples.accepting
                      ([] ++ SQLite.CallQuery
                               (SQLite.pragma_query "foreign_keys") None
                          :: [SQLite.Tick; SQLite.Reply])%list
                      (SQLite.initial tt))))
    by (left; reflexivity).
  split; [exact H|].
  exact (getPragma_never_resolves unit Examples.accepting tt []
           [SQLite.Tick; SQLite.Reply] "foreign_keys"
           (JS.Resolved (Some (0%Z, []))) H).
Defined.

(** ** One transaction on the SQLite connection *)

Section TransactionFacts.
Import SQLite.
Variable DB : Type.
Variable driver : Database DB.

Local Abbreviation state := (SQLite.state DB).

Lemma advanced_refl (s : state) : advanced s (m_db s) [] s.
Proof.
  unfold advanced. rewrite app_nil_r. repeat split.
Qed.

(** The statements of a transaction, answer by answer: the handler
    reaches the [COMMIT] when all are accepted, the [catch] block at the
    first one that is refused. *)
Lemma next_statement_runs (t : ITransactionQueueEntry)
    (queries : list Interfaces.IBulkQuery) :
  forall (s0 : state) (d1 : DB) (l : list string) (r : option JS.Error),
    statements driver (m_db s0) queries = (d1, l, r) ->
    (exists k, l = firstn k (map Interfaces.query queries))
    /\ exists s1,
         advanced s0 d1 l s1
         /\ match r with
            | None =>
                l = map Interfaces.query queries
                /\ run driver (repeat Reply (List.length l))
                     (next_statement t queries s0)
                   = next_statement t [] s1
            | Some e =>
                run driver (repeat Reply (List.length l))
                  (next_statement t queries s0)
                = catch_transaction t e s1
            end.
Proof.
  induction queries as [|q rest IH]; intros s0 d1 l r H.
  - cbn in H. injection H as <- <- <-.
    split; [now exists 0|].
    exists s0. split; [apply advanced_refl|]. now split.
  - cbn [statements] in H.
    destruct (db_run driver (m_db s0) (Interfaces.query q)
                (values_or_empty (Interfaces.values q)))
      as [d' [e|lastID changes]] eqn:Hq.
    + injection H as <- <- <-.
      split; [now exists 1|].
      exists (set_db d' (send (Interfaces.query q) s0)).
      split; [unfold advanced; now destruct s0|].
      cbn [List.length repeat run fold_left step next_statement].
      unfold reply.
      replace (handler (set_handler (AwaitQuery t q rest)
                          (send (Interfaces.query q) s0)))
        with (AwaitQuery t q rest) by now destruct s0.
      replace (m_db (set_handler (AwaitQuery t q rest)
                       (send (Interfaces.query q) s0)))
        with (m_db s0) by now destruct s0.
      rewrite Hq.
      unfold catch_transaction. now destruct s0.
    + destruct (statements driver d' rest) as [[d'' l'] r'] eqn:Hrest.
      injection H as <- <- <-.
      destruct (IH (set_db d' (send (Interfaces.query q) s0)) d'' l' r')
        as ([k Hk] & s1 & Hadv & Hrun).
      { replace (m_db (set_db d' (send (Interfaces.query q) s0))) with d'
          by now destruct s0.
        exact Hrest. }
      split; [exists (S k); cbn [map firstn]; now rewrite Hk|].
      exists s1.
      split.
      { unfold advanced in *.
        destruct Hadv as (H1 & H2 & H3 & H4 & H5 & H6 & H7 & H8 & H9).
        rewrite H1, H2, H3, H4, H5, H6, H7, H8, H9.
        destruct s0; cbn. rewrite <- app_assoc. repeat split. }
      assert (Hstep :
        reply driver (next_statement t (q :: rest) s0)
        = next_statement t rest (set_db d' (send (Interfaces.query q) s0))).
      { cbn [next_statement].
        unfold reply.
        replace (handler (set_handler (AwaitQuery t q rest)
                            (send (Interfaces.query q) s0)))
          with (AwaitQuery t q rest) by now destruct s0.
        replace (m_db (set_handler (AwaitQuery t q rest)
                         (send (Interfaces.query q) s0)))
          with (m_db s0) by now destruct s0.
        rewrite Hq.
        unfold next_statement.
        destruct rest; now destruct s0. }
      cbn [List.length repeat run fold_left step].
      rewrite Hstep.
      destruct r' as [e|].
      * exact Hrun.
      * destruct Hrun as [Hl Hrun].
        split; [cbn [map]; now rewrite Hl|exact Hrun].
Qed.

Lemma firstn_prefix_app (A : Type) (k : nat) (a b : list A) :
  exists k', firstn k a = firstn k' (a ++ b)%list.
Proof.
  revert k.
  induction a as [|x a IH]; intros k.
  - exists 0. now destruct k.
  - destruct k as [|k]; [now exists 0|].
    destruct (IH k) as [k' Hk'].
    exists (S k'). cbn [firstn app]. now rewrite Hk'.
Qed.

Lemma repeat_succ (n : nat) :
  repeat Reply (S n) = (repeat Reply n ++ [Reply])%list.
Proof.
  induction n as [|n IH]; [reflexivity|].
  cbn [repeat app] in *. now rewrite <- IH.
Qed.

(** The [catch] block when the connection accepts the [ROLLBACK]. *)
Lemma catch_transaction_rejects (t : ITransactionQueueEntry) (e : JS.Error)
    (s s1 : state) (d1 d2 : DB) (l : list string) (lastID changes : Z) :
  advanced s d1 l s1 ->
  db_run driver d1 "ROLLBACK" None = (d2, RunDone lastID changes) ->
  exists s2,
    advanced s d2 (l ++ ["ROLLBACK"])%list s2
    /\ reply driver (catch_transaction t e s1)
       = loop_transactions (settle (tq_callback t) (JS.Rejected e) s2).
Proof.
  intros Hadv Hrb.
  exists (set_db d2 (send "ROLLBACK" s1)).
  split.
  - unfold advanced in *.
    destruct Hadv as (H1 & H2 & H3 & H4 & H5 & H6 & H7 & H8 & H9).
    destruct s1; cbn in *. subst.
    rewrite <- app_assoc. repeat split.
  - unfold reply, catch_transaction.
    replace (handler (set_handler (AwaitRollback t e) (send "ROLLBACK" s1)))
      with (AwaitRollback t e) by now destruct s1.
    replace (m_db (set_handler (AwaitRollback t e) (send "ROLLBACK" s1)))
      with d1 by (destruct Hadv as [<- _]; now destruct s1).
    rewrite Hrb.
    now destruct s1.
Qed.

End TransactionFacts.

(** X17.  One transaction, from the moment the handler has shifted it
    and sent [BEGIN TRANSACTION].  The connection receives the
    statements in order, each with the empty list when it has no
    values, then [COMMIT], and nothing of it after the first request
    that is refused.  When all are accepted the promise is resolved by
    the answer to the [COMMIT] and the handler goes on with the queues;
    when one is refused and the connection accepts the [ROLLBACK], the
    promise is rejected with the error of the refused request, by the
    answer to the [ROLLBACK], and the handler goes on with the queues;
    meanwhile the queues are as they were. *)
Theorem transaction_runs_to_commit_or_rollback (DB : Type)
    (driver : SQLite.Database DB) (s : SQLite.state DB)
    (t : SQLite.ITransactionQueueEntry) (d1 : DB) (l : list string)
    (r : option JS.Error) :
  SQLite.handler s = SQLite.AwaitBegin t ->
  SQLite.try_block driver (SQLite.m_db s) t = (d1, l, r) ->
  (exists k,
     l = firstn k
           (map Interfaces.query (SQLite.tq_queries t) ++ ["COMMIT"])%list)
  /\ match r with
     | None =>
         l = (map Interfaces.query (SQLite.tq_queries t) ++ ["COMMIT"])%list
         /\ exists s1,
              SQLite.advanced s d1 l s1
              /\ SQLite.run driver (repeat SQLite.Reply (S (List.length l))) s
                 = SQLite.loop_transactions
                     (SQLite.settle (SQLite.tq_callback t)
                        (JS.Resolved None) s1)
     | Some e =>
         forall d2 lastID changes,
           SQLite.db_run driver d1 "ROLLBACK" None
           = (d2, SQLite.RunDone lastID changes) ->
           exists s1,
             SQLite.advanced s d2 (l ++ ["ROLLBACK"])%list s1
             /\ SQLite.run driver
                  (repeat SQLite.Reply (S (S (List.length l)))) s
                = SQLite.loop_transactions
                    (SQLite.settle (SQLite.tq_callback t)
                       (JS.Rejected e) s1)
     end.
Proof.
  intros Hh Htry.
  unfold SQLite.try_block in Htry.
  destruct (SQLite.db_run driver (SQLite.m_db s) "BEGIN TRANSACTION" None)
    as [d0 [e|lastID0 changes0]] eqn:Hb.
  - injection Htry as <- <- <-.
    split; [now exists 0|].
    intros d2 lastID changes Hrb.
    destruct (catch_transaction_rejects DB driver t e s
                (SQLite.set_db d0 s) d0 d2 [] lastID changes)
      as (s2 & Hadv & Hrun); trivial.
    { unfold SQLite.advanced. rewrite app_nil_r. now destruct s. }
    exists s2. split; [exact Hadv|].
    cbn [List.length repeat SQLite.run fold_left SQLite.step].
    rewrite <- Hrun.
    f_equal.
    unfold SQLite.reply. now rewrite Hh, Hb.
  - assert (Hfirst :
      SQLite.reply driver s
      = SQLite.next_statement t (SQLite.tq_queries t) (SQLite.set_db d0 s)).
    { unfold SQLite.reply. now rewrite Hh, Hb. }
    destruct (SQLite.statements driver d0 (SQLite.tq_queries t))
      as [[d1' l'] r'] eqn:Hst.
    destruct (next_statement_runs DB driver t (SQLite.tq_queries t)
                (SQLite.set_db d0 s) d1' l' r')
      as ([k Hk] & s1 & Hadv & Hrun).
    { replace (SQLite.m_db (SQLite.set_db d0 s)) with d0 by now destruct s.
      exact Hst. }
    assert (Hadv' : SQLite.advanced s d1' l' s1).
    { unfold SQLite.advanced in *.
      destruct Hadv as (H1 & H2 & H3 & H4 & H5 & H6 & H7 & H8 & H9).
      rewrite H1, H2, H3, H4, H5, H6, H7, H8, H9.
      now destruct s. }
    destruct r' as [e|].
    + injection Htry as <- <- <-.
      split.
      { rewrite Hk. apply firstn_prefix_app. }
      intros d2 lastID changes Hrb.
      destruct (catch_transaction_rejects DB driver t e s s1 d1' d2 l'
                  lastID changes Hadv' Hrb)
        as (s2 & Hadv2 & Hrun2).
      exists s2. split; [exact Hadv2|].
      rewrite repeat_succ, run_app.
      cbn [repeat SQLite.run fold_left SQLite.step] in *.
      rewrite Hfirst.
      change (fold_left (SQLite.step driver) (repeat SQLite.Reply (List.length l'))
                (SQLite.next_statement t (SQLite.tq_queries t)
                   (SQLite.set_db d0 s)))
        with (SQLite.run driver (repeat SQLite.Reply (List.length l'))
                (SQLite.next_statement t (SQLite.tq_queries t)
                   (SQLite.set_db d0 s))).
      rewrite Hrun. exact Hrun2.
    + destruct Hrun as [Hl Hrun].
      destruct (SQLite.db_run driver d1' "COMMIT" None)
        as [d2' [e|lastID1 changes1]] eqn:Hc.
      * injection Htry as <- <- <-.
        split.
        { exists (S (List.length (SQLite.tq_queries t))).
          rewrite Hl.
          rewrite firstn_app, length_map.
          replace (S (List.length (SQLite.tq_queries t))
                   - List.length (SQLite.tq_queries t)) with 1 by lia.
          rewrite firstn_all2 by (rewrite length_map; lia).
          reflexivity. }
        intros d3 lastID changes Hrb.
        assert (Hadv2 : SQLite.advanced s d2' (l' ++ ["COMMIT"])%list
                          (SQLite.set_db d2' (SQLite.send "COMMIT" s1))).
        { unfold SQLite.advanced in *.
          destruct Hadv' as (H1 & H2 & H3 & H4 & H5 & H6 & H7 & H8 & H9).
          destruct s1; cbn in *. subst.
          rewrite <- app_assoc. repeat split. }
        destruct (catch_transaction_rejects DB driver t e s
                    (SQLite.set_db d2' (SQLite.send "COMMIT" s1)) d2' d3
                    (l' ++ ["COMMIT"])%list lastID changes Hadv2 Hrb)
          as (s2 & Hadv3 & Hrun3).
        exists s2. split; [exact Hadv3|].
        rewrite length_app. cbn [List.length].
        replace (S (S (List.length l' + 1)))
          with (S (List.length l') + 1 + 1) by lia.
        rewrite !repeat_app, !run_app.
        cbn [repeat SQLite.run fold_left SQLite.step].
        rewrite Hfirst.
        change (fold_left (SQLite.step driver)
                  (repeat SQLite.Reply (List.length l'))
                  (SQLite.next_statement t (SQLite.tq_queries t)
                     (SQLite.set_db d0 s)))
          with (SQLite.run driver (repeat SQLite.Reply (List.length l'))
                  (SQLite.next_statement t (SQLite.tq_queries t)
                     (SQLite.set_db d0 s))).
        rewrite Hrun.
        rewrite <- Hrun3. f_equal.
        unfold SQLite.reply, SQLite.next_statement.
        replace (SQLite.handler
                   (SQLite.set_handler (SQLite.AwaitCommit t)
                      (SQLite.send "COMMIT" s1)))
          with (SQLite.AwaitCommit t) by now destruct s1.
        replace (SQLite.m_db
                   (SQLite.set_handler (SQLite.AwaitCommit t)
                      (SQLite.send "COMMIT" s1)))
          with d1' by (destruct Hadv' as [<- _]; now destruct s1).
        rewrite Hc.
        unfold SQLite.catch_transaction. now destruct s1.
      * injection Htry as <- <- <-.
        split.
        { exists (S (List.length (SQLite.tq_queries t))).
          rewrite Hl.
          rewrite firstn_app, length_map.
          replace (S (List.length (SQLite.tq_queries t))
                   - List.length (SQLite.tq_queries t)) with 1 by lia.
          rewrite firstn_all2 by (rewrite length_map; lia).
          reflexivity. }
        split; [now rewrite Hl|].
        exists (SQLite.set_db d2' (SQLite.send "COMMIT" s1)).
        split.
        { unfold SQLite.advanced in *.
          destruct Hadv' as (H1 & H2 & H3 & H4 & H5 & H6 & H7 & H8 & H9).
          destruct s1; cbn in *. subst.
          rewrite <- app_assoc. repeat split. }
        rewrite length_app. cbn [List.length].
        replace (S (List.length l' + 1))
          with (S (List.length l') + 1) by lia.
        rewrite !repeat_app, !run_app.
        cbn [repeat SQLite.run fold_left SQLite.step].
        rewrite Hfirst.
        change (fold_left (SQLite.step driver)
                  (repeat SQLite.Reply (List.length l'))
                  (SQLite.next_statement t (SQLite.tq_queries t)
                     (SQLite.set_db d0 s)))
          with (SQLite.run driver (repeat SQLite.Reply (List.length l'))
                  (SQLite.next_statement t (SQLite.tq_queries t)
                     (SQLite.set_db d0 s))).
        rewrite Hrun.
        unfold SQLite.reply, SQLite.next_statement.
        replace (SQLite.handler
                   (SQLite.set_handler (SQLite.AwaitCommit t)
                      (SQLite.send "COMMIT" s1)))
          with (SQLite.AwaitCommit t) by now destruct s1.
        replace (SQLite.m_db
                   (SQLite.set_handler (SQLite.AwaitCommit t)
                      (SQLite.send "COMMIT" s1)))
          with d1' by (destruct Hadv' as [<- _]; now destruct s1).
        rewrite Hc.
        now destruct s1.
Qed.

Lemma transaction_runs_to_commit_or_rollback_insert :
  let t :=
    {| SQLite.tq_queries := [Examples.insert_account];
       SQLite.tq_callback := 0 |} in
  let s :=
    SQLite.run Examples.tracking
      [SQLite.CallTransaction [Examples.insert_account]; SQLite.Tick]
      (SQLite.initial false) in
  let l := ["INSERT INTO accounts (id) VALUES (1)"; "COMMIT"] in
  (SQLite.handler s = SQLite.AwaitBegin t
   /\ SQLite.try_block Examples.tracking (SQLite.m_db s) t = (false, l, None))
  /\ (exists k,
        l = firstn k
              (map Interfaces.query (SQLite.tq_queries t) ++ ["COMMIT"])%list)
  /\ l = (map Interfaces.query (SQLite.tq_queries t) ++ ["COMMIT"])%list
  /\ exists s1,
       SQLite.advanced s false l s1
       /\ SQLite.run Examples.tracking (repeat SQLite.Reply 3) s
          = SQLite.loop_transactions
              (SQLite.settle 0 (JS.Resolved None) s1).
Proof.
  cbv zeta.
  split; [split; reflexivity|].
  exact (transaction_runs_to_commit_or_rollback bool Examples.tracking
           (SQLite.run Examples.tracking
              [SQLite.CallTransaction [Examples.insert_account]; SQLite.Tick]
              (SQLite.initial false))
           {| SQLite.tq_queries := [Examples.insert_account];
              SQLite.tq_callback := 0 |}
           false ["INSERT INTO accounts (id) VALUES (1)"; "COMMIT"] None
           eq_refl eq_refl).
Defined.

(** ** Start and end of an SQLite instance *)

Section ClosingFacts.
Import SQLite.
Variable DB : Type.
Variable driver : Database DB.

Local Abbreviation state := (SQLite.state DB).

(** The handler leaves the state of [close] alone. *)
Lemma loops_closing (s : state) :
  closing (loop_transactions s) = closing s
  /\ closing (loop_all s) = closing s
  /\ closing (loop_run s) = closing s.
Proof.
  unfold loop_transactions, loop_all, loop_run.
  destruct s as [d0 p tq aq rq h c n st sn]; cbn.
  destruct tq, aq, rq; auto.
Qed.

Lemma reply_closing (s : state) : closing (reply driver s) = closing s.
Proof.
  unfold reply.
  destruct (handler s) as [|t|t q rest|t|t e|q|q|t e]; trivial.
  - destruct (db_run driver (m_db s) "BEGIN TRANSACTION" None)
      as [d [e|l ch]]; [now destruct s|].
    unfold next_statement. destruct (tq_queries t); now destruct s.
  - destruct (db_run driver (m_db s) (Interfaces.query q)
                (values_or_empty (Interfaces.values q)))
      as [d [e|l ch]]; [now destruct s|].
    unfold next_statement. destruct rest; now destruct s.
  - destruct (db_run driver (m_db s) "COMMIT" None)
      as [d [e|l ch]]; [now destruct s|].
    rewrite (proj1 (loops_closing _)). now destruct s.
  - destruct (db_run driver (m_db s) "ROLLBACK" None)
      as [d [e'|l ch]]; [now destruct s|].
    rewrite (proj1 (loops_closing _)). now destruct s.
  - destruct (db_all driver (m_db s) (qq_query q) (qq_values q))
      as [d [e|rows]];
      rewrite (proj1 (proj2 (loops_closing _))); now destruct s.
  - destruct (db_run driver (m_db s) (qq_query q) (qq_values q))
      as [d [e|l ch]];
      rewrite (proj2 (proj2 (loops_closing _))); now destruct s.
Qed.

Lemma drain_closing (n : nat) (s : state) :
  closing (run driver (Tick :: repeat Reply n) s) = closing s.
Proof.
  cbn [run fold_left step].
  assert (Ht : closing (tick s) = closing s).
  { unfold tick. destruct (paused s); [reflexivity|].
    rewrite (proj1 (loops_closing _)). now destruct s. }
  rewrite <- Ht.
  generalize (tick s) as s0.
  induction n as [|n IH]; intros s0; [reflexivity|].
  cbn [repeat fold_left step].
  now rewrite IH, reply_closing.
Qed.

End ClosingFacts.

(** X18.  [close] called on an instance whose handler is at rest, with
    whatever is in the queues, and whose next poll comes after the
    drain has ended (the connection refusing no [ROLLBACK], or no
    transaction waiting): the connection is asked to close only then,
    when every promise that was waiting is settled, in the order
    transactions, reads, writes, and every queued statement has been
    sent; the promise of [close] is settled with the answer of the
    connection, and settles no other promise. *)
Theorem close_after_the_drain (DB : Type) (driver : SQLite.Database DB)
    (s : SQLite.state DB) :
  SQLite.paused s = false ->
  SQLite.closing s = SQLite.NotClosing ->
  SQLite.m_transactionQueue s = [] \/ SQLite.rollback_accepted driver ->
  exists n,
    let s1 :=
      SQLite.run driver
        (SQLite.CallClose :: SQLite.Tick
         :: repeat SQLite.Reply n ++ [SQLite.Wake])%list s in
    let s' := SQLite.step driver s1 SQLite.Closed in
    SQLite.closing s1 = SQLite.CloseRequested
    /\ SQLite.handler s1 = SQLite.Idle
    /\ SQLite.queues_empty s1 = true
    /\ SQLite.settled_order s1
       = (SQLite.settled_order s ++ SQLite.queued s)%list
    /\ (exists l,
          SQLite.sent s1 = (SQLite.sent s ++ l ++ SQLite.queued_texts s)%list)
    /\ SQLite.settled s' = SQLite.settled s1
    /\ SQLite.closing s'
       = SQLite.CloseSettled
           match snd (SQLite.db_close driver (SQLite.m_db s1)) with
           | Some e => JS.Rejected e
           | None => JS.Resolved tt
           end.
Proof.
  intros Hp Hc Hsafe.
  set (s0 := SQLite.close s).
  assert (H0 : SQLite.paused s0 = false
               /\ SQLite.m_transactionQueue s0 = SQLite.m_transactionQueue s
               /\ SQLite.settled_order s0 = SQLite.settled_order s
               /\ SQLite.queued s0 = SQLite.queued s
               /\ SQLite.sent s0 = SQLite.sent s
               /\ SQLite.queued_texts s0 = SQLite.queued_texts s
               /\ (SQLite.closing s0 = SQLite.Sleeping
                   \/ SQLite.closing s0 = SQLite.CloseRequested)).
  { unfold s0, SQLite.close, SQLite.close_poll. rewrite Hc.
    destruct (SQLite.queues_empty s); destruct s; cbn in *; auto 10. }
  destruct H0 as (Hp0 & Htq0 & Hso0 & Hq0 & Hsn0 & Hqt0 & Hc0).
  assert (Hsafe0 : SQLite.m_transactionQueue s0 = []
                   \/ SQLite.rollback_accepted driver).
  { rewrite Htq0. exact Hsafe. }
  destruct (drain_cycle DB driver s0 Hp0 Hsafe0) as (n & Hn).
  cbn zeta in Hn.
  destruct Hn as (Hidle & Hpaused & Hempty & Hsettled & l & Hsent).
  exists n.
  cbn zeta.
  change (SQLite.CallClose :: SQLite.Tick
          :: repeat SQLite.Reply n ++ [SQLite.Wake])%list
    with ([SQLite.CallClose]
          ++ (SQLite.Tick :: repeat SQLite.Reply n) ++ [SQLite.Wake])%list.
  rewrite !run_app.
  change (SQLite.run driver [SQLite.CallClose] s) with s0.
  pose proof (drain_closing DB driver n s0) as Hcl.
  set (s2 := SQLite.run driver (SQLite.Tick :: repeat SQLite.Reply n) s0) in *.
  assert (H1 : SQLite.closing (SQLite.wake s2) = SQLite.CloseRequested
               /\ SQLite.handler (SQLite.wake s2) = SQLite.handler s2
               /\ SQLite.queues_empty (SQLite.wake s2) = SQLite.queues_empty s2
               /\ SQLite.settled (SQLite.wake s2) = SQLite.settled s2
               /\ SQLite.sent (SQLite.wake s2) = SQLite.sent s2).
  { unfold SQLite.wake, SQLite.close_poll.
    rewrite Hcl.
    destruct Hc0 as [E|E]; rewrite E, ?Hempty;
      repeat split; try reflexivity; try exact Hempty;
      rewrite Hcl; exact E. }
  destruct H1 as (H1 & H2 & H3 & H4 & H5).
  change (SQLite.run driver [SQLite.Wake] s2) with (SQLite.wake s2).
  split; [exact H1|].
  split; [now rewrite H2|].
  split; [now rewrite H3|].
  split.
  { unfold SQLite.settled_order in *. now rewrite H4, Hsettled, Hso0, Hq0. }
  split.
  { exists l. now rewrite H5, Hsent, Hsn0, Hqt0. }
  cbn [SQLite.step]. unfold SQLite.closed. rewrite H1.
  destruct (SQLite.db_close driver (SQLite.m_db (SQLite.wake s2)))
    as [d' [e|]]; cbn [snd]; split; trivial;
    now destruct (SQLite.wake s2).
Qed.

Lemma close_after_the_drain_accounts :
  let s :=
    SQLite.run Examples.accepting
      [SQLite.CallTransaction [Examples.insert_account];
       SQLite.CallQuery "SELECT id FROM accounts" None]
      (SQLite.initial tt) in
  (SQLite.paused s = false
   /\ SQLite.closing s = SQLite.NotClosing
   /\ (SQLite.m_transactionQueue s = []
       \/ SQLite.rollback_accepted Examples.accepting))
  /\ exists n,
       let s1 :=
         SQLite.run Examples.accepting
           (SQLite.CallClose :: SQLite.Tick
            :: repeat SQLite.Reply n ++ [SQLite.Wake])%list s in
       let s' := SQLite.step Examples.accepting s1 SQLite.Closed in
       SQLite.closing s1 = SQLite.CloseRequested
       /\ SQLite.handler s1 = SQLite.Idle
       /\ SQLite.queues_empty s1 = true
       /\ SQLite.settled_order s1 = [0; 1]
       /\ (exists l,
             SQLite.sent s1 = (l ++ ["SELECT id FROM accounts"])%list)
       /\ SQLite.settled s' = SQLite.settled s1
       /\ SQLite.closing s'
          = SQLite.CloseSettled
              match
                snd (SQLite.db_close Examples.accepting (SQLite.m_db s1))
              with
              | Some e => JS.Rejected e
              | None => JS.Resolved tt
              end.
Proof.
  intros s.
  assert (Hrb : SQLite.rollback_accepted Examples.accepting).
  { intros d. exists d, 1%Z, 1%Z. reflexivity. }
  split; [repeat split; try reflexivity; right; exact Hrb|].
  exact (close_after_the_drain unit Examples.accepting s
           eq_refl eq_refl (or_intror Hrb)).
Defined.



Section StuckFacts.
Import SQLite.
Variable DB : Type.
Variable driver : Database DB.

(** Behind a dead handler with entries in the queues every event leaves
    the instance as stuck as it was, and a [close] asleep. *)
Lemma step_stuck (s : SQLite.state DB) (t : ITransactionQueueEntry)
    (e : JS.Error) (ev : event) :
  handler s = Dead t e -> paused s = true -> queues_empty s = false ->
  closing s = NotClosing \/ closing s = Sleeping ->
  let s' := step driver s ev in
  handler s' = Dead t e /\ paused s' = true /\ queues_empty s' = false
  /\ (closing s' = NotClosing \/ closing s' = Sleeping)
  /\ (closing s = Sleeping \/ ev = CallClose -> closing s' = Sleeping)
  /\ settled s' = settled s /\ sent s' = sent s /\ m_db s' = m_db s.
Proof.
  intros Hh Hp Hq Hc.
  destruct ev as [text values|queries| | | | |]; cbn [step]; cbn zeta.
  - unfold query.
    destruct (has_verb text "select");
      destruct s as [d0 p tq aq rq h c n st sn]; cbn in *;
      unfold queues_empty in *; cbn in *;
      (repeat split; trivial;
       try (destruct tq, rq, aq; try discriminate Hq; reflexivity);
       try (intros [H|H]; [exact H|discriminate H])).
  - destruct s as [d0 p tq aq rq h c n st sn]; cbn in *;
      unfold queues_empty in *; cbn in *;
      (repeat split; trivial;
       try (destruct tq, rq, aq; try discriminate Hq; reflexivity);
       try (intros [H|H]; [exact H|discriminate H])).
  - unfold close, close_poll. rewrite Hq.
    destruct Hc as [Hc|Hc]; rewrite Hc;
      destruct s as [d0 p tq aq rq h c n st sn]; cbn in *; auto 10.
  - unfold tick. rewrite Hp.
    repeat split; trivial.
    intros [H|H]; [exact H|discriminate H].
  - unfold reply. rewrite Hh.
    repeat split; trivial.
    intros [H|H]; [exact H|discriminate H].
  - unfold wake, close_poll. rewrite Hq.
    destruct Hc as [Hc|Hc]; rewrite Hc;
      destruct s as [d0 p tq aq rq h c n st sn]; cbn in *;
      (repeat split; auto;
       try (intros [H|H]; [congruence|discriminate H])).
  - unfold closed.
    destruct Hc as [Hc|Hc]; rewrite Hc;
      (repeat split; auto;
       try (intros [H|H]; [congruence|discriminate H])).
Qed.

Lemma run_stuck (t : ITransactionQueueEntry) (e : JS.Error)
    (evs : list event) :
  forall s : SQLite.state DB,
    handler s = Dead t e -> paused s = true -> queues_empty s = false ->
    closing s = NotClosing \/ closing s = Sleeping ->
    let s' := run driver evs s in
    (closing s' = NotClosing \/ closing s' = Sleeping)
    /\ (closing s = Sleeping \/ In CallClose evs -> closing s' = Sleeping)
    /\ settled s' = settled s /\ sent s' = sent s /\ m_db s' = m_db s.
Proof.
  induction evs as [|ev evs IH]; intros s Hh Hp Hq Hc.
  - cbn. repeat split; trivial. intros [H|[]]. exact H.
  - destruct (step_stuck s t e ev Hh Hp Hq Hc)
      as (Hh' & Hp' & Hq' & Hc' & Hsl & Hst & Hsn & Hdb).
    cbn zeta in *.
    cbn [run fold_left].
    change (fold_left (step driver) evs (step driver s ev))
      with (run driver evs (step driver s ev)).
    destruct (IH (step driver s ev) Hh' Hp' Hq' Hc')
      as (H1 & H2 & H3 & H4 & H5).
    split; [exact H1|].
    split.
    + intros [H|[H|H]].
      * apply H2. left. apply Hsl. now left.
      * apply H2. left. apply Hsl. now right.
      * apply H2. now right.
    + repeat split; congruence.
Qed.

End StuckFacts.

(** X21.  Once the handler has died on a refused [ROLLBACK] while
    entries are left in the queues, [close] never completes: whatever
    is called, answered or polled afterwards, [close] keeps sleeping,
    the connection is never asked to close and receives no further
    statement, and no promise is settled. *)
Theorem close_never_settles_behind_a_dead_handler (DB : Type)
    (driver : SQLite.Database DB) (t : SQLite.ITransactionQueueEntry)
    (e : JS.Error) (evs : list SQLite.event) (s : SQLite.state DB) :
  SQLite.handler s = SQLite.Dead t e ->
  SQLite.paused s = true ->
  SQLite.queues_empty s = false ->
  SQLite.closing s = SQLite.NotClosing \/ SQLite.closing s = SQLite.Sleeping ->
  let s' := SQLite.run driver evs s in
  (SQLite.closing s' = SQLite.NotClosing
   \/ SQLite.closing s' = SQLite.Sleeping)
  /\ (In SQLite.CallClose evs -> SQLite.closing s' = SQLite.Sleeping)
  /\ SQLite.settled s' = SQLite.settled s
  /\ SQLite.sent s' = SQLite.sent s
  /\ SQLite.m_db s' = SQLite.m_db s.
Proof.
  intros Hh Hp Hq Hc.
  destruct (run_stuck DB driver t e evs s Hh Hp Hq Hc)
    as (H1 & H2 & H3 & H4 & H5).
  cbn zeta in *.
  repeat split; trivial.
  intros Hin. apply H2. now right.
Qed.

Lemma close_never_settles_behind_a_dead_handler_accounts :
  let s :=
    SQLite.run Examples.tracking
      [ SQLite.CallTransaction [Examples.insert_or_rollback];
        SQLite.CallQuery "SELECT id FROM accounts" None;
        SQLite.Tick; SQLite.Reply; SQLite.Reply; SQLite.Reply ]
      (SQLite.initial false) in
  let t :=
    {| SQLite.tq_queries := [Examples.insert_or_rollback];
       SQLite.tq_callback := 0 |} in
  let evs := [SQLite.CallClose; SQLite.Tick; SQLite.Wake; SQLite.Closed] in
  (SQLite.handler s = SQLite.Dead t (Examples.no_transaction "rollback")
   /\ SQLite.paused s = true
   /\ SQLite.queues_empty s = false
   /\ (SQLite.closing s = SQLite.NotClosing
       \/ SQLite.closing s = SQLite.Sleeping))
  /\ let s' := SQLite.run Examples.tracking evs s in
     (SQLite.closing s' = SQLite.NotClosing
      \/ SQLite.closing s' = SQLite.Sleeping)
     /\ (In SQLite.CallClose evs -> SQLite.closing s' = SQLite.Sleeping)
     /\ SQLite.settled s' = SQLite.settled s
     /\ SQLite.sent s' = SQLite.sent s
     /\ SQLite.m_db s' = SQLite.m_db s.
Proof.
  intros s t evs.
  split; [repeat split; try reflexivity; now left|].
  exact (close_never_settles_behind_a_dead_handler bool Examples.tracking
           t (Examples.no_transaction "rollback") evs s
           eq_refl eq_refl eq_refl (or_introl eq_refl)).
Defined.

(** ** Every operation is settled *)

Section LivenessFacts.
Import SQLite.
Variable DB : Type.
Variable driver : Database DB.

Local Abbreviation state := (SQLite.state DB).

Lemma loops_promises (s : state) :
  promises (loop_transactions s) = promises s
  /\ promises (loop_all s) = promises s
  /\ promises (loop_run s) = promises s.
Proof.
  unfold loop_transactions, loop_all, loop_run.
  destruct s as [d0 p tq aq rq h c n st sn]; cbn.
  destruct tq, aq, rq; auto.
Qed.

Lemma reply_promises (s : state) : promises (reply driver s) = promises s.
Proof.
  unfold reply.
  destruct (handler s) as [|t|t q rest|t|t e|q|q|t e]; trivial.
  - destruct (db_run driver (m_db s) "BEGIN TRANSACTION" None)
      as [d [e|l ch]]; [now destruct s|].
    unfold next_statement. destruct (tq_queries t); now destruct s.
  - destruct (db_run driver (m_db s) (Interfaces.query q)
                (values_or_empty (Interfaces.values q)))
      as [d [e|l ch]]; [now destruct s|].
    unfold next_statement. destruct rest; now destruct s.
  - destruct (db_run driver (m_db s) "COMMIT" None)
      as [d [e|l ch]]; [now destruct s|].
    rewrite (proj1 (loops_promises _)). now destruct s.
  - destruct (db_run driver (m_db s) "ROLLBACK" None)
      as [d [e'|l ch]]; [now destruct s|].
    rewrite (proj1 (loops_promises _)). now destruct s.
  - destruct (db_all driver (m_db s) (qq_query q) (qq_values q))
      as [d [e|rows]];
      rewrite (proj1 (proj2 (loops_promises _))); now destruct s.
  - destruct (db_run driver (m_db s) (qq_query q) (qq_values q))
      as [d [e|l ch]];
      rewrite (proj2 (proj2 (loops_promises _))); now destruct s.
Qed.

Lemma replies_promises (n : nat) :
  forall s : state, promises (run driver (repeat Reply n) s) = promises s.
Proof.
  induction n as [|n IH]; intros s; [reflexivity|].
  cbn [repeat run fold_left step].
  change (fold_left (step driver) (repeat Reply n) (reply driver s))
    with (run driver (repeat Reply n) (reply driver s)).
  now rewrite IH, reply_promises.
Qed.

(** When no [ROLLBACK] is refused the handler never dies. *)
Lemma step_alive (s : state) (ev : event) :
  rollback_accepted driver -> alive s -> alive (step driver s ev).
Proof.
  intros Hrb Halive.
  destruct ev as [text values|queries| | | | |]; cbn [step].
  - intros t e. unfold query.
    destruct (has_verb text "select");
      (replace (handler _) with (handler s) by (now destruct s));
      apply Halive.
  - intros t e.
    replace (handler (transaction queries s)) with (handler s)
      by (now destruct s).
    apply Halive.
  - unfold close, close_poll.
    destruct (closing s); trivial.
    intros t e.
    destruct (queues_empty s);
      (replace (handler _) with (handler s) by (now destruct s));
      apply Halive.
  - unfold tick.
    destruct (paused s); [exact Halive|apply loop_transactions_alive].
  - apply reply_alive; [now left|exact Halive].
  - unfold wake, close_poll.
    destruct (closing s); trivial.
    intros t e.
    destruct (queues_empty s);
      (replace (handler _) with (handler s) by (now destruct s));
      apply Halive.
  - unfold closed.
    destruct (closing s); trivial.
    intros t e.
    destruct (db_close driver (m_db s)) as [d [e'|]];
      (replace (handler _) with (handler s) by (now destruct s));
      apply Halive.
Qed.

Lemma run_alive (evs : list event) :
  forall s : state,
    rollback_accepted driver -> alive s -> alive (run driver evs s).
Proof.
  induction evs as [|ev evs IH]; intros s Hrb Halive; [exact Halive|].
  cbn [run fold_left].
  apply IH; [exact Hrb|now apply step_alive].
Qed.

(** A handler at rest stays at rest while only answers arrive. *)
Lemma replies_at_rest (n : nat) (s : state) :
  handler s = Idle -> run driver (repeat Reply n) s = s.
Proof.
  intros Hidle.
  induction n as [|n IH]; [reflexivity|].
  cbn [repeat run fold_left step].
  replace (reply driver s) with s; [exact IH|].
  unfold reply. now rewrite Hidle.
Qed.

(** Enough answers bring a living handler to rest. *)
Lemma replies_reach_rest (n : nat) :
  forall s : state,
    rollback_accepted driver -> alive s -> work s <= n ->
    handler (run driver (repeat Reply n) s) = Idle.
Proof.
  induction n as [|n IH]; intros s Hrb Halive Hw.
  - cbn.
    destruct (handler s) eqn:Hh; try reflexivity;
      try (destruct s as [d0 p tq aq rq h c k st sn]; cbn in *; subst h;
           unfold work in Hw; cbn in Hw; unfold transaction_work in Hw; lia).
    exfalso. now apply (Halive t e).
  - destruct (handler s) eqn:Hh;
      try (cbn [repeat run fold_left step];
           apply IH;
           [ exact Hrb
           | apply reply_alive; [now left|exact Halive]
           | assert (work (reply driver s) < work s);
             [apply reply_work; [rewrite Hh; discriminate|exact Halive]|lia]
           ]).
    now rewrite replies_at_rest.
Qed.

End LivenessFacts.

(** X20.  On a connection that answers every request and refuses no
    [ROLLBACK], at every moment of the life of an instance, whatever
    has been called and answered so far: the answers still due bring
    the handler to rest, and the drain that the next tick starts ends
    with the queues empty and with every promise handed out so far
    settled, and no other. *)
Theorem every_promise_settled_after_the_next_tick (DB : Type)
    (driver : SQLite.Database DB) (d : DB) (evs : list SQLite.event) :
  SQLite.rollback_accepted driver ->
  let s := SQLite.run driver evs (SQLite.initial d) in
  exists n m,
    let s' :=
      SQLite.run driver
        (repeat SQLite.Reply n ++ SQLite.Tick :: repeat SQLite.Reply m)%list
        s in
    SQLite.handler s' = SQLite.Idle
    /\ SQLite.queues_empty s' = true
    /\ forall p : SQLite.promise,
         In p (SQLite.settled_order s') <-> p < SQLite.promises s.
Proof.
  intros Hrb s.
  assert (Hp : SQLite.paused s = SQLite.busy (SQLite.handler s)).
  { apply run_timer. reflexivity. }
  assert (Hacc : SQLite.accounted s).
  { apply run_accounted; [reflexivity|apply initial_accounted]. }
  assert (Halive : SQLite.alive s).
  { apply run_alive; [exact Hrb|]. intros t e. discriminate. }
  exists (SQLite.work s).
  set (s2 := SQLite.run driver (repeat SQLite.Reply (SQLite.work s)) s).
  assert (Hidle2 : SQLite.handler s2 = SQLite.Idle).
  { apply replies_reach_rest; trivial. }
  assert (Hp2 : SQLite.paused s2 = false).
  { unfold s2. rewrite run_timer; [|exact Hp]. fold s2. now rewrite Hidle2. }
  assert (Hacc2 : SQLite.accounted s2).
  { apply run_accounted; assumption. }
  assert (Hn2 : SQLite.promises s2 = SQLite.promises s).
  { apply replies_promises. }
  destruct (drain_cycle DB driver s2 Hp2 (or_intror Hrb)) as (m & Hm).
  exists m.
  cbn zeta in Hm |- *.
  rewrite run_app. fold s2.
  destruct Hm as (H1 & H2 & H3 & H4 & _).
  split; [exact H1|].
  split; [exact H3|].
  intros p.
  rewrite H4, <- Hn2.
  rewrite <- (accounted_In DB s2 p Hacc2).
  unfold SQLite.waiting. rewrite Hidle2. reflexivity.
Qed.

Lemma every_promise_settled_after_the_next_tick_accounts :
  let evs :=
    [ SQLite.CallTransaction [Examples.insert_account];
      SQLite.Tick;
      SQLite.CallQuery "SELECT id FROM accounts" None;
      SQLite.Reply ] in
  SQLite.rollback_accepted Examples.accepting
  /\ exists n m,
       let s' :=
         SQLite.run Examples.accepting
           (repeat SQLite.Reply n ++ SQLite.Tick :: repeat SQLite.Reply m)%list
           (SQLite.run Examples.accepting evs (SQLite.initial tt)) in
       SQLite.handler s' = SQLite.Idle
       /\ SQLite.queues_empty s' = true
       /\ forall p : SQLite.promise,
            In p (SQLite.settled_order s')
            <-> p < SQLite.promises
                      (SQLite.run Examples.accepting evs (SQLite.initial tt)).
Proof.
  intros evs.
  assert (Hrb : SQLite.rollback_accepted Examples.accepting).
  { intros d. exists d, 1%Z, 1%Z. reflexivity. }
  split; [exact Hrb|].
  exact (every_promise_settled_after_the_next_tick unit Examples.accepting
           tt evs Hrb).
Defined.

Section LateArrivals.
Import SQLite.
Variable DB : Type.
Variable driver : Database DB.

(** In the loop of the writes the handler shifts writes alone. *)
Lemma write_loop_step (s : SQLite.state DB) (ev : event) :
  handler s = Idle \/ (exists q, handler s = AwaitRun q) ->
  match ev with
  | Reply => true
  | _ => is_submission ev
  end = true ->
  let s' := step driver s ev in
  (handler s' = Idle \/ (exists q, handler s' = AwaitRun q))
  /\ map qq_query (m_allQueue s')
     = (map qq_query (m_allQueue s) ++ texts_of is_read [ev])%list
  /\ List.length (m_transactionQueue s')
     = List.length (m_transactionQueue s)
       + List.length (filter is_transaction [ev]).
Proof.
  intros Hh Hev.
  destruct ev as [text values|queries| | | | |]; try discriminate Hev;
    cbn [step]; cbn zeta.
  - unfold query. cbn [texts_of is_read is_transaction filter List.length].
    destruct (has_verb text "select");
      destruct s as [d0 p tq aq rq h c n st sn]; cbn in *;
      rewrite ?map_app, ?app_nil_r; cbn; repeat split; auto.
  - cbn [texts_of is_transaction filter List.length].
    destruct s as [d0 p tq aq rq h c n st sn]; cbn in *.
    rewrite length_app, ?app_nil_r. cbn. repeat split; auto.
  - cbn [texts_of is_transaction filter List.length].
    rewrite app_nil_r, Nat.add_0_r.
    unfold reply.
    destruct Hh as [Hi|[q Hq]].
    + rewrite Hi. repeat split; auto.
    + rewrite Hq.
      destruct (db_run driver (m_db s) (qq_query q) (qq_values q))
        as [d [e|l ch]];
        unfold loop_run;
        destruct s as [d0 p tq aq rq h c n st sn]; cbn in *;
        (destruct rq as [|q' rest]; cbn;
         [ repeat split; auto
         | repeat split; auto; right; now exists q' ]).
Qed.

Lemma texts_of_cons (class : event -> bool) (ev : event)
    (evs : list event) :
  texts_of class (ev :: evs)
  = (texts_of class [ev] ++ texts_of class evs)%list.
Proof.
  destruct ev as [text values|queries| | | | |]; cbn [texts_of];
    try reflexivity.
  destruct (class (CallQuery text values)); reflexivity.
Qed.

Lemma write_loop_run (evs : list event) :
  forall s : SQLite.state DB,
    handler s = Idle \/ (exists q, handler s = AwaitRun q) ->
    forallb (fun ev => match ev with
                       | Reply => true
                       | _ => is_submission ev
                       end) evs = true ->
    let s' := run driver evs s in
    (handler s' = Idle \/ (exists q, handler s' = AwaitRun q))
    /\ map qq_query (m_allQueue s')
       = (map qq_query (m_allQueue s) ++ texts_of is_read evs)%list
    /\ List.length (m_transactionQueue s')
       = List.length (m_transactionQueue s)
         + List.length (filter is_transaction evs).
Proof.
  induction evs as [|ev evs IH]; intros s Hh Hevs.
  - cbn. rewrite app_nil_r, Nat.add_0_r. auto.
  - cbn [forallb] in Hevs.
    apply andb_true_iff in Hevs as [Hev Hevs].
    destruct (write_loop_step s ev Hh Hev) as (Hh' & Hreads & Htq).
    cbn zeta in *.
    cbn [run fold_left].
    change (fold_left (step driver) evs (step driver s ev))
      with (run driver evs (step driver s ev)).
    destruct (IH (step driver s ev) Hh' Hevs) as (H1 & H2 & H3).
    cbn zeta in *.
    split; [exact H1|].
    split.
    + rewrite H2, Hreads, (texts_of_cons is_read ev evs).
      now rewrite app_assoc.
    + rewrite H3, Htq.
      cbn [filter].
      destruct (is_transaction ev); cbn [List.length]; lia.
Qed.

End LateArrivals.

(** X22.  The drain never goes back to a loop it has left.  From the
    moment the handler executes a write, whatever is submitted and
    answered until the next tick: the handler goes on with writes only
    and then comes to rest, the timer resumed; the reads and the
    transactions that arrive meanwhile are queued and not executed, the
    reads in their order behind those already waiting: they wait for
    the next tick. *)
Theorem late_arrivals_wait_for_the_next_tick (DB : Type)
    (driver : SQLite.Database DB) (q : SQLite.IQueryQueueEntry)
    (evs : list SQLite.event) (s : SQLite.state DB) :
  SQLite.handler s = SQLite.AwaitRun q ->
  SQLite.paused s = true ->
  forallb (fun ev => match ev with
                     | SQLite.Reply => true
                     | _ => SQLite.is_submission ev
                     end) evs = true ->
  let s' := SQLite.run driver evs s in
  (SQLite.handler s' = SQLite.Idle
   \/ exists q', SQLite.handler s' = SQLite.AwaitRun q')
  /\ SQLite.paused s' = SQLite.busy (SQLite.handler s')
  /\ map SQLite.qq_query (SQLite.m_allQueue s')
     = (map SQLite.qq_query (SQLite.m_allQueue s)
        ++ SQLite.texts_of SQLite.is_read evs)%list
  /\ List.length (SQLite.m_transactionQueue s')
     = List.length (SQLite.m_transactionQueue s)
       + List.length (filter SQLite.is_transaction evs).
Proof.
  intros Hh Hp Hevs.
  destruct (write_loop_run DB driver evs s
              (or_intror (ex_intro _ q Hh)) Hevs) as (H1 & H2 & H3).
  cbn zeta in *.
  split; [exact H1|].
  split; [|split; [exact H2|exact H3]].
  apply run_timer.
  now rewrite Hh, Hp.
Qed.

Lemma late_arrivals_wait_for_the_next_tick_accounts :
  let s :=
    SQLite.run Examples.accepting
      [ SQLite.CallQuery "INSERT INTO accounts (id) VALUES (1)" None;
        SQLite.Tick ]
      (SQLite.initial tt) in
  let q :=
    {| SQLite.qq_query := "INSERT INTO accounts (id) VALUES (1)";
       SQLite.qq_values := None; SQLite.qq_callback := 0 |} in
  let evs :=
    [ SQLite.CallQuery "SELECT id FROM accounts" None;
      SQLite.CallTransaction [Examples.insert_account];
      SQLite.Reply ] in
  (SQLite.handler s = SQLite.AwaitRun q
   /\ SQLite.paused s = true
   /\ forallb (fun ev => match ev with
                         | SQLite.Reply => true
                         | _ => SQLite.is_submission ev
                         end) evs = true)
  /\ let s' := SQLite.run Examples.accepting evs s in
     (SQLite.handler s' = SQLite.Idle
      \/ exists q', SQLite.handler s' = SQLite.AwaitRun q')
     /\ SQLite.paused s' = SQLite.busy (SQLite.handler s')
     /\ map SQLite.qq_query (SQLite.m_allQueue s')
        = (map SQLite.qq_query (SQLite.m_allQueue s)
           ++ SQLite.texts_of SQLite.is_read evs)%list
     /\ List.length (SQLite.m_transactionQueue s')
        = List.length (SQLite.m_transactionQueue s)
          + List.length (filter SQLite.is_transaction evs).
Proof.
  intros s q evs.
  split; [repeat split; reflexivity|].
  exact (late_arrivals_wait_for_the_next_tick unit Examples.accepting q evs s
           eq_refl eq_refl eq_refl).
Defined.
